(** * FIAMN / FIBMN: spectral similarity and network construction

    A shallow embedding of the two network scripts of the repository,

    - [FIBMN/skeleton_similarity_network/script_06_skeleton_sim.py]
      (peak-matching cosine score, spectral entropy, full pairwise network,
      XGMML emitter, MGF parser), and
    - [FIAMN/family_Network_Cosine/script_03_cosine_similarity_calc.py]
      (merging of close peaks, seed location and breadth-first family
      expansion),

    together with the properties their specification states about them, and
    of the stages that feed them:

    - [FIBMN/spectral_denoising/script_01_spectral_denoising.py]
      (the peaks kept of one spectrum),
    - [FIAMN/TIC_filtering/script_02_TIC_filtering.py]
      (the filter on the total intensity),
    - [FIBMN/precursor_formula_filter/script_04_precursor_formula_filter.py]
      (the CHO formula test and the filter built on it),
    - [FIAMN/skeleton_fragment_filter/script_05_skeleton_fragment_filter.py]
      (the library of hydrocarbon masses, the MGF parser and the peak
      filter).

    Text.  The lines of a file are strings.  [str.strip], [str.split] on
    whitespace, [float] and [re.match] are taken as they are in Python, as
    parameters of the sections that use them.

    Numbers.  Python's [float] is read twice.  Over the real numbers [R]
    every arithmetic operation is the exact one: this reading carries the
    pairing, the thresholds and the structure of the network, and says
    nothing of a last digit.  Over the binary64 numbers of the kernel
    ([Binary64]) [cosine_similarity] is evaluated as the machine evaluates
    it, with rounding, underflow, overflow, infinities and NaN: this reading
    carries what is said of the value returned.  Comparisons on [R] are
    decided by the (classical) decision procedures of the Standard Library.

    Errors.  An operation of Python that can raise returns a [result]; the
    functions below thread it with the usual bind. *)

From Stdlib Require Import Reals Lra Lia.
From Stdlib Require Floats.
From stdpp Require Import base option list sorting gmap sets strings pretty.

(** ** The part of Python the scripts rely on *)
Module Py.

#[global] Instance R_eq_dec : EqDecision R := Req_dec_T.
#[global] Instance R_le_dec : RelDecision Rle := Rle_dec.
#[global] Instance R_lt_dec : RelDecision Rlt := Rlt_dec.

Inductive exn : Set :=
  | ZeroDivisionError
  | KeyError
  | IndexError
  | ValueError
  | TypeError
  | OverflowError.

Inductive result (A : Type) : Type :=
  | Ok (a : A)
  | Raise (e : exn).
Arguments Ok {A} a.
Arguments Raise {A} e.

#[global] Instance result_ret : MRet result := @Ok.
#[global] Instance result_bind : MBind result :=
  λ A B f m, match m with Ok a => f a | Raise e => Raise e end.

(** [for x in xs: acc = body(acc, x)], stopping at the first exception. *)
Fixpoint for_each {A S : Type} (body : S → A → result S) (xs : list A) (acc : S)
  : result S :=
  match xs with
  | [] => Ok acc
  | x :: xs' => acc' ← body acc x; for_each body xs' acc'
  end.

(** [enumerate(xs)], counting from [start]. *)
Fixpoint enumerate_from {A : Type} (start : nat) (xs : list A) : list (nat * A) :=
  match xs with
  | [] => []
  | x :: xs' => (start, x) :: enumerate_from (S start) xs'
  end.

Definition enumerate {A : Type} (xs : list A) : list (nat * A) := enumerate_from 0 xs.

(** [itertools.combinations(xs, 2)]: pairs of positions [i < j], in
    lexicographic order of the positions. *)
Fixpoint combinations2 {A : Type} (xs : list A) : list (A * A) :=
  match xs with
  | [] => []
  | x :: xs' => map (pair x) xs' ++ combinations2 xs'
  end.

(** Truth value of a float: [0.0] is false, everything else true. *)
Definition float_bool (x : R) : bool := bool_decide (x ≠ 0%R).

(** [x / y] on floats. *)
Definition truediv (x y : R) : result R :=
  if decide (y = 0%R) then Raise ZeroDivisionError else Ok (x / y)%R.

(** [math.sqrt]. *)
Definition math_sqrt (x : R) : result R :=
  if decide (x < 0)%R then Raise ValueError else Ok (sqrt x).

(** The builtin [sum], which starts from [0] and adds from the left. *)
Definition sum (xs : list R) : R := fold_left Rplus xs 0%R.

(** [min(a, b)] and [max(a, b)] return the first argument on a tie. *)
Definition min (a b : R) : R := if decide (b < a)%R then b else a.
Definition max (a b : R) : R := if decide (a < b)%R then b else a.

(** Rounding to the nearest integer, ties to the even one. *)
Definition round_half_even (x : R) : Z :=
  let f := Zfloor x in
  let d := (x - IZR f)%R in
  if decide (d < 1 / 2)%R then f
  else if decide (1 / 2 < d)%R then (f + 1)%Z
  else if Z.even f then f else (f + 1)%Z.

(** [round(x, ndigits)]. *)
Definition round (x : R) (ndigits : nat) : R :=
  (IZR (round_half_even (x * 10 ^ ndigits)) / 10 ^ ndigits)%R.

(** A [Dict[float, float]]: the items in insertion order.  A dict built by
    [setitem] never holds a key twice ([wf]). *)
Definition dict : Type := list (R * R).

Definition keys (d : dict) : list R := map fst d.
Definition values (d : dict) : list R := map snd d.
Definition items (d : dict) : list (R * R) := d.

Definition wf (d : dict) : Prop := NoDup (keys d).

(** [d[k]]. *)
Fixpoint getitem (d : dict) (k : R) : result R :=
  match d with
  | [] => Raise KeyError
  | (k', v) :: d' => if decide (k' = k) then Ok v else getitem d' k
  end.

(** [d[k] = v]: an existing key keeps its place, a new one goes last. *)
Fixpoint setitem (d : dict) (k v : R) : dict :=
  match d with
  | [] => [(k, v)]
  | (k', v') :: d' =>
      if decide (k' = k) then (k', v) :: d' else (k', v') :: setitem d' k v
  end.

(** [{k: v for k, v in kvs}]. *)
Definition dict_of_items (kvs : list (R * R)) : dict :=
  fold_left (λ d kv, setitem d kv.1 kv.2) kvs [].

End Py.

Import Py.

(** ** script_06_skeleton_sim.py *)

(** The script with its floats read as real numbers: every operation is
    exact, nothing is rounded and nothing overflows or underflows.
    [Binary64] below has [cosine_similarity] on the machine numbers. *)
Module SkeletonSim.

Definition SIM_THRESHOLD : R := 0.9.
Definition MZ_TOLERANCE_DA : R := 0.01.
Definition ENTROPY_RATIO_LIMIT : R := 0.75.

(** [np.sum] over a one-dimensional array. *)
Definition np_sum (xs : list R) : R := fold_right Rplus 0%R xs.

Definition calculate_spectral_entropy (peaks_dict : dict) : R :=
  let intensities := values peaks_dict in
  let p := filter (λ x, (0 < x)%R) intensities in
  if decide (length p ≤ 1) then 0%R
  else
    let prob := map (λ x, (x / np_sum p)%R) p in
    (- np_sum (map (λ q, (q * ln (q + 1e-12))%R) prob))%R.

(** One record of the parsed MGF file.  The text fields [PEPMASS] (its first
    token) and [RTINSECONDS] are held as the numbers [float] reads from them;
    a missing field is [None].  The numbers are finite and a zero carries no
    sign: fields that read as [nan], [inf] or [-0.0] are no entries of this
    type. *)
Record Entry : Type := {
  PEPMASS : option R;
  RTINSECONDS : option R;
  entry_peaks : list (R * R)
}.

(** The identifier [f"{round(pepmass, 2):.2f}-{int(round(rt))}"], held as the
    two numbers the text is printed from and is split back into. *)
Record SpectrumId : Type := {
  id_pepmass : R;
  id_rt : Z
}.

Definition generate_spectrum_id (entry : Entry) : SpectrumId :=
  let pepmass := default 0%R (PEPMASS entry) in
  let rt := default 0%R (RTINSECONDS entry) in
  {| id_pepmass := round pepmass 2; id_rt := round_half_even rt |}.

(** The inner [for idx2, mz2 in enumerate(keys2)] of [cosine_similarity], up
    to its [break]: the first position of [keys2], from [idx2] on, that is not
    in [matched] and holds a mass within the tolerance of [mz1]. *)
Fixpoint first_match (mz1 : R) (keys2 : list R) (idx2 : nat) (matched : gset nat)
  : option (nat * R) :=
  match keys2 with
  | [] => None
  | mz2 :: rest =>
      if decide ((idx2 ∉ matched) ∧ (Rabs (mz1 - mz2) <= MZ_TOLERANCE_DA)%R)
      then Some (idx2, mz2)
      else first_match mz1 rest (S idx2) matched
  end.

(** The body of [for mz1, int1 in peaks1.items()], on the loop state
    [(dot_product, matched)]. *)
Definition match_peak (peaks2 : dict) (keys2 : list R)
    (st : R * gset nat) (item1 : R * R) : result (R * gset nat) :=
  let '(dot_product, matched) := st in
  let '(mz1, int1) := item1 in
  match first_match mz1 keys2 0 matched with
  | Some (idx2, mz2) =>
      v ← getitem peaks2 mz2;
      Ok ((dot_product + int1 * v)%R, {[idx2]} ∪ matched)
  | None => Ok st
  end.

Definition cosine_similarity (peaks1 peaks2 : dict) : result R :=
  let keys2 := keys peaks2 in
  '(dot_product, _) ← for_each (match_peak peaks2 keys2) (items peaks1) (0%R, ∅);
  n1 ← math_sqrt (sum (map (λ i, i ^ 2)%R (values peaks1)));
  n2 ← math_sqrt (sum (map (λ i, i ^ 2)%R (values peaks2)));
  if float_bool n1 && float_bool n2 then truediv dot_product (n1 * n2) else Ok 0%R.

(** A node of the network: one element of [processed_data]. *)
Record Node : Type := {
  id : SpectrumId;
  peaks : dict;
  entropy : R;
  pepmass : R;
  retention_time : Z
}.

(** An element of [edges]. *)
Record Edge : Type := {
  source : SpectrumId;
  target : SpectrumId;
  similarity : R;
  entropy_ratio : R
}.

(** The XGMML document, element by element: the attributes are kept as
    values, their rendering as text is left out. *)
Record XNode : Type := {
  xn_id : SpectrumId;
  xn_pepmass : R;
  xn_rt : Z;
  xn_spectral_entropy : R
}.

Record XEdge : Type := {
  xe_id : nat;
  xe_source : SpectrumId;
  xe_target : SpectrumId;
  xe_cosine_similarity : R;
  xe_entropy_ratio : R;
  xe_line_style : string
}.

Record Xgmml : Type := {
  xg_nodes : list XNode;
  xg_edges : list XEdge
}.

Definition line_style_of (edge : Edge) : string :=
  if decide (entropy_ratio edge < ENTROPY_RATIO_LIMIT)%R then "dash" else "solid".

Definition write_node (node : Node) : XNode :=
  {| xn_id := id node;
     xn_pepmass := pepmass node;
     xn_rt := retention_time node;
     xn_spectral_entropy := entropy node |}.

Definition write_edge (ie : nat * Edge) : XEdge :=
  let '(i, edge) := ie in
  {| xe_id := i;
     xe_source := source edge;
     xe_target := target edge;
     xe_cosine_similarity := similarity edge;
     xe_entropy_ratio := entropy_ratio edge;
     xe_line_style := line_style_of edge |}.

(** The file [save_cytoscape_xgmml] writes. *)
Definition save_cytoscape_xgmml (all_nodes : list Node) (edges : list Edge) : Xgmml :=
  {| xg_nodes := map write_node all_nodes;
     xg_edges := map write_edge (enumerate edges) |}.

(** [float(sid.split('-')[0])] and [int(sid.split('-')[1])], which read the
    two numbers back from the identifier.  The identifier is the mass with
    two decimals, the separator [-] and the retention time.  A mass below
    zero is printed with its sign, also when it rounds to zero ([-0.00]):
    the text then starts with the separator, its first piece is empty and
    [float('')] raises.  A retention time that rounds below zero puts its
    sign right after the separator: the second piece is empty and [int('')]
    raises.  Otherwise the two pieces are the two numbers printed. *)
Definition split_id (entry : Entry) : result (R * Z) :=
  let sid := generate_spectrum_id entry in
  if decide (default 0 (PEPMASS entry) < 0)%R then Raise ValueError
  else if decide (id_rt sid < 0)%Z then Raise ValueError
  else Ok (id_pepmass sid, id_rt sid).

(** The body of [for entry in entries], on [processed_data]. *)
Definition append_entry (processed_data : list Node) (entry : Entry)
  : result (list Node) :=
  let sid := generate_spectrum_id entry in
  let peaks := dict_of_items (entry_peaks entry) in
  let entropy := calculate_spectral_entropy peaks in
  '(pepmass, rt) ← split_id entry;
  Ok (processed_data ++ [{| id := sid;
                            peaks := peaks;
                            entropy := entropy;
                            pepmass := pepmass;
                            retention_time := rt |}]).

(** The node that loop appends for an entry whose identifier reads back. *)
Definition process_entry (entry : Entry) : Node :=
  let sid := generate_spectrum_id entry in
  let peaks := dict_of_items (entry_peaks entry) in
  {| id := sid;
     peaks := peaks;
     entropy := calculate_spectral_entropy peaks;
     pepmass := id_pepmass sid;
     retention_time := id_rt sid |}.

(** [min(e1, e2) / max(e1, e2)] under its guard. *)
Definition entropy_ratio_of (e1 e2 : R) : result R :=
  if decide ((0 < e1)%R ∧ (0 < e2)%R) then truediv (min e1 e2) (max e1 e2)
  else Ok 1%R.

(** The body of the loop over [combinations(enumerate(processed_data), 2)]. *)
Definition score_pair (edges : list Edge) (pr : (nat * Node) * (nat * Node))
  : result (list Edge) :=
  let '((i, d1), (j, d2)) := pr in
  cos_sim ← cosine_similarity (peaks d1) (peaks d2);
  if decide (SIM_THRESHOLD <= cos_sim)%R then
    ratio ← entropy_ratio_of (entropy d1) (entropy d2);
    Ok (edges ++ [{| source := id d1; target := id d2;
                     similarity := round cos_sim 4;
                     entropy_ratio := round ratio 4 |}])
  else Ok edges.

(** [run_similarity_network_pipeline], from the parsed entries to the
    document written. *)
Definition run_similarity_network_pipeline (entries : list Entry) : result Xgmml :=
  processed_data ← for_each append_entry entries [];
  edges ← for_each score_pair (combinations2 (enumerate processed_data)) [];
  Ok (save_cytoscape_xgmml processed_data edges).

End SkeletonSim.

(** ** script_06_skeleton_sim.py, [cosine_similarity] on binary64 *)

(** The same function on the machine numbers: a [float] is a binary64 number
    of the kernel, with the IEEE 754 operations, round to nearest even. *)
Module Binary64.
Import PrimFloat.
Local Open Scope float_scope.
#[local] Set Warnings "-inexact-float".

(** A [Dict[float, float]]: the items in insertion order, each key once. *)
Definition dict : Type := list (float * float).

Definition values (d : dict) : list float := map snd d.

Definition MZ_TOLERANCE_DA : float := 0.01.

(** Truth value of a float: both zeros are false, everything else, a NaN
    included, is true. *)
Definition float_bool (x : float) : bool := negb (x =? 0).

(** [x / y] on floats, which Python refuses for a zero divisor. *)
Definition truediv (x y : float) : result float :=
  if y =? 0 then Raise ZeroDivisionError else Ok (x / y).

(** [math.sqrt], which raises on a negative number and passes a NaN, an
    infinity and both zeros through. *)
Definition math_sqrt (x : float) : result float :=
  if x <? 0 then Raise ValueError else Ok (sqrt x).

(** [i ** 2].  It raises [OverflowError] when a finite [i] has an infinite
    square; a square that underflows is returned as it is, down to zero.
    The power is taken as the product rounded once, which is the value of
    the power whenever the square is a binary64 number or underflows to the
    smallest one, as in every square evaluated below; of the other squares
    only the sign and the zeros are used. *)
Definition pow2 (i : float) : result float :=
  let r := i * i in
  if is_infinity r && negb (is_infinity i) then Raise OverflowError else Ok r.

(** [sum(i ** 2 for i in values)]: the squares are added from the left to
    the start value 0.  (From version 3.12 on the builtin also carries a
    compensation term: it is zero when the additions are exact and it is
    dropped when the sum is infinite, which covers every sum evaluated
    below; of the other sums only the sign and the zeros are used.) *)
Definition add_square (acc i : float) : result float :=
  sq ← pow2 i; Ok (acc + sq).

Definition sum_squares (values : list float) : result float :=
  for_each add_square values 0.

(** [math.sqrt(sum(i ** 2 for i in peaks.values()))]. *)
Definition l2norm (peaks : dict) : result float :=
  s ← sum_squares (values peaks); math_sqrt s.

(** The inner loop up to its [break]: the first position of [keys2], from
    [idx2] on, that is not in [matched] and holds a mass within the
    tolerance of [mz1], together with [peaks2[mz2]].  As [keys2] lists the
    keys of [peaks2], each once, that is the intensity at the same position. *)
Fixpoint first_match (mz1 : float) (peaks2 : dict) (idx2 : nat) (matched : gset nat)
  : option (nat * float) :=
  match peaks2 with
  | [] => None
  | (mz2, int2) :: rest =>
      if bool_decide (idx2 ∉ matched) && (abs (mz1 - mz2) <=? MZ_TOLERANCE_DA)
      then Some (idx2, int2)
      else first_match mz1 rest (S idx2) matched
  end.

(** The body of [for mz1, int1 in peaks1.items()], on the loop state
    [(dot_product, matched)]. *)
Definition match_peak (peaks2 : dict) (st : float * gset nat) (item1 : float * float)
  : float * gset nat :=
  let '(dot_product, matched) := st in
  let '(mz1, int1) := item1 in
  match first_match mz1 peaks2 0 matched with
  | Some (idx2, int2) => (dot_product + int1 * int2, {[idx2]} ∪ matched)
  | None => st
  end.

Definition cosine_similarity (peaks1 peaks2 : dict) : result float :=
  let '(dot_product, _) := fold_left (match_peak peaks2) peaks1 (0, ∅) in
  n1 ← l2norm peaks1;
  n2 ← l2norm peaks2;
  if float_bool n1 && float_bool n2 then truediv dot_product (n1 * n2) else Ok 0.

(** No intensity is below zero; every intensity is a zero; every mass is a
    finite number. *)
Definition nonneg_intensities (d : dict) : Prop := Forall (λ p, (p.2 <? 0) = false) d.
Definition zero_intensities (d : dict) : Prop := Forall (λ p, (p.2 =? 0) = true) d.
Definition finite_masses (d : dict) : Prop := Forall (λ p, is_finite p.1 = true) d.

(** The squared intensities added up in the order of the peaks. *)
Definition self_dot (d : dict) : float := fold_left (λ acc p, acc + p.2 * p.2) d 0.

Definition unit_peaks_2 : dict := [(100, 1); (200, 1)].
Definition unit_peaks_3 : dict := [(100, 1); (200, 1); (300, 1)].
Definition scenario_A : dict := [(100, 10); (200, 20)].
Definition scenario_B : dict := [(100.005, 10); (300, 5)].
Definition close_peaks : dict := [(100, 1); (100.005, 2)].



Definition ps (x : SpecFloat.spec_float) : Prop :=
  match x with
  | SpecFloat.S754_finite true _ _ | SpecFloat.S754_infinity true
  | SpecFloat.S754_zero true => False
  | _ => True
  end.

End Binary64.

(** ** script_03_cosine_similarity_calc.py *)
Module FamilyCosine.

(** The metadata keys the script reads; a key that is absent reads [None]. *)
Record Metadata : Type := {
  precursor_mz : option R;
  retention_time : option R;
  title : option string
}.

(** A matchms [Spectrum]: metadata and the peaks, each a mass with its
    intensity ([peaks.mz] and [peaks.intensities] are the two columns). *)
Record Spectrum : Type := {
  metadata : Metadata;
  peaks : list (R * R)
}.

(** What the script prints, line by line. *)
Inductive Message : Type :=
  | Loading
  | Searching (target_mz target_rt : R)
  | SeedFound (title50 : string)
  | NotFound
  | SearchingSimilar (threshold : R)
  | Done (n : nat).

(** What a run leaves behind: the lines printed, the spectra saved to the
    output file if it was written, and whether the call returned ([Ok]) or
    raised. *)
Record Run : Type := {
  stdout : list Message;
  written : option (list Spectrum);
  outcome : result unit
}.

Section Script.

(** From numpy and matchms: [numpy.argsort], [normalize_intensities], and the
    score of [CosineGreedy(tolerance).pair].  The two matchms functions are
    taken on spectra: [load_from_mgf] yields spectra, never [None]. *)
Variable argsort : list R → list nat.
Variable normalize_intensities : Spectrum → Spectrum.
Variable CosineGreedy_pair : R → Spectrum → Spectrum → R.

Definition merge_step (spectrum : Spectrum) (tolerance : R)
    (st : list nat * list R) (i : nat) : list nat * list R :=
  let '(keep_idx, seen_mz) := st in
  match (peaks spectrum) !! i with
  | Some (mz_i, _) =>
      if existsb (λ ref, bool_decide (Rabs (mz_i - ref) <= tolerance)%R) seen_mz
      then st
      else (keep_idx ++ [i], seen_mz ++ [mz_i])
  | None => st
  end.

(** The body of [merge_peaks_internal] past its [None] guard. *)
Definition merge_peaks (sp : Spectrum) (tolerance : R) : Spectrum :=
  let idx_sorted := rev (argsort (map snd (peaks sp))) in
  let '(keep_idx, _) := fold_left (merge_step sp tolerance) idx_sorted ([], []) in
  let keep_idx := merge_sort (≤) keep_idx in
  {| metadata := metadata sp;
     peaks := omap (λ i, peaks sp !! i) keep_idx |}.

Definition merge_peaks_internal (spectrum : option Spectrum) (tolerance : R)
  : option Spectrum :=
  match spectrum with
  | None => None
  | Some sp => Some (merge_peaks sp tolerance)
  end.

(** The seed search: the loop over [enumerate(raw_spectrums)] up to its
    [break], returning the position and the spectrum it stops at. *)
Fixpoint find_seed (target_mz target_rt : R) (l : list (nat * Spectrum))
  : option (nat * Spectrum) :=
  match l with
  | [] => None
  | (i, s) :: rest =>
      match precursor_mz (metadata s), retention_time (metadata s) with
      | Some curr_mz, Some curr_rt =>
          if float_bool curr_mz && float_bool curr_rt then
            if decide ((Rabs (curr_mz - target_mz) < 0.005)%R ∧
                       (Rabs (curr_rt - target_rt) < 2.0)%R)
            then Some (i, s)
            else find_seed target_mz target_rt rest
          else find_seed target_mz target_rt rest
      | _, _ => find_seed target_mz target_rt rest
      end
  end.

Section Expansion.

Variable processed_spectrums : list Spectrum.
Variable threshold : R.

(** The body of [for i, other in enumerate(processed_spectrums)], on the
    state [(selected_indices, to_explore)]. *)
Definition explore_body (curr : nat) (st : gset nat * list nat)
    (io : nat * Spectrum) : result (gset nat * list nat) :=
  let '(selected_indices, to_explore) := st in
  let '(i, other) := io in
  if decide (i ∈ selected_indices) then Ok st
  else
    match processed_spectrums !! curr with
    | None => Raise IndexError
    | Some spec_curr =>
        let score := CosineGreedy_pair 0.02 spec_curr other in
        if decide (threshold <= score)%R
        then Ok ({[i]} ∪ selected_indices, to_explore ++ [i])
        else Ok st
    end.

(** One turn of [while to_explore]: pop the front, scan the collection. *)
Definition explore_step (selected_indices : gset nat) (curr : nat) (rest : list nat)
  : result (gset nat * list nat) :=
  for_each (explore_body curr) (enumerate processed_spectrums) (selected_indices, rest).

(** The [while] loop, run for at most [fuel] turns: [None] when the turns
    run out before the queue is empty. *)
Fixpoint explore (fuel : nat) (selected_indices : gset nat) (to_explore : list nat)
  : option (result (gset nat)) :=
  match fuel with
  | O => None
  | S fuel' =>
      match to_explore with
      | [] => Some (Ok selected_indices)
      | curr :: rest =>
          match explore_step selected_indices curr rest with
          | Ok (selected_indices', to_explore') =>
              explore fuel' selected_indices' to_explore'
          | Raise e => Some (Raise e)
          end
      end
  end.

End Expansion.

(** [[normalize_intensities(merge_peaks_internal(s)) for s in raw_spectrums]]:
    on a loaded spectrum [merge_peaks_internal] is [merge_peaks], with the
    default tolerance. *)
Definition preprocess (raw_spectrums : list Spectrum) : list Spectrum :=
  map (λ s, normalize_intensities (merge_peaks s 0.02)) raw_spectrums.

(** [run_final_restoration_v2] on the loaded spectra.  The set
    [selected_indices] is read out in the order of [elements]; Python fixes
    no order for it either. *)
Definition run_final_restoration_v2 (fuel : nat) (raw_spectrums : list Spectrum)
    (target_mz target_rt threshold : R) : option Run :=
  let out := [Loading; Searching target_mz target_rt] in
  match find_seed target_mz target_rt (enumerate raw_spectrums) with
  | None =>
      Some {| stdout := out ++ [NotFound]; written := None; outcome := Ok () |}
  | Some (seed_idx, s) =>
      match title (metadata s) with
      | None => Some {| stdout := out; written := None; outcome := Raise TypeError |}
      | Some t =>
          let out := out ++ [SeedFound (String.substring 0 50 t)] in
          let processed_spectrums := preprocess raw_spectrums in
          let out := out ++ [SearchingSimilar threshold] in
          match explore processed_spectrums threshold fuel {[seed_idx]} [seed_idx] with
          | None => None
          | Some (Raise e) => Some {| stdout := out; written := None; outcome := Raise e |}
          | Some (Ok selected_indices) =>
              let final_specs :=
                omap (λ i, processed_spectrums !! i) (elements selected_indices) in
              Some {| stdout := out ++ [Done (length final_specs)];
                      written := Some final_specs;
                      outcome := Ok () |}
          end
      end
  end.

End Script.

End FamilyCosine.

(** ** Specification-level notions for the scorer *)
Module ScorerSpec.
Import SkeletonSim.

(** Two masses are within the tolerance of each other. *)
Definition within (mz1 mz2 : R) : Prop := (Rabs (mz1 - mz2) <= MZ_TOLERANCE_DA)%R.

(** The first peak of a list within the tolerance of [mz1], and the list
    without it. *)
Fixpoint take_first (mz1 : R) (peaks2 : list (R * R)) : option ((R * R) * list (R * R)) :=
  match peaks2 with
  | [] => None
  | p :: rest =>
      if decide (within mz1 p.1) then Some (p, rest)
      else '(q, rest') ← take_first mz1 rest; Some (q, p :: rest')
  end.

(** Greedy one-to-one pairing in the stored order of both lists: each peak of
    the first list takes the first remaining peak of the second within the
    tolerance, which is then no longer available; the products of the paired
    intensities are added up. *)
Fixpoint greedy_dot (peaks1 peaks2 : list (R * R)) : R :=
  match peaks1 with
  | [] => 0
  | (mz1, int1) :: rest1 =>
      match take_first mz1 peaks2 with
      | Some ((_, int2), rest2) => int1 * int2 + greedy_dot rest1 rest2
      | None => greedy_dot rest1 peaks2
      end
  end.

(** The peaks of [l] (whose first position is [idx]) at positions not in
    [matched]. *)
Fixpoint unmatched (idx : nat) (l : list (R * R)) (matched : gset nat) : list (R * R) :=
  match l with
  | [] => []
  | p :: l' =>
      if decide (idx ∈ matched) then unmatched (S idx) l' matched
      else p :: unmatched (S idx) l' matched
  end.

(** Sum of the squared intensities, and the Euclidean norm of the full
    intensity vector. *)
Definition sumsq (d : dict) : R := sum (map (λ i, i ^ 2)%R (values d)).
Definition l2norm (d : dict) : R := sqrt (sumsq d).

(** The score in closed form. *)
Definition score (peaks1 peaks2 : dict) : R :=
  if decide (l2norm peaks1 ≠ 0%R ∧ l2norm peaks2 ≠ 0%R)
  then (greedy_dot peaks1 peaks2 / (l2norm peaks1 * l2norm peaks2))%R
  else 0%R.

Definition nonneg_intensities (d : dict) : Prop := Forall (λ i, (0 <= i)%R) (values d).
Definition zero_intensities (d : dict) : Prop := Forall (λ i, i = 0%R) (values d).

(** Peaks put in ascending order of mass (insertion sort on the key). *)
Fixpoint insert_by_mz (p : R * R) (l : list (R * R)) : list (R * R) :=
  match l with
  | [] => [p]
  | q :: l' => if decide (p.1 <= q.1)%R then p :: q :: l' else q :: insert_by_mz p l'
  end.

Definition sort_by_mz (l : list (R * R)) : list (R * R) := foldr insert_by_mz [] l.

(** The peaks are stored in ascending order of mass. *)
Definition ascending (l : list (R * R)) : Prop := Sorted (λ p q, (p.1 <= q.1)%R) l.

(** The scorer as the specification words it: the first spectrum's peaks
    are taken in ascending order of mass. *)
Definition cosine_similarity_ascending (peaks1 peaks2 : dict) : result R :=
  cosine_similarity (sort_by_mz peaks1) peaks2.

(** The two spectra of the specification's worked scenario. *)
Definition scenario_A : dict := [(100, 10); (200, 20)]%R.
Definition scenario_B : dict := [(100.005, 10); (300, 5)]%R.

(** A spectrum with two peaks closer to each other than the tolerance. *)
Definition close_peaks : dict := [(100, 1); (100.005, 2)]%R.

(** A spectrum stored in descending order of mass, and a partner for it. *)
Definition descending_A : dict := [(100.01, 1); (100, 5)]%R.
Definition descending_B : dict := [(100.005, 1); (100.018, 1)]%R.

End ScorerSpec.

(** ** Specification-level notions for the entropy *)
Module EntropySpec.
Import SkeletonSim.

(** The intensities that survive the [> 0] mask. *)
Definition positive_intensities (d : dict) : list R :=
  filter (λ x, (0 < x)%R) (values d).

(** The intensities divided by their sum. *)
Definition normalized (p : list R) : list R := map (λ x, (x / np_sum p)%R) p.

(** Shannon entropy with the additive [1e-12] inside the logarithm. *)
Definition shannon_eps (prob : list R) : R :=
  (- np_sum (map (λ q, (q * ln (q + 1e-12))%R) prob))%R.

(** Two peaks of equal intensity, and a spectrum with one dominant peak. *)
Definition equal_pair (a : R) : dict := [(100, a); (200, a)]%R.
Definition dominant_peak : dict := [(100, 1e30); (200, 1)]%R.

End EntropySpec.

(** ** Specification-level notions for the pairwise network *)
Module NetworkSpec.
Import SkeletonSim ScorerSpec.

(** Entropy ratio: smaller over larger when both are positive, 1 otherwise. *)
Definition ratio (e1 e2 : R) : R :=
  if decide ((0 < e1)%R ∧ (0 < e2)%R) then (Rmin e1 e2 / Rmax e1 e2)%R else 1%R.

(** The edge a pair of nodes gives rise to, if any. *)
Definition edge_of (d1 d2 : Node) : option Edge :=
  if decide (SIM_THRESHOLD <= score (peaks d1) (peaks d2))%R then
    Some {| source := id d1; target := id d2;
            similarity := round (score (peaks d1) (peaks d2)) 4;
            entropy_ratio := round (ratio (entropy d1) (entropy d2)) 4 |}
  else None.

(** The edges of a list of scored pairs, in order. *)
Definition edges_of (pairs : list ((nat * Node) * (nat * Node))) : list Edge :=
  omap (λ pr, edge_of pr.1.2 pr.2.2) pairs.


(** [processed_data] and the pairs the second loop runs over. *)
Definition processed_data (entries : list Entry) : list Node := map process_entry entries.
Definition scored_pairs (entries : list Entry) : list ((nat * Node) * (nat * Node)) :=
  combinations2 (enumerate (processed_data entries)).


(** The identifier of an entry splits back into its two numbers: neither
    is printed with a sign. *)
Definition printable (entry : Entry) : Prop :=
  (0 <= default 0 (PEPMASS entry))%R ∧
  (0 ≤ round_half_even (default 0%R (RTINSECONDS entry)))%Z.

#[global] Instance printable_dec (entry : Entry) : Decision (printable entry).
Proof. unfold printable. apply _. Defined.

(** Every intensity is zero or of a magnitude between [1e-100] and [1e100]:
    its square, the sum of the squares and the products of two intensities
    stay well inside the range of binary64, where the score computed is the
    exact one up to rounding. *)
Definition moderate (kvs : list (R * R)) : Prop :=
  Forall (λ kv, kv.2 = 0 ∨ 1e-100 <= Rabs kv.2 <= 1e100)%R kvs.





(** The node the document is to hold for an input spectrum: identifier and
    attributes from its two fields, the entropy of its peaks. *)
Definition written_node (entry : Entry) : XNode :=
  let m := default 0%R (PEPMASS entry) in
  let r := default 0%R (RTINSECONDS entry) in
  {| xn_id := {| id_pepmass := round m 2; id_rt := round_half_even r |};
     xn_pepmass := round m 2;
     xn_rt := round_half_even r;
     xn_spectral_entropy := calculate_spectral_entropy (dict_of_items (entry_peaks entry)) |}.

(** A node with one peak and a prescribed entropy field. *)
Definition node_with_entropy (e : R) : Node :=
  {| id := {| id_pepmass := 0; id_rt := 0 |};
     peaks := [(100, 1)]%R;
     entropy := e;
     pepmass := 0;
     retention_time := 0 |}.


(** Two parsed entries whose spectra are similar and of unlike entropy. *)
Definition entry_X : Entry :=
  {| PEPMASS := Some 300%R; RTINSECONDS := Some 60%R;
     entry_peaks := [(100, 99); (200, 1)]%R |}.
Definition entry_Y : Entry :=
  {| PEPMASS := Some 301%R; RTINSECONDS := Some 61%R;
     entry_peaks := [(100, 3); (200, 1)]%R |}.

End NetworkSpec.

(** ** Specification-level notions for the family expansion *)
Module ExpansionSpec.
Import FamilyCosine.

(** A spectrum is eligible as seed: both metadata present and non-zero, and
    both within the fixed tolerances of the target, strictly. *)
Definition passes (target_mz target_rt : R) (s : Spectrum) : Prop :=
  ∃ m r, precursor_mz (metadata s) = Some m ∧ retention_time (metadata s) = Some r ∧
         m ≠ 0%R ∧ r ≠ 0%R ∧
         (Rabs (m - target_mz) < 0.005)%R ∧ (Rabs (r - target_rt) < 2.0)%R.

(** The threshold relation between positions of the processed collection,
    scored in the direction the code scores it. *)
Definition similar (pair : R → Spectrum → Spectrum → R)
    (processed_spectrums : list Spectrum) (threshold : R) (i j : nat) : Prop :=
  ∃ a b, processed_spectrums !! i = Some a ∧ processed_spectrums !! j = Some b ∧
         (threshold <= pair 0.02 a b)%R.

(** Position [i] holds a spectrum that scores at least the threshold against
    [c]. *)
Definition hitb (pair : R → Spectrum → Spectrum → R)
    (processed_spectrums : list Spectrum) (threshold : R)
    (c : Spectrum) (i : nat) : bool :=
  match processed_spectrums !! i with
  | Some o => bool_decide (threshold <= pair 0.02 c o)%R
  | None => false
  end.

(** The positions from [k], [m] of them, that one scan against [c] adds to
    [selected]. *)
Definition fresh (pair : R → Spectrum → Spectrum → R)
    (processed_spectrums : list Spectrum) (threshold : R)
    (k m : nat) (selected : gset nat) (c : Spectrum) : list nat :=
  filter (λ i, (i ∉ selected) ∧ hitb pair processed_spectrums threshold c i = true) (seq k m).

(** The number of positions below [n] not yet selected. *)
Definition unvisited (n : nat) (selected : gset nat) : nat :=
  length (filter (λ i, i ∉ selected) (seq 0 n)).

(** What holds of [(selected_indices, to_explore)] at every turn of the
    loop started from [seed]: selected positions are reachable and in range,
    queued positions are selected, and a selected position no longer queued
    has all its neighbours selected. *)
Definition explore_invariant (pair : R → Spectrum → Spectrum → R)
    (processed_spectrums : list Spectrum) (threshold : R) (seed : nat)
    (selected : gset nat) (to_explore : list nat) : Prop :=
  (∀ i, i ∈ selected → rtc (similar pair processed_spectrums threshold) seed i) ∧
  (∀ i, i ∈ to_explore → i ∈ selected) ∧
  (∀ i, i ∈ selected → i < length processed_spectrums) ∧
  (∀ i j, i ∈ selected → i ∉ to_explore →
          similar pair processed_spectrums threshold i j → j ∈ selected).

End ExpansionSpec.

(** Spectra used in the examples of the family expansion. *)
Module ExpansionExamples.
Import FamilyCosine.

Definition spectrum_at (m r : option R) (t : option string) : Spectrum :=
  {| metadata := {| precursor_mz := m; retention_time := r; title := t |};
     peaks := [(100, 1)]%R |}.

(** Inside the window of the target (0.001, 10), but with mass 0. *)
Definition zero_mz : Spectrum := spectrum_at (Some 0%R) (Some 10%R) (Some "zero").
(** Inside the same window, with no retention time. *)
Definition no_rt : Spectrum := spectrum_at (Some 0.002%R) None (Some "nort").
(** Inside the same window, with both metadata. *)
Definition eligible : Spectrum := spectrum_at (Some 0.002%R) (Some 11%R) (Some "seed").
(** Far from every target used below. *)
Definition far_away : Spectrum := spectrum_at (Some 100%R) (Some 500%R) (Some "far").

(** Stand-ins for the library functions. *)
Definition argsort_none (xs : list R) : list nat := [].
Definition normalize_id (s : Spectrum) : Spectrum := s.
Definition pair_one (tolerance : R) (a b : Spectrum) : R := 1%R.

End ExpansionExamples.

(** ** Further notions for the scorer and the entropy *)
Module ScorerMore.
Import SkeletonSim ScorerSpec.

(** No peak of the first spectrum is within the tolerance of a peak of the
    second. *)
Definition apart (peaks1 peaks2 : dict) : Prop :=
  Forall (λ p, Forall (λ q, ¬ within p.1 q.1) peaks2) peaks1.


End ScorerMore.

(** ** Further notions for the network *)
Module NetworkMore.
Import SkeletonSim ScorerSpec NetworkSpec.

(** What every written edge satisfies. *)
Definition edge_in_range (e : XEdge) : Prop :=
  (SIM_THRESHOLD <= xe_cosine_similarity e)%R ∧
  (0 <= xe_entropy_ratio e <= 1)%R ∧
  (xe_line_style e = "dash" ∨ xe_line_style e = "solid").

(** The value a dict comprehension over [kvs] holds at [k]: the one listed
    last for it. *)
Definition last_value (kvs : list (R * R)) (k : R) : option R :=
  snd <$> last (filter (λ kv, kv.1 = k) kvs).

(** The masses of [kvs], each once, in the order of their first occurrence. *)
Fixpoint first_occurrences (seen : list R) (kvs : list (R * R)) : list R :=
  match kvs with
  | [] => []
  | kv :: rest =>
      if decide (kv.1 ∈ seen) then first_occurrences seen rest
      else kv.1 :: first_occurrences (seen ++ [kv.1]) rest
  end.

(** An entry that lists one mass twice. *)
Definition entry_twice : Entry :=
  {| PEPMASS := Some 300%R; RTINSECONDS := Some 60%R;
     entry_peaks := [(100, 7); (200, 1); (100, 9)]%R |}.

(** The same spectrum recorded under two precursors. *)
Definition entry_Z : Entry :=
  {| PEPMASS := Some 305.123%R; RTINSECONDS := Some 12.4%R;
     entry_peaks := [(100, 99); (200, 1)]%R |}.

End NetworkMore.

(** ** Specification-level notions for the merging of peaks *)
Module MergeSpec.
Import FamilyCosine.

(** The loop of [merge_peaks_internal] over the positions [l] taken from the
    back: the state [(keep_idx, seen_mz)] it ends in. *)
Definition merge_fold (sp : Spectrum) (tolerance : R) (l : list nat) : list nat * list R :=
  fold_right (λ i st, merge_step sp tolerance st i) ([], []) l.

(** Every two masses of the list are more than the tolerance apart. *)
Fixpoint all_apart (tolerance : R) (l : list R) : Prop :=
  match l with
  | [] => True
  | x :: l' => Forall (λ y, (tolerance < Rabs (x - y))%R) l' ∧ all_apart tolerance l'
  end.

(** The same of the peaks of a spectrum, by position. *)
Definition separated (tolerance : R) (pks : list (R * R)) : Prop :=
  ∀ a b p q, a ≠ b → pks !! a = Some p → pks !! b = Some q →
             (tolerance < Rabs (p.1 - q.1))%R.

(** What [numpy.argsort] returns on [xs]: every position of [xs], in
    ascending order of the values there. *)
Definition ascending_positions (xs : list R) (l : list nat) : Prop :=
  (∀ i, i < length xs → i ∈ l) ∧
  StronglySorted (λ i j, ∀ x y, xs !! i = Some x → xs !! j = Some y → (x <= y)%R) l.

(** An [argsort] to run the examples with: insertion sort of the positions by
    the value they hold. *)
Definition value_at (xs : list R) (i : nat) : R := default 0%R (xs !! i).

Fixpoint insert_position (xs : list R) (i : nat) (l : list nat) : list nat :=
  match l with
  | [] => [i]
  | j :: l' =>
      if decide (value_at xs i <= value_at xs j)%R then i :: j :: l'
      else j :: insert_position xs i l'
  end.

Definition argsort_insertion (xs : list R) : list nat :=
  fold_right (insert_position xs) [] (seq 0 (length xs)).

(** Three peaks, the first two within 0.02 of each other, and three peaks
    well apart. *)
Definition crowded : Spectrum :=
  {| metadata := {| precursor_mz := Some 300%R; retention_time := Some 60%R;
                    title := Some "crowded" |};
     peaks := [(100, 5); (100.01, 9); (200, 3)]%R |}.
Definition spread : Spectrum :=
  {| metadata := {| precursor_mz := Some 300%R; retention_time := Some 60%R;
                    title := Some "spread" |};
     peaks := [(100, 5); (150, 9); (200, 3)]%R |}.

End MergeSpec.

(** A spectrum inside the window of the target (0.001, 10) that carries no
    title. *)
Module RunExamples.
Import FamilyCosine ExpansionExamples.

Definition untitled : Spectrum := spectrum_at (Some 0.002%R) (Some 11%R) None.

End RunExamples.

(** ** script_04_precursor_formula_filter.py *)
Module FormulaFilter.

#[global] Instance R_gt_dec : RelDecision Rgt := λ x y, Rlt_dec y x.

(** [int(x)] on a float truncates toward zero; [range(a, b)]. *)
Definition int (x : R) : Z := if decide (0 <= x)%R then Zfloor x else Zceil x.
Definition range (a b : Z) : list Z := seqZ a (b - a).

Definition MASS_C : R := 12.000000.
Definition MASS_H : R := 1.007825.
Definition MASS_O : R := 15.994915.
Definition MASS_PROTON : R := 1.007276.
Definition MASS_NA : R := 22.989218.

Definition TOLERANCE : R := 0.005.
Definition C_RANGE : list Z := range 18 26.

(** The body of [for o in range(0, max_o + 1)]: whether it returns [True]. *)
Definition oxygen_body (neutral_mass : R) (c : Z) (c_mass : R) (o : Z) : bool :=
  let rem_h_mass := (neutral_mass - (c_mass + IZR o * MASS_O))%R in
  let h := round_half_even (rem_h_mass / MASS_H) in
  if bool_decide (0 ≤ h)%Z && bool_decide (h `mod` 2 = 0)%Z && bool_decide (h ≤ 2 * c + 2)%Z
  then
    let calc_mass := (c_mass + IZR h * MASS_H + IZR o * MASS_O)%R in
    bool_decide (Rabs (calc_mass - neutral_mass) <= TOLERANCE)%R
  else false.

(** The body of [for c in C_RANGE]. *)
Definition carbon_body (neutral_mass : R) (c : Z) : bool :=
  let c_mass := (IZR c * MASS_C)%R in
  if decide (c_mass > neutral_mass + TOLERANCE)%R then false
  else
    let max_o := int ((neutral_mass - c_mass + TOLERANCE) / MASS_O) in
    existsb (oxygen_body neutral_mass c c_mass) (range 0 (max_o + 1)).

(** The body of [for adduct_mass in [MASS_PROTON, MASS_NA]]. *)
Definition adduct_body (pepmass adduct_mass : R) : bool :=
  let neutral_mass := (pepmass - adduct_mass)%R in
  if decide (neutral_mass <= 0)%R then false
  else existsb (carbon_body neutral_mass) C_RANGE.

(** The loops return [True] at the first hit and [False] when none is found. *)
Definition is_valid_cho_formula (pepmass : R) : bool :=
  existsb (adduct_body pepmass) [MASS_PROTON; MASS_NA].

End FormulaFilter.

(** ** Specification-level notions for the formula filter *)
Module FormulaSpec.
Import FormulaFilter.

(** The mass of the neutral molecule with [c] carbon, [h] hydrogen and [o]
    oxygen atoms. *)
Definition cho_mass (c h o : Z) : R :=
  (IZR c * MASS_C + IZR h * MASS_H + IZR o * MASS_O)%R.

(** The formula is one the filter looks for. *)
Definition admissible (c h o : Z) : Prop :=
  (18 ≤ c ≤ 25)%Z ∧ (0 ≤ o)%Z ∧ (0 ≤ h ≤ 2 * c + 2)%Z ∧ Z.even h = true.

End FormulaSpec.

(** ** script_05_skeleton_fragment_filter.py *)
Module FragmentFilter.
Import FormulaFilter.

Definition ATOMIC_MASSES_C : R := 12.0000000.
Definition ATOMIC_MASSES_H : R := 1.00782503207.
Definition MASS_TOLERANCE : R := 0.005.

Definition calculate_ch_mass (c_count h_count : Z) : R :=
  (IZR c_count * ATOMIC_MASSES_C + IZR h_count * ATOMIC_MASSES_H)%R.

(** A [Dict[float, str]], items in insertion order, with its [d[k] = v]. *)
Definition formulas : Type := list (R * string).

Fixpoint setitem (d : formulas) (k : R) (v : string) : formulas :=
  match d with
  | [] => [(k, v)]
  | (k', v') :: d' =>
      if decide (k' = k) then (k', v) :: d' else (k', v') :: setitem d' k v
  end.

(** The inner loop [for h in range(min_h, ...)] for one [c]. *)
Definition hydrogen_loop (max_h : Z) (ch_mass_formula : formulas) (c : Z) : formulas :=
  let min_h := Z.max 1 c in
  let max_h_for_c := (2 * c + 2)%Z in
  fold_left
    (λ d h, setitem d (calculate_ch_mass c h) ("C" +:+ pretty c +:+ "H" +:+ pretty h))
    (range min_h (Z.min (max_h_for_c + 1) (max_h + 1)))
    ch_mass_formula.

Definition generate_ch_formulas (max_c max_h : Z) : formulas :=
  fold_left (hydrogen_loop max_h) (range 1 (max_c + 1)) [].

(** A parsed entry: its metadata items and the value under ['peaks']. *)
Record Entry : Type := {
  fields : list (string * string);
  peaks : list (R * R)
}.

(** The loop over [ch_mass_formula.items()] up to its [break]: the flag
    [matched] it leaves. *)
Definition matched (ch_mass_formula : formulas) (mz : R) : bool :=
  existsb (λ kv, bool_decide (Rabs (mz - kv.1) <= MASS_TOLERANCE)%R) ch_mass_formula.

(** The body of [for mz, intensity in entry['peaks']]. *)
Definition peak_body (ch_mass_formula : formulas) (filtered_peaks : list (R * R))
    (peak : R * R) : list (R * R) :=
  if matched ch_mass_formula peak.1 then filtered_peaks ++ [peak] else filtered_peaks.

(** The body of [for entry in mgf_entries]. *)
Definition entry_body (ch_mass_formula : formulas) (filtered_entries : list Entry)
    (entry : Entry) : list Entry :=
  let filtered_peaks := fold_left (peak_body ch_mass_formula) (peaks entry) [] in
  match filtered_peaks with
  | [] => filtered_entries
  | _ => filtered_entries ++ [{| fields := fields entry; peaks := filtered_peaks |}]
  end.

Definition filter_ch_peaks (mgf_entries : list Entry) (ch_mass_formula : formulas)
  : list Entry :=
  fold_left (entry_body ch_mass_formula) mgf_entries [].

End FragmentFilter.

(** ** Specification-level notions for the fragment filter *)
Module FragmentSpec.
Import FragmentFilter.

(** The hydrocarbon formulas of the library built by [main]. *)
Definition ch_formula (max_c max_h c h : Z) : Prop :=
  (1 ≤ c ≤ max_c)%Z ∧ (Z.max 1 c ≤ h ≤ Z.min (2 * c + 2) max_h)%Z.

(** A mass within the tolerance of one of them. *)
Definition ch_fragment (mz : R) : Prop :=
  ∃ c h, ch_formula 50 100 c h ∧ (Rabs (mz - calculate_ch_mass c h) <= MASS_TOLERANCE)%R.

(** What the filter leaves of one entry. *)
Definition kept_peaks (ch_mass_formula : formulas) (entry : Entry) : list (R * R) :=
  filter (λ p, matched ch_mass_formula p.1 = true) (peaks entry).

Definition kept_entry (ch_mass_formula : formulas) (entry : Entry) : option Entry :=
  match kept_peaks ch_mass_formula entry with
  | [] => None
  | ps => Some {| fields := fields entry; peaks := ps |}
  end.

End FragmentSpec.

(** ** script_06_skeleton_sim.py: [parse_mgf] *)
Module MgfParser.
Import Stdlib.Strings.Ascii.

(** What an entry dict holds under a key: the text of a [key=value] line, or,
    under ['peaks'], the list object of the entry. *)
Inductive Value : Type :=
  | Text (s : string)
  | PeakList.

(** The dict and the list created together at a [BEGIN IONS] line. *)
Record Object : Type := {
  items : list (string * Value);
  peak_list : list (R * R)
}.

Fixpoint setitem (d : list (string * Value)) (k : string) (v : Value)
  : list (string * Value) :=
  match d with
  | [] => [(k, v)]
  | (k', v') :: d' =>
      if decide (k' = k) then (k', v) :: d' else (k', v') :: setitem d' k v
  end.

(** The objects created so far, and the two variables that refer to them:
    [mgf_entries] and [current_entry] hold positions in [heap], so an entry
    appended twice, or changed after it was appended, shows as it does in
    Python.  The variable [peaks] is the list of the object [current_entry]
    refers to (the list it starts as is never appended to). *)
Record State : Type := {
  heap : list Object;
  mgf_entries : list nat;
  current_entry : option nat
}.

(** [c in s], and [s.split(c, 1)] for a string that contains [c]. *)
Fixpoint contains (c : ascii) (s : string) : bool :=
  match s with
  | EmptyString => false
  | String a s' => if Ascii.eqb a c then true else contains c s'
  end.

Fixpoint split_once (c : ascii) (s : string) : string * string :=
  match s with
  | EmptyString => (EmptyString, EmptyString)
  | String a s' =>
      if Ascii.eqb a c then (EmptyString, s')
      else let '(k, v) := split_once c s' in (String a k, v)
  end.

Definition is_not_None {A : Type} (x : option A) : bool :=
  match x with Some _ => true | None => false end.

(** A change made to the object [current_entry] refers to. *)
Definition update_current (f : Object → Object) (st : State) : State :=
  match current_entry st with
  | Some k =>
      {| heap := alter f k (heap st);
         mgf_entries := mgf_entries st;
         current_entry := current_entry st |}
  | None => st
  end.

Definition set_field (key : string) (v : Value) (o : Object) : Object :=
  {| items := setitem (items o) key v; peak_list := peak_list o |}.

Definition append_peak (p : R * R) (o : Object) : Object :=
  {| items := items o; peak_list := peak_list o ++ [p] |}.

Section Parser.

(** From Python: [str.strip], [re.match] with the pattern of a peak line,
    [str.split] on whitespace, and [float] ([None] for [ValueError]). *)
Variable strip : string → string.
Variable peak_pattern : string → bool.
Variable split : string → list string.
Variable float : string → option R.

(** The body of [for line in f]. *)
Definition parse_line (st : State) (raw : string) : State :=
  let line := strip raw in
  if decide (line = EmptyString) then st
  else if String.prefix "BEGIN IONS" line then
    {| heap := heap st ++ [{| items := []; peak_list := [] |}];
       mgf_entries := mgf_entries st;
       current_entry := Some (length (heap st)) |}
  else if String.prefix "END IONS" line then
    match current_entry st with
    | Some k =>
        match peak_list <$> heap st !! k with
        | Some (_ :: _) =>
            {| heap := alter (set_field "peaks" PeakList) k (heap st);
               mgf_entries := mgf_entries st ++ [k];
               current_entry := current_entry st |}
        | _ => st
        end
    | None => st
    end
  else if contains "=" line && is_not_None (current_entry st) then
    let '(key, value) := split_once "=" line in
    update_current (set_field (strip key) (Text (strip value))) st
  else if is_not_None (current_entry st) && peak_pattern line then
    match split line with
    | [a; b] =>
        match float a, float b with
        | Some mz, Some intensity => update_current (append_peak (mz, intensity)) st
        | _, _ => st
        end
    | _ => st
    end
  else st.

(** [parse_mgf] on the lines of the file: the entries [mgf_entries] refers
    to, as they are when the function returns. *)
Definition parse_mgf (lines : list string) : list Object :=
  let st := fold_left parse_line lines
              {| heap := []; mgf_entries := []; current_entry := None |} in
  omap (λ k, heap st !! k) (mgf_entries st).

End Parser.

End MgfParser.

(** ** Specification-level notions for [parse_mgf] *)
Module MgfSpec.
Import Stdlib.Strings.Ascii MgfParser.

(** What a line is to the parser. *)
Inductive Kind : Type :=
  | Begin
  | End_
  | Field (key value : string)
  | Peak (mz intensity : R)
  | Skip.

Section Lines.

Variable strip : string → string.
Variable peak_pattern : string → bool.
Variable split : string → list string.
Variable float : string → option R.

Definition classify (raw : string) : Kind :=
  let line := strip raw in
  if decide (line = EmptyString) then Skip
  else if String.prefix "BEGIN IONS" line then Begin
  else if String.prefix "END IONS" line then End_
  else if contains "=" line then
    let '(key, value) := split_once "=" line in Field (strip key) (strip value)
  else if peak_pattern line then
    match split line with
    | [a; b] =>
        match float a, float b with
        | Some mz, Some intensity => Peak mz intensity
        | _, _ => Skip
        end
    | _ => Skip
    end
  else Skip.

End Lines.

(** The loop body on a classified line. *)
Definition step (st : State) (k : Kind) : State :=
  match k with
  | Begin =>
      {| heap := heap st ++ [{| items := []; peak_list := [] |}];
         mgf_entries := mgf_entries st;
         current_entry := Some (length (heap st)) |}
  | End_ =>
      match current_entry st with
      | Some i =>
          match peak_list <$> heap st !! i with
          | Some (_ :: _) =>
              {| heap := alter (set_field "peaks" PeakList) i (heap st);
                 mgf_entries := mgf_entries st ++ [i];
                 current_entry := current_entry st |}
          | _ => st
          end
      | None => st
      end
  | Field key value => update_current (set_field key (Text value)) st
  | Peak mz intensity => update_current (append_peak (mz, intensity)) st
  | Skip => st
  end.

(** What a line other than [BEGIN IONS] does to the entry being read and to
    the number of times it has been recorded. *)
Definition read (k : Kind) (cur : Object * nat) : Object * nat :=
  match k with
  | End_ =>
      match peak_list cur.1 with
      | [] => cur
      | _ => (set_field "peaks" PeakList cur.1, S cur.2)
      end
  | Field key value => (set_field key (Text value) cur.1, cur.2)
  | Peak mz intensity => (append_peak (mz, intensity) cur.1, cur.2)
  | _ => cur
  end.

Definition flush (cur : option (Object * nat)) : list Object :=
  match cur with
  | Some (obj, n) => replicate n obj
  | None => []
  end.

(** The entries of a file, read off its lines without a heap: every
    [BEGIN IONS] opens an entry, which takes in all lines up to the next
    [BEGIN IONS] and is returned, as it is at that point, once for each time
    it was recorded. *)
Fixpoint entries_of (cur : option (Object * nat)) (ks : list Kind) : list Object :=
  match ks with
  | [] => flush cur
  | Begin :: ks' => flush cur ++ entries_of (Some ({| items := []; peak_list := [] |}, 0%nat)) ks'
  | k :: ks' => entries_of (read k <$> cur) ks'
  end.

(** The state of the parser and the entries read so far agree. *)
Definition related (st : State) (done : list Object) (cur : option (Object * nat)) : Prop :=
  match cur with
  | None =>
      heap st = [] ∧ mgf_entries st = [] ∧ current_entry st = None ∧ done = []
  | Some (obj, n) =>
      ∃ older_objects older,
        heap st = older_objects ++ [obj] ∧
        current_entry st = Some (length older_objects) ∧
        mgf_entries st = older ++ replicate n (length older_objects) ∧
        Forall (λ i, i < length older_objects) older ∧
        omap (λ i, older_objects !! i) older = done
  end.

(** A block of a file as it should be: one [BEGIN IONS] line, lines that are
    neither [BEGIN IONS] nor [END IONS], one [END IONS] line. *)
Record Block : Type := {
  begin_line : string;
  body : list string;
  end_line : string
}.

Definition block_lines (blk : Block) : list string :=
  begin_line blk :: body blk ++ [end_line blk].

Definition fields_of (ks : list Kind) (d : list (string * Value)) : list (string * Value) :=
  fold_left (λ d k, match k with Field key value => setitem d key (Text value) | _ => d end)
            ks d.

Definition peaks_of (ks : list Kind) : list (R * R) :=
  omap (λ k, match k with Peak mz intensity => Some (mz, intensity) | _ => None end) ks.

Section Blocks.

Variable strip : string → string.
Variable peak_pattern : string → bool.
Variable split : string → list string.
Variable float : string → option R.

Definition clean (blk : Block) : Prop :=
  classify strip peak_pattern split float (begin_line blk) = Begin ∧
  classify strip peak_pattern split float (end_line blk) = End_ ∧
  Forall (λ l, classify strip peak_pattern split float l ≠ Begin ∧
               classify strip peak_pattern split float l ≠ End_) (body blk).

(** The entry of a block: its fields, later values replacing earlier ones
    under the same key, then the key ['peaks']; and its peaks in order.  A
    block without a peak has no entry. *)
Definition block_entry (blk : Block) : option Object :=
  let ks := map (classify strip peak_pattern split float) (body blk) in
  match peaks_of ks with
  | [] => None
  | pks => Some {| items := setitem (fields_of ks []) "peaks" PeakList; peak_list := pks |}
  end.

End Blocks.

(** Stand-ins for the functions of Python, to run an example with. *)
Definition strip_id (s : string) : string := s.
Definition pattern_100_5 (s : string) : bool := bool_decide (s = "100 5").
Definition split_100_5 (s : string) : list string := ["100"; "5"].
Definition float_100_5 (s : string) : option R :=
  if decide (s = "100") then Some 100%R else if decide (s = "5") then Some 5%R else None.

Definition block_300 : Block :=
  {| begin_line := "BEGIN IONS"; body := ["PEPMASS=300"; "100 5"]; end_line := "END IONS" |}.

End MgfSpec.

(** ** script_04_precursor_formula_filter.py: the loop over the file *)
Module FormulaFile.
Import Stdlib.Strings.Ascii FormulaFilter.

(** [s.split(c)]. *)
Fixpoint str_split (c : ascii) (s : string) : list string :=
  match s with
  | EmptyString => [EmptyString]
  | String a s' =>
      if Ascii.eqb a c then EmptyString :: str_split c s'
      else
        match str_split c s' with
        | w :: ws => String a w :: ws
        | [] => [String a EmptyString]
        end
  end.

(** The variables of the loop, and the lines written to the output file. *)
Record State : Type := {
  out : list string;
  current_ion : list string;
  keep_ion : bool;
  match_count : nat
}.

Section Loop.

(** From Python: [str.strip], and [float] ([None] for [ValueError]). *)
Variable strip : string → string.
Variable float : string → option R.

(** The [try] block under [if line.startswith('PEPMASS=')]: whether it sets
    [keep_ion].  A missing second field ([IndexError]) and a field that is
    no number ([ValueError]) are both passed over. *)
Definition pepmass_passes (line : string) : bool :=
  match str_split "=" line !! 1%nat with
  | Some field =>
      match float (strip field) with
      | Some mz => is_valid_cho_formula mz
      | None => false
      end
  | None => false
  end.

(** The body of [for line in f]. *)
Definition read_line (st : State) (line : string) : State :=
  let current_ion := current_ion st ++ [line] in
  let keep_ion :=
    if String.prefix "PEPMASS=" line then
      if pepmass_passes line then true else keep_ion st
    else keep_ion st in
  if decide (strip line = "END IONS") then
    if keep_ion then
      {| out := out st ++ current_ion; current_ion := []; keep_ion := false;
         match_count := S (match_count st) |}
    else
      {| out := out st; current_ion := []; keep_ion := false;
         match_count := match_count st |}
  else
    {| out := out st; current_ion := current_ion; keep_ion := keep_ion;
       match_count := match_count st |}.

(** [filter_mgf_with_nitrogen_rule] on the lines of an existing input file:
    the lines written and the count printed. *)
Definition filter_mgf_with_nitrogen_rule (lines : list string) : list string * nat :=
  let st := fold_left read_line lines
              {| out := []; current_ion := []; keep_ion := false; match_count := 0 |} in
  (out st, match_count st).

(** The input cut after every [END IONS] line; what follows the last one
    belongs to no chunk. *)
Fixpoint chunks (pending : list string) (lines : list string) : list (list string) :=
  match lines with
  | [] => []
  | line :: rest =>
      if decide (strip line = "END IONS") then (pending ++ [line]) :: chunks [] rest
      else chunks (pending ++ [line]) rest
  end.

(** A chunk holds a [PEPMASS=] line whose mass passes. *)
Definition passing_line (line : string) : bool :=
  String.prefix "PEPMASS=" line && pepmass_passes line.

Definition passing (chunk : list string) : bool := existsb passing_line chunk.

End Loop.

End FormulaFile.

(** ** script_02_TIC_filtering.py *)
Module TicFilter.

(** The variables of the loop, and the lines written to the output file. *)
Record State : Type := {
  written : list string;
  current_spectrum : list string;
  in_spectrum : bool;
  total_intensity : R
}.

Section Loop.

(** From Python: [str.strip], [str.split] on whitespace, and [float]
    ([None] for [ValueError]). *)
Variable strip : string → string.
Variable split : string → list string.
Variable float : string → option R.

Variable min_total_intensity : R.

(** What a line inside a spectrum adds to the total: its second field when
    there is one and it reads as a number. *)
Definition intensity_of (stripped_line : string) : R :=
  match split stripped_line with
  | _ :: field :: _ => default 0%R (float field)
  | _ => 0%R
  end.

(** The body of [for line in infile]. *)
Definition read_line (st : State) (line : string) : State :=
  let stripped_line := strip line in
  if decide (stripped_line = "BEGIN IONS") then
    {| written := written st; current_spectrum := [line]; in_spectrum := true;
       total_intensity := 0 |}
  else if decide (stripped_line = "END IONS") then
    let current_spectrum := current_spectrum st ++ [line] in
    {| written := if decide (min_total_intensity <= total_intensity st)%R
                  then written st ++ current_spectrum else written st;
       current_spectrum := current_spectrum;
       in_spectrum := false;
       total_intensity := total_intensity st |}
  else if in_spectrum st then
    {| written := written st;
       current_spectrum := current_spectrum st ++ [line];
       in_spectrum := true;
       total_intensity := (total_intensity st + intensity_of stripped_line)%R |}
  else st.

(** [filter_mgf_by_total_intensity] on the lines of the input file: the lines
    written. *)
Definition filter_mgf_by_total_intensity (lines : list string) : list string :=
  written (fold_left read_line lines
             {| written := []; current_spectrum := []; in_spectrum := false;
                total_intensity := 0 |}).

(** A spectrum as it should be: a [BEGIN IONS] line, lines that are neither,
    an [END IONS] line; and the lines that follow it up to the next
    spectrum. *)
Record Block : Type := {
  begin_line : string;
  body : list string;
  end_line : string;
  gap : list string
}.

Definition plain (line : string) : Prop :=
  strip line ≠ "BEGIN IONS" ∧ strip line ≠ "END IONS".

Definition clean (blk : Block) : Prop :=
  strip (begin_line blk) = "BEGIN IONS" ∧ strip (end_line blk) = "END IONS" ∧
  Forall plain (body blk) ∧ Forall plain (gap blk).

Definition spectrum_lines (blk : Block) : list string :=
  begin_line blk :: body blk ++ [end_line blk].

Definition block_lines (blk : Block) : list string := spectrum_lines blk ++ gap blk.

(** The total the loop holds at the [END IONS] line of a block. *)
Definition block_total (blk : Block) : R :=
  fold_left (λ total line, (total + intensity_of (strip line))%R) (body blk) 0%R.

Definition kept (blk : Block) : Prop := (min_total_intensity <= block_total blk)%R.

End Loop.

(** Stand-ins for the functions of Python, and a spectrum of total 5000 whose
    header line counts as well. *)
Definition strip_id (s : string) : string := s.
Definition split_second (s : string) : list string := [s; s].
Definition float_2500 (s : string) : option R := Some 2500%R.

Definition block_5000 : Block :=
  {| begin_line := "BEGIN IONS"; body := ["TITLE=a 2500"; "100 2500"];
     end_line := "END IONS"; gap := [EmptyString] |}.

End TicFilter.

(** ** script_05_skeleton_fragment_filter.py: [parse_mgf] *)
Module FragmentParser.
Import Stdlib.Strings.Ascii MgfParser FragmentFilter.

(** An entry dict as the filter and the writer see it: the items that hold
    text, in order, and the list under ['peaks']. *)
Definition entry_view (d : list (string * Value)) (peaks_data : list (R * R)) : Entry :=
  {| fields :=
       omap (λ kv, match kv.2 with Text s => Some (kv.1, s) | PeakList => None end) d;
     peaks := peaks_data |}.

Record State : Type := {
  mgf_entries : list Entry;
  current_entry : option (list (string * Value));
  peaks_data : list (R * R)
}.

(** [if current_entry is not None and peaks_data:] with the two statements
    under it; an entry recorded is not changed afterwards, so it is held as
    it is at this point. *)
Definition record_entry (st : State) : list Entry :=
  match current_entry st, peaks_data st with
  | Some d, _ :: _ =>
      mgf_entries st ++ [entry_view (MgfParser.setitem d "peaks" PeakList) (peaks_data st)]
  | _, _ => mgf_entries st
  end.

Section Parser.

(** From Python: [str.strip], [re.match] with the pattern of a peak line,
    [str.split] on whitespace, and [float] ([None] for [ValueError]). *)
Variable strip : string → string.
Variable peak_pattern : string → bool.
Variable split : string → list string.
Variable float : string → option R.

(** The body of [for line in f].  Unpacking [line.split()] into two names
    raises [ValueError] outside the [try]. *)
Definition parse_line (st : State) (raw : string) : result State :=
  let line := strip raw in
  if decide (line = EmptyString) then Ok st
  else if String.prefix "BEGIN IONS" line then
    Ok {| mgf_entries := record_entry st; current_entry := Some []; peaks_data := [] |}
  else if String.prefix "END IONS" line then
    Ok {| mgf_entries := record_entry st; current_entry := None; peaks_data := [] |}
  else if contains "=" line && is_not_None (current_entry st) then
    let '(key, value) := split_once "=" line in
    Ok {| mgf_entries := mgf_entries st;
          current_entry := (λ d, MgfParser.setitem d (strip key) (Text (strip value))) <$> current_entry st;
          peaks_data := peaks_data st |}
  else if is_not_None (current_entry st) && peak_pattern line then
    match split line with
    | [mz_str; intensity_str] =>
        match float mz_str, float intensity_str with
        | Some mz, Some intensity =>
            Ok {| mgf_entries := mgf_entries st;
                  current_entry := current_entry st;
                  peaks_data := peaks_data st ++ [(mz, intensity)] |}
        | _, _ => Ok st
        end
    | _ => Raise ValueError
    end
  else Ok st.

Definition parse_mgf (lines : list string) : result (list Entry) :=
  st ← for_each parse_line lines
         {| mgf_entries := []; current_entry := None; peaks_data := [] |};
  Ok (mgf_entries st).

(** A block as it should be, with the lines that follow it up to the next
    block. *)
Record Block : Type := {
  begin_line : string;
  body : list string;
  end_line : string;
  gap : list string
}.

Definition block_lines (blk : Block) : list string :=
  begin_line blk :: body blk ++ [end_line blk] ++ gap blk.

Definition plain (line : string) : Prop :=
  MgfSpec.classify strip peak_pattern split float line ≠ MgfSpec.Begin ∧
  MgfSpec.classify strip peak_pattern split float line ≠ MgfSpec.End_.

Definition clean (blk : Block) : Prop :=
  MgfSpec.classify strip peak_pattern split float (begin_line blk) = MgfSpec.Begin ∧
  MgfSpec.classify strip peak_pattern split float (end_line blk) = MgfSpec.End_ ∧
  Forall plain (body blk) ∧ Forall plain (gap blk).

(** The entry of a block; a block without a peak has none. *)
Definition block_entry (blk : Block) : option Entry :=
  let ks := map (MgfSpec.classify strip peak_pattern split float) (body blk) in
  match MgfSpec.peaks_of ks with
  | [] => None
  | pks => Some (entry_view (MgfParser.setitem (MgfSpec.fields_of ks []) "peaks" PeakList) pks)
  end.

End Parser.

(** The loop body on a classified line. *)
Definition step (st : State) (k : MgfSpec.Kind) : State :=
  match k with
  | MgfSpec.Begin =>
      {| mgf_entries := record_entry st; current_entry := Some []; peaks_data := [] |}
  | MgfSpec.End_ =>
      {| mgf_entries := record_entry st; current_entry := None; peaks_data := [] |}
  | MgfSpec.Field key value =>
      {| mgf_entries := mgf_entries st;
         current_entry := (λ d, MgfParser.setitem d key (Text value)) <$> current_entry st;
         peaks_data := peaks_data st |}
  | MgfSpec.Peak mz intensity =>
      match current_entry st with
      | Some _ =>
          {| mgf_entries := mgf_entries st;
             current_entry := current_entry st;
             peaks_data := peaks_data st ++ [(mz, intensity)] |}
      | None => st
      end
  | MgfSpec.Skip => st
  end.

Definition block_300 : Block :=
  {| begin_line := "BEGIN IONS"; body := ["PEPMASS=300"; "100 5"];
     end_line := "END IONS"; gap := ["TITLE=late"; "100 5"] |}.

End FragmentParser.

(** ** script_01_spectral_denoising.py: the peaks kept of one spectrum *)
Module Denoising.

Section Spectrum.

(** [scipy.stats.mode(...).mode[0]]. *)
Variable mode : list R → R.

(** The branch [if spectrum_data:] of an [END IONS] line, from the peaks
    collected for the spectrum to the peaks written: those of intensity
    above 0 and above the mode of the rounded intensities above 0. *)
Definition final_peaks (spectrum_data : list (R * R)) : list (R * R) :=
  let valid := filter (λ x, (0 < x.2)%R) spectrum_data in
  match valid with
  | [] => []
  | _ =>
      let rounded_int := map (λ x, IZR (round_half_even x.2)) valid in
      let nonzero_mode_val := mode rounded_int in
      filter (λ x, (nonzero_mode_val < x.2)%R) valid
  end.

(** What the branch adds to [removed_ions]. *)
Definition removed (spectrum_data : list (R * R)) : nat :=
  length spectrum_data - length (final_peaks spectrum_data).

End Spectrum.

(** Intensities that are whole numbers, as ion counts are. *)
Definition whole_intensities (spectrum_data : list (R * R)) : Prop :=
  Forall (λ x, IZR (round_half_even x.2) = x.2) spectrum_data.

(** A stand-in for the mode, and a spectrum to run it on. *)
Definition mode_first (xs : list R) : R := hd 0%R xs.
Definition counts : list (R * R) := [(100, 3); (101, 0); (102, 3); (103, 40)]%R.

End Denoising.

(** * Proofs *)

(** Decides [within] and its negation on numerals. *)
Ltac solve_within :=
  unfold ScorerSpec.within, SkeletonSim.MZ_TOLERANCE_DA, Rabs;
  destruct (Rcase_abs _); lra.

(** Distinct keys, non-negative intensities and positive norms of a literal dict. *)
Ltac solve_wf :=
  unfold wf, keys; cbn [map fmap list_fmap fst];
  repeat (apply NoDup_cons; split;
          [rewrite ?elem_of_cons, elem_of_nil; intros ?; intuition lra|]);
  apply NoDup_nil; exact I.


(** Evaluation of the pairing and of the sort on literal spectra. *)
Ltac eval_pairing :=
  cbn [ScorerSpec.greedy_dot ScorerSpec.take_first ScorerSpec.sort_by_mz foldr
       ScorerSpec.insert_by_mz fst snd mbind option_bind];
  repeat (first [ rewrite decide_True by first [solve_within | cbn [fst]; lra]
                | rewrite decide_False by first [solve_within | cbn [fst]; lra] ];
          cbn [ScorerSpec.greedy_dot ScorerSpec.take_first ScorerSpec.insert_by_mz
               fst snd mbind option_bind]).


(** ** Python helpers *)
Section PyFacts.
Local Open Scope R_scope.

Lemma sum_acc (xs : list R) (a : R) : fold_left Rplus xs a = a + sum xs.
Proof.
  unfold sum. revert a. induction xs as [|x xs IH]; intros a; simpl.
  - lra.
  - rewrite IH, (IH (0 + x)). lra.
Qed.

Lemma sum_cons (x : R) (xs : list R) : sum (x :: xs) = x + sum xs.
Proof. unfold sum at 1. simpl. rewrite sum_acc. lra. Qed.

Lemma sum_nil : sum [] = 0.
Proof. reflexivity. Qed.

Lemma getitem_lookup (d : dict) (j : nat) (k v : R) :
  wf d → d !! j = Some (k, v) → getitem d k = Ok v.
Proof.
  unfold wf, keys. revert j. induction d as [|[k' v'] d IH]; intros j Hwf Hj.
  - discriminate.
  - simpl in *. apply NoDup_cons in Hwf as [Hnotin Hwf].
    destruct j as [|j]; simpl in Hj.
    + injection Hj as -> ->. rewrite decide_True; auto.
    + rewrite decide_False; [eauto|].
      intros ->. apply Hnotin. apply list_elem_of_lookup.
      exists j. rewrite list_lookup_fmap, Hj. reflexivity.
Qed.

End PyFacts.

(** ** The scorer computes the greedy pairing *)
Section ScorerRefinement.
Import SkeletonSim ScorerSpec.
Local Open Scope R_scope.

Lemma unmatched_add_lt (idx j : nat) (l : list (R * R)) (matched : gset nat) :
  (j < idx)%nat → unmatched idx l ({[j]} ∪ matched) = unmatched idx l matched.
Proof.
  revert idx. induction l as [|p l IH]; intros idx Hlt; simpl; [reflexivity|].
  rewrite IH by lia.
  destruct (decide (idx ∈ matched)) as [Hin|Hout].
  - rewrite decide_True by set_solver. reflexivity.
  - rewrite decide_False; [reflexivity|].
    rewrite elem_of_union, elem_of_singleton. intros [->|?]; [lia|done].
Qed.

Lemma unmatched_empty (idx : nat) (l : list (R * R)) : unmatched idx l ∅ = l.
Proof.
  revert idx. induction l as [|p l IH]; intros idx; simpl; [reflexivity|].
  rewrite decide_False by set_solver. by rewrite IH.
Qed.

(** The inner loop finds nothing exactly when no unmatched peak is in reach. *)
Lemma first_match_None (mz1 : R) (l : list (R * R)) (idx : nat) (matched : gset nat) :
  first_match mz1 (keys l) idx matched = None →
  take_first mz1 (unmatched idx l matched) = None.
Proof.
  revert idx. induction l as [|[mz2 int2] l IH]; intros idx; simpl; [done|].
  destruct (decide _) as [|Hno]; [done|]. intros Hrest.
  destruct (decide (idx ∈ matched)) as [Hin|Hout]; [by apply IH|].
  simpl. rewrite decide_False.
  - by rewrite (IH _ Hrest).
  - unfold within. intros Hw. apply Hno. by split.
Qed.

(** What the inner loop finds is the first unmatched peak in reach, and
    marking its position removes exactly that peak. *)
Lemma first_match_Some (mz1 : R) (l : list (R * R)) (idx : nat) (matched : gset nat)
    (j : nat) (mz2 : R) :
  first_match mz1 (keys l) idx matched = Some (j, mz2) →
  ∃ int2, (idx ≤ j)%nat ∧ l !! (j - idx)%nat = Some (mz2, int2) ∧
    take_first mz1 (unmatched idx l matched)
    = Some ((mz2, int2), unmatched idx l ({[j]} ∪ matched)).
Proof.
  revert idx. induction l as [|[mz2' int2'] l IH]; intros idx; simpl; [done|].
  destruct (decide _) as [[Hout Hw]|Hno].
  - intros [= <- <-]. exists int2'. rewrite Nat.sub_diag. split; [lia|]. split; [done|].
    rewrite decide_False by done. simpl. rewrite decide_True by done.
    rewrite decide_True by set_solver. by rewrite unmatched_add_lt by lia.
  - intros Hrest. destruct (IH _ Hrest) as (int2 & Hle & Hlook & Htake).
    exists int2. split; [lia|]. split.
    + replace (j - idx)%nat with (S (j - S idx)) by lia. done.
    + destruct (decide (idx ∈ matched)) as [Hin|Hout].
      * rewrite decide_True by set_solver. done.
      * rewrite decide_False.
        2:{ rewrite elem_of_union, elem_of_singleton. intros [->|?]; [lia|done]. }
        simpl. rewrite decide_False.
        2:{ unfold within. intros Hw. apply Hno. by split. }
        rewrite Htake. done.
Qed.

(** The outer loop never raises on a well-formed dict, and adds the greedy
    dot product of its items with the peaks still unmatched. *)
Lemma for_each_match_peak (peaks1 : list (R * R)) (peaks2 : dict)
    (dot_product : R) (matched : gset nat) :
  wf peaks2 →
  ∃ matched',
    for_each (match_peak peaks2 (keys peaks2)) peaks1 (dot_product, matched)
    = Ok (dot_product + greedy_dot peaks1 (unmatched 0 peaks2 matched), matched').
Proof.
  intros Hwf. revert dot_product matched.
  induction peaks1 as [|[mz1 int1] peaks1 IH]; intros dot_product matched; simpl.
  - exists matched. f_equal. f_equal. lra.
  - destruct (first_match mz1 (keys peaks2) 0 matched) as [[j mz2]|] eqn:Hfm.
    + apply first_match_Some in Hfm as (int2 & _ & Hlook & Htake).
      rewrite Nat.sub_0_r in Hlook.
      rewrite (getitem_lookup _ _ _ _ Hwf Hlook). simpl.
      rewrite Htake.
      destruct (IH (dot_product + int1 * int2) ({[j]} ∪ matched)) as [m' Hm'].
      exists m'. rewrite Hm'. f_equal. f_equal. lra.
    + apply first_match_None in Hfm. rewrite Hfm. simpl. apply IH.
Qed.

Lemma sumsq_nil : sumsq [] = 0.
Proof. reflexivity. Qed.

Lemma sumsq_cons (p : R * R) (d : dict) : sumsq (p :: d) = p.2 ^ 2 + sumsq d.
Proof. unfold sumsq. simpl. apply sum_cons. Qed.

Lemma sumsq_nonneg (d : dict) : 0 <= sumsq d.
Proof.
  induction d as [|p d IH]; [rewrite sumsq_nil; lra|].
  rewrite sumsq_cons. pose proof (pow2_ge_0 p.2). lra.
Qed.

Lemma l2norm_nonneg (d : dict) : 0 <= l2norm d.
Proof. apply sqrt_pos. Qed.

Lemma math_sqrt_sumsq (d : dict) : math_sqrt (sumsq d) = Ok (l2norm d).
Proof.
  unfold math_sqrt. rewrite decide_False; [done|]. apply Rle_not_lt, sumsq_nonneg.
Qed.

(** The code computes the closed form, without raising. *)
Lemma cosine_similarity_score (peaks1 peaks2 : dict) :
  wf peaks2 → cosine_similarity peaks1 peaks2 = Ok (score peaks1 peaks2).
Proof.
  intros Hwf. unfold cosine_similarity, items. cbv zeta.
  destruct (for_each_match_peak peaks1 peaks2 0 ∅ Hwf) as [m' ->].
  fold (sumsq peaks1) (sumsq peaks2). rewrite !math_sqrt_sumsq.
  rewrite unmatched_empty, Rplus_0_l. cbn [mbind result_bind].
  unfold score, float_bool, truediv.
  destruct (decide (l2norm peaks1 ≠ 0 ∧ l2norm peaks2 ≠ 0)) as [[H1 H2]|Hz].
  - rewrite !bool_decide_eq_true_2 by done. cbn [andb].
    rewrite decide_False; [done|]. by apply Rmult_integral_contrapositive_currified.
  - destruct (bool_decide (l2norm peaks1 ≠ 0)) eqn:E1;
      destruct (bool_decide (l2norm peaks2 ≠ 0)) eqn:E2; cbn [andb]; try done.
    apply bool_decide_eq_true_1 in E1, E2. tauto.
Qed.

End ScorerRefinement.

(** ** Properties of the greedy pairing *)
Section GreedyFacts.
Import SkeletonSim ScorerSpec.
Local Open Scope R_scope.

Lemma within_refl (mz : R) : within mz mz.
Proof.
  unfold within, MZ_TOLERANCE_DA. rewrite Rminus_diag, Rabs_R0. lra.
Qed.


(** [take_first] splits the list around the peak it takes. *)
Lemma take_first_Some (mz : R) (l : list (R * R)) (q : R * R) (rest : list (R * R)) :
  take_first mz l = Some (q, rest) →
  ∃ l1 l2, l = l1 ++ q :: l2 ∧ rest = l1 ++ l2 ∧
           Forall (λ p, ¬ within mz p.1) l1 ∧ within mz q.1.
Proof.
  revert rest. induction l as [|p l IH]; intros rest; simpl; [done|].
  destruct (decide (within mz p.1)) as [Hw|Hn].
  - intros [= <- <-]. by exists [], l.
  - destruct (take_first mz l) as [[q' rest']|]; [|done].
    simpl. intros [= <- <-].
    destruct (IH rest' eq_refl) as (l1 & l2 & -> & -> & Hall & Hw).
    exists (p :: l1), l2. repeat split; auto.
Qed.






(** Against itself, every peak takes itself. *)
Lemma greedy_dot_self (peaks1 : list (R * R)) : greedy_dot peaks1 peaks1 = sumsq peaks1.
Proof.
  induction peaks1 as [|[mz1 int1] peaks1 IH]; [done|].
  simpl. rewrite decide_True by apply within_refl.
  rewrite sumsq_cons, IH. simpl. lra.
Qed.

Lemma take_first_sumsq (mz : R) (l : list (R * R)) (q : R * R) (rest : list (R * R)) :
  take_first mz l = Some (q, rest) → sumsq l = q.2 ^ 2 + sumsq rest.
Proof.
  intros (l1 & l2 & -> & -> & _)%take_first_Some.
  induction l1 as [|p l1 IH]; simpl.
  - by rewrite sumsq_cons.
  - rewrite !sumsq_cons, IH. lra.
Qed.

(** Cauchy-Schwarz for a one-to-one pairing. *)
Lemma greedy_dot_le (peaks1 peaks2 : list (R * R)) :
  greedy_dot peaks1 peaks2 <= l2norm peaks1 * l2norm peaks2.
Proof.
  revert peaks2. induction peaks1 as [|[mz1 int1] peaks1 IH]; intros peaks2.
  - simpl. unfold l2norm at 1. rewrite sumsq_nil, sqrt_0. lra.
  - simpl. destruct (take_first mz1 peaks2) as [[[mz2 int2] rest]|] eqn:Htake.
    + apply take_first_sumsq in Htake. cbn [snd] in Htake.
      unfold l2norm. rewrite sumsq_cons, Htake. simpl fst; simpl snd.
      pose proof (sqrt_cauchy int1 (sqrt (sumsq peaks1)) int2 (sqrt (sumsq rest))) as Hcs.
      rewrite !Rsqr_sqrt in Hcs by apply sumsq_nonneg.
      rewrite <- !Rsqr_pow2. specialize (IH rest). unfold l2norm in IH. lra.
    + unfold l2norm at 1. rewrite sumsq_cons. simpl snd.
      specialize (IH peaks2).
      assert (l2norm peaks1 <= sqrt (int1 ^ 2 + sumsq peaks1)) as Hle.
      { apply sqrt_le_1_alt. pose proof (pow2_ge_0 int1). lra. }
      pose proof (l2norm_nonneg peaks2). nra.
Qed.



Lemma score_self (d : dict) : l2norm d ≠ 0 → score d d = 1.
Proof.
  intros Hnz. unfold score. rewrite decide_True by done. rewrite greedy_dot_self.
  unfold l2norm. rewrite sqrt_sqrt by apply sumsq_nonneg.
  apply Rdiv_diag. intros Hz. apply Hnz. unfold l2norm. rewrite Hz. apply sqrt_0.
Qed.



End GreedyFacts.

(** ** The scorer: claims C1 to C4 *)
Section ScorerClaims.
Import SkeletonSim ScorerSpec.
Local Open Scope R_scope.





(** With every operation exact, a spectrum scored against itself pairs every
    peak with itself, whatever other peaks lie within the tolerance: the dot
    product is the sum of the squared intensities, and the score is that sum
    over the square of the norm, which is 1. *)
Lemma cosine_similarity_exact_self (peaks1 : dict) :
  wf peaks1 → l2norm peaks1 ≠ 0 →
  greedy_dot peaks1 peaks1 = sumsq peaks1 ∧
  cosine_similarity peaks1 peaks1 = Ok (sumsq peaks1 / (l2norm peaks1 * l2norm peaks1)) ∧
  sumsq peaks1 / (l2norm peaks1 * l2norm peaks1) = 1.
Proof.
  intros Hwf Hnz. split; [apply greedy_dot_self|].
  assert (sumsq peaks1 / (l2norm peaks1 * l2norm peaks1) = 1) as Hone.
  { unfold l2norm in *. rewrite sqrt_sqrt by apply sumsq_nonneg.
    apply Rdiv_diag. intros Hz. apply Hnz. rewrite Hz. apply sqrt_0. }
  split; [|exact Hone].
  rewrite cosine_similarity_score by done. rewrite Hone. f_equal. by apply score_self.
Qed.

Lemma close_peaks_l2norm : l2norm close_peaks ≠ 0.
Proof.
  unfold l2norm, close_peaks. rewrite !sumsq_cons, sumsq_nil. cbn [snd].
  apply Rgt_not_eq, sqrt_lt_R0. lra.
Qed.

Lemma l2norm_pos (d : dict) : 0 < sumsq d → l2norm d ≠ 0.
Proof. intros H. apply Rgt_not_eq, sqrt_lt_R0, H. Qed.

Lemma scenario_score : score scenario_A scenario_B = 0.4.
Proof.
  unfold score. rewrite decide_True.
  2:{ split; apply l2norm_pos; unfold scenario_A, scenario_B;
      rewrite !sumsq_cons, sumsq_nil; cbn [snd]; lra. }
  unfold l2norm. rewrite <- sqrt_mult by apply sumsq_nonneg.
  unfold scenario_A, scenario_B. rewrite !sumsq_cons, sumsq_nil. eval_pairing.
  replace ((10 ^ 2 + (20 ^ 2 + 0)) * (10 ^ 2 + (5 ^ 2 + 0))) with (250 * 250) by lra.
  rewrite sqrt_square by lra. lra.
Qed.

Lemma sort_by_mz_ascending (l : list (R * R)) : ascending l → sort_by_mz l = l.
Proof.
  unfold ascending, sort_by_mz. induction 1 as [|p l Hl IH Hhd]; [done|].
  cbn [foldr]. rewrite IH. destruct Hhd as [|q l' Hpq]; [done|].
  cbn [insert_by_mz]. by rewrite decide_True.
Qed.

(** With every operation exact, the score is the greedy pairing in the
    stored order of both spectra; on the worked scenario the dot product is
    100 and the score 0.4. *)
Lemma cosine_similarity_exact_greedy (peaks1 peaks2 : dict) :
  wf peaks2 →
  cosine_similarity peaks1 peaks2 = Ok (score peaks1 peaks2) ∧
  (ascending peaks1 →
   cosine_similarity_ascending peaks1 peaks2 = cosine_similarity peaks1 peaks2) ∧
  greedy_dot scenario_A scenario_B = 100 ∧
  ∃ s, cosine_similarity scenario_A scenario_B = Ok s ∧ Rabs (s - 0.4) <= 1e-9.
Proof.
  intros Hwf. split; [by apply cosine_similarity_score|]. split; [|split].
  - intros Hasc. unfold cosine_similarity_ascending. by rewrite sort_by_mz_ascending.
  - unfold scenario_A, scenario_B. eval_pairing. lra.
  - exists 0.4. split.
    + rewrite cosine_similarity_score by (unfold scenario_B; solve_wf).
      by rewrite scenario_score.
    + replace (0.4 - 0.4) with 0 by lra. rewrite Rabs_R0. lra.
Qed.

(** C4 as stated fails: on a spectrum stored in descending order of mass the
    code pairs one peak and scores 1 / (sqrt 26 * sqrt 2), while taking the
    peaks in ascending order pairs both and scores six times as much. *)
Lemma cosine_similarity_ascending_counterexample :
  ∃ s s', cosine_similarity descending_A descending_B = Ok s ∧
          cosine_similarity_ascending descending_A descending_B = Ok s' ∧
          s < s'.
Proof.
  assert (wf descending_B) as HB by (unfold descending_B; solve_wf).
  exists (1 / (sqrt 26 * sqrt 2)), (6 / (sqrt 26 * sqrt 2)).
  assert (l2norm descending_B = sqrt 2) as HnB.
  { unfold l2norm, descending_B. rewrite !sumsq_cons, sumsq_nil. cbn [snd]. f_equal. lra. }
  assert (l2norm descending_A = sqrt 26) as HnA.
  { unfold l2norm, descending_A. rewrite !sumsq_cons, sumsq_nil. cbn [snd]. f_equal. lra. }
  assert (l2norm (sort_by_mz descending_A) = sqrt 26) as HnA'.
  { unfold l2norm, descending_A. eval_pairing.
    rewrite !sumsq_cons, sumsq_nil. cbn [snd]. f_equal. lra. }
  assert (0 < sqrt 26) as H26 by (apply sqrt_lt_R0; lra).
  assert (0 < sqrt 2) as H2 by (apply sqrt_lt_R0; lra).
  split; [|split].
  - rewrite cosine_similarity_score by done. f_equal.
    unfold score. rewrite HnA, HnB. rewrite decide_True by (split; lra).
    f_equal. unfold descending_A, descending_B. eval_pairing. lra.
  - unfold cosine_similarity_ascending. rewrite cosine_similarity_score by done. f_equal.
    unfold score. rewrite HnA', HnB. rewrite decide_True by (split; lra).
    f_equal. unfold descending_A, descending_B. eval_pairing. lra.
  - assert (0 < / (sqrt 26 * sqrt 2)) by (apply Rinv_0_lt_compat, Rmult_lt_0_compat; lra).
    unfold Rdiv. nra.
Qed.

End ScorerClaims.

(** ** The scorer on binary64 *)
Section Binary64Facts.
Import PrimFloat SpecFloat FloatOps FloatAxioms Binary64.
Local Open Scope float_scope.
#[local] Set Warnings "-inexact-float".













Lemma is_finite_spec (x : float) :
  is_finite x = true →
  match Prim2SF x with S754_zero _ | S754_finite _ _ _ => True | _ => False end.
Proof.
  unfold is_finite, is_nan, is_infinity. rewrite !eqb_spec, abs_spec.
  change (Prim2SF infinity) with (S754_infinity false).
  destruct (Prim2SF x) as [s|s| |s m e]; cbn; try done.
  rewrite orb_true_r. done.
Qed.














(** A finite mass is within the tolerance of itself. *)
Lemma within_self (mz : float) :
  is_finite mz = true → (abs (mz - mz) <=? MZ_TOLERANCE_DA) = true.
Proof.
  intros Hfin%is_finite_spec. rewrite leb_spec, abs_spec, sub_spec.
  destruct (Prim2SF mz) as [[]| | |s m e]; try done.
  unfold SF64sub, SFsub. rewrite Z.sub_diag. reflexivity.
Qed.

(** Once the positions before a peak are used up, the peak takes itself,
    whatever lies around it. *)
Lemma first_match_self (pre : dict) (p : float * float) (rest : dict) (k : nat)
    (matched : gset nat) :
  (∀ i, (k ≤ i < k + length pre)%nat → i ∈ matched) →
  (k + length pre)%nat ∉ matched →
  is_finite p.1 = true →
  first_match p.1 (pre ++ p :: rest) k matched = Some ((k + length pre)%nat, p.2).
Proof.
  intros Hin Hnot Hfin. revert k Hin Hnot.
  induction pre as [|[mz v] pre IH]; intros k Hin Hnot.
  - destruct p as [mz v]. cbn [app first_match length fst snd] in *.
    rewrite Nat.add_0_r in *. rewrite bool_decide_true by done.
    by rewrite within_self.
  - cbn [app first_match length] in *.
    rewrite bool_decide_false by (intros Hk; apply Hk, Hin; lia). cbn [andb].
    rewrite IH; [do 2 f_equal; lia| |].
    + intros i Hi. apply Hin. lia.
    + by replace (S k + length pre)%nat with (k + S (length pre))%nat by lia.
Qed.

Lemma match_peak_self (pre : dict) (p : float * float) (rest : dict) (d : float) :
  is_finite p.1 = true →
  match_peak (pre ++ p :: rest) (d, set_seq 0 (length pre)) p
  = (d + p.2 * p.2, set_seq 0 (length (pre ++ [p]))).
Proof.
  intros Hfin. unfold match_peak. destruct p as [mz v].
  rewrite (first_match_self pre (mz, v) rest 0).
  - cbn [fst snd]. f_equal. rewrite length_app. cbn [length]. rewrite Nat.add_1_r.
    by rewrite set_seq_S_end_union_L.
  - intros i Hi. apply elem_of_set_seq. lia.
  - rewrite elem_of_set_seq. lia.
  - done.
Qed.

Lemma fold_match_peak_self (pre rest : dict) (d : float) :
  finite_masses rest →
  fold_left (match_peak (pre ++ rest)) rest (d, set_seq 0 (length pre))
  = (fold_left (λ acc p, acc + p.2 * p.2) rest d, set_seq 0 (length (pre ++ rest))).
Proof.
  intros Hfin. revert pre d. induction Hfin as [|p rest Hp _ IH]; intros pre d.
  - by rewrite app_nil_r.
  - cbn [fold_left]. rewrite match_peak_self by done.
    rewrite (cons_middle p pre rest), app_assoc. apply IH.
Qed.

(** A spectrum scored against itself pairs every peak with itself: the dot
    product is the sum of the squares in the order of the peaks, and the
    score is that sum over the product of the norm with itself. *)
Lemma cosine_similarity_self_pairing (peaks1 : dict) :
  finite_masses peaks1 →
  fold_left (match_peak peaks1) peaks1 (0, ∅)
  = (self_dot peaks1, set_seq 0 (length peaks1)) ∧
  ∀ n1, l2norm peaks1 = Ok n1 → (n1 =? 0) = false →
        cosine_similarity peaks1 peaks1 = truediv (self_dot peaks1) (n1 * n1).
Proof.
  intros Hfin. pose proof (fold_match_peak_self [] peaks1 0 Hfin) as Hfold.
  cbn [app length] in Hfold. split; [exact Hfold|].
  intros n1 Hn1 Hnz. unfold cosine_similarity.
  change (@nil (float * float) ++ peaks1) with peaks1 in Hfold.
  change (set_seq (C:=gset nat) 0 0) with (∅ : gset nat) in Hfold.
  rewrite Hfold, Hn1. cbn [mbind result_bind]. unfold float_bool. by rewrite Hnz.
Qed.

End Binary64Facts.

(** ** The value of the score *)
Section ScorerValueClaims.
Import SkeletonSim ScorerSpec PrimFloat.
Local Open Scope R_scope.
#[local] Set Warnings "-inexact-float".






(** C3, as the code has it.  A spectrum scored against itself pairs every
    peak with itself, whatever other peaks lie within the tolerance: the dot
    product is the sum of the squared intensities, and the score is that sum
    over the product of the norm with itself.  With every operation exact
    this quotient is 1 for a non-zero norm.  On binary64 it is 1 up to the
    rounding of the square root, the product and the division:
    0.9999999999999998 for two unit peaks and for two peaks closer than the
    tolerance, 1.0000000000000002 for three unit peaks. *)
Theorem cosine_similarity_self (peaks1 : dict) (b1 : Binary64.dict) :
  (wf peaks1 → l2norm peaks1 ≠ 0 →
     greedy_dot peaks1 peaks1 = sumsq peaks1 ∧
     cosine_similarity peaks1 peaks1 = Ok (sumsq peaks1 / (l2norm peaks1 * l2norm peaks1)) ∧
     sumsq peaks1 / (l2norm peaks1 * l2norm peaks1) = 1) ∧
  (Binary64.finite_masses b1 →
     fold_left (Binary64.match_peak b1) b1 (0%float, ∅)
     = (Binary64.self_dot b1, set_seq 0 (length b1)) ∧
     ∀ n1, Binary64.l2norm b1 = Ok n1 → (n1 =? 0)%float = false →
           Binary64.cosine_similarity b1 b1
           = Binary64.truediv (Binary64.self_dot b1) (n1 * n1)%float) ∧
  Binary64.cosine_similarity Binary64.unit_peaks_2 Binary64.unit_peaks_2
  = Ok 0.9999999999999998%float ∧
  Binary64.cosine_similarity Binary64.close_peaks Binary64.close_peaks
  = Ok 0.9999999999999998%float ∧
  Binary64.cosine_similarity Binary64.unit_peaks_3 Binary64.unit_peaks_3
  = Ok 1.0000000000000002%float.
Proof.
  split; [apply cosine_similarity_exact_self|].
  split; [apply cosine_similarity_self_pairing|].
  repeat split; vm_compute; reflexivity.
Qed.

Lemma close_peaks_finite : Binary64.finite_masses Binary64.close_peaks.
Proof. repeat constructor. Qed.

Lemma cosine_similarity_self_witness :
  (wf close_peaks ∧ l2norm close_peaks ≠ 0 ∧ within 100 100.005 ∧
   greedy_dot close_peaks close_peaks = sumsq close_peaks ∧
   sumsq close_peaks / (l2norm close_peaks * l2norm close_peaks) = 1) ∧
  (Binary64.finite_masses Binary64.close_peaks ∧
   (abs (100 - 100.005) <=? Binary64.MZ_TOLERANCE_DA)%float = true ∧
   fold_left (Binary64.match_peak Binary64.close_peaks) Binary64.close_peaks (0%float, ∅)
   = (5%float, set_seq 0 2)).
Proof.
  assert (wf close_peaks) as Hwf by (unfold close_peaks; solve_wf).
  destruct (cosine_similarity_self close_peaks Binary64.close_peaks) as (Hr & Hb & _).
  split.
  - split; [assumption|]. split; [apply close_peaks_l2norm|]. split; [solve_within|].
    destruct (Hr Hwf close_peaks_l2norm) as (Hdot & _ & Hone). by split.
  - split; [exact close_peaks_finite|]. split; [vm_compute; reflexivity|].
    destruct (Hb close_peaks_finite) as [Hfold _]. rewrite Hfold.
    vm_compute. reflexivity.
Defined.

(** C3 as stated fails: two unit peaks have the norm 1.4142135623730951 and
    score 0.9999999999999998 against themselves, which is not 1.0. *)
Lemma cosine_similarity_self_counterexample :
  Binary64.l2norm Binary64.unit_peaks_2 = Ok 1.4142135623730951%float ∧
  Binary64.cosine_similarity Binary64.unit_peaks_2 Binary64.unit_peaks_2
  = Ok 0.9999999999999998%float ∧
  (0.9999999999999998 =? 1)%float = false.
Proof. repeat split; vm_compute; reflexivity. Qed.

(** C4, as the code has it.  The peaks of the first spectrum are taken in
    their stored order (no sort is applied, so this is ascending order of
    mass only for a spectrum stored that way); each takes the first peak of the
    second spectrum, in its stored order, that is still free and at most 0.01
    away, and that peak is then used up; the products of the paired
    intensities are summed and divided by the product of the two full norms.
    On the worked scenario the dot product is 100 and the score is
    100 / (sqrt 500 * sqrt 125), about 0.4: 0.39999999999999997 on
    binary64. *)
Theorem cosine_similarity_greedy (peaks1 peaks2 : dict) :
  wf peaks2 →
  cosine_similarity peaks1 peaks2 = Ok (score peaks1 peaks2) ∧
  (ascending peaks1 →
   cosine_similarity_ascending peaks1 peaks2 = cosine_similarity peaks1 peaks2) ∧
  greedy_dot scenario_A scenario_B = 100 ∧
  (∃ s, cosine_similarity scenario_A scenario_B = Ok s ∧ Rabs (s - 0.4) <= 1e-9) ∧
  fold_left (Binary64.match_peak Binary64.scenario_B) Binary64.scenario_A (0%float, ∅)
  = (100%float, {[0%nat]}) ∧
  Binary64.cosine_similarity Binary64.scenario_A Binary64.scenario_B
  = Ok 0.39999999999999997%float.
Proof.
  intros Hwf.
  destruct (cosine_similarity_exact_greedy peaks1 peaks2 Hwf) as (H1 & H2 & H3 & H4).
  do 4 (split; [assumption|]).
  split; vm_compute; reflexivity.
Qed.

Lemma cosine_similarity_greedy_witness :
  wf descending_B ∧
  cosine_similarity descending_A descending_B = Ok (score descending_A descending_B) ∧
  (ascending descending_A →
   cosine_similarity_ascending descending_A descending_B
   = cosine_similarity descending_A descending_B) ∧
  greedy_dot scenario_A scenario_B = 100 ∧
  (∃ s, cosine_similarity scenario_A scenario_B = Ok s ∧ Rabs (s - 0.4) <= 1e-9) ∧
  fold_left (Binary64.match_peak Binary64.scenario_B) Binary64.scenario_A (0%float, ∅)
  = (100%float, {[0%nat]}) ∧
  Binary64.cosine_similarity Binary64.scenario_A Binary64.scenario_B
  = Ok 0.39999999999999997%float.
Proof.
  assert (wf descending_B) as HB by (unfold descending_B; solve_wf).
  split; [assumption|].
  exact (cosine_similarity_greedy descending_A descending_B HB).
Defined.

End ScorerValueClaims.

(** ** Spectral entropy: claim C5 *)
Section EntropyClaims.
Import SkeletonSim EntropySpec.
Local Open Scope R_scope.

Lemma ln_le_sub1 (x : R) : 0 < x → ln x <= x - 1.
Proof.
  intros Hx. destruct (Rle_or_lt (ln x) (x - 1)) as [|Hlt]; [done|].
  apply exp_increasing in Hlt. rewrite exp_ln in Hlt by done.
  pose proof (exp_ineq1_le (x - 1)). lra.
Qed.

Lemma ln_ge_sub_inv (x : R) : 0 < x → 1 - / x <= ln x.
Proof.
  intros Hx. pose proof (ln_le_sub1 (/ x) (Rinv_0_lt_compat x Hx)) as H.
  rewrite ln_Rinv in H by done. lra.
Qed.

Lemma np_sum_cons (x : R) (xs : list R) : np_sum (x :: xs) = x + np_sum xs.
Proof. reflexivity. Qed.

Lemma np_sum_le (f g : R → R) (l : list R) :
  Forall (λ x, f x <= g x) l → np_sum (map f l) <= np_sum (map g l).
Proof.
  induction 1 as [|x l Hx Hl IH]; cbn [map]; [lra|].
  rewrite !np_sum_cons. lra.
Qed.

Lemma np_sum_scale (c : R) (l : list R) : np_sum (map (λ x, x * c) l) = np_sum l * c.
Proof.
  induction l as [|x l IH]; cbn [map]; [cbn; lra|]. rewrite !np_sum_cons, IH. lra.
Qed.

Lemma np_sum_zero (l : list R) : np_sum (map (λ _, 0) l) = 0.
Proof. induction l as [|x l IH]; cbn [map]; [done|]. rewrite np_sum_cons, IH. lra. Qed.

Lemma np_sum_elem_le (l : list R) (x : R) :
  Forall (λ y, 0 < y) l → x ∈ l → x <= np_sum l.
Proof.
  induction 1 as [|y l Hy Hl IH]; [by intros ?%elem_of_nil|].
  rewrite np_sum_cons. intros [->|Hin]%elem_of_cons.
  - assert (0 <= np_sum l); [|lra].
    clear IH. induction Hl as [|z l Hz Hl IH]; [cbn; lra|]. rewrite np_sum_cons. lra.
  - specialize (IH Hin). lra.
Qed.

Lemma positive_intensities_pos (d : dict) : Forall (λ y, 0 < y) (positive_intensities d).
Proof.
  apply Forall_forall. intros x Hx. unfold positive_intensities in Hx.
  by apply list_elem_of_filter in Hx as [Hx _].
Qed.

Lemma normalized_range (p : list R) :
  Forall (λ y, 0 < y) p → Forall (λ q, 0 < q <= 1) (normalized p).
Proof.
  intros Hpos. unfold normalized. apply Forall_fmap, Forall_forall. intros x Hx. simpl.
  pose proof (np_sum_elem_le p x Hpos Hx) as Hle.
  assert (0 < x) as Hx0 by (rewrite Forall_forall in Hpos; auto).
  assert (0 < np_sum p) as HS by lra.
  pose proof (Rinv_0_lt_compat _ HS) as Hinv. unfold Rdiv. split.
  - by apply Rmult_lt_0_compat.
  - rewrite <- (Rinv_r (np_sum p)) by lra. apply Rmult_le_compat_r; lra.
Qed.

Lemma normalized_sum (p : list R) : 0 < np_sum p → np_sum (normalized p) = 1.
Proof.
  intros HS. unfold normalized, Rdiv. rewrite (np_sum_scale (/ np_sum p) p).
  apply Rinv_r. lra.
Qed.

(** The entropy is what the formula says once two positive peaks are there. *)
Lemma calculate_spectral_entropy_eq (d : dict) :
  calculate_spectral_entropy d
  = if decide (length (positive_intensities d) ≤ 1)%nat then 0
    else shannon_eps (normalized (positive_intensities d)).
Proof. reflexivity. Qed.

Lemma shannon_eps_nonneg (prob : list R) :
  Forall (λ q, 0 < q ∧ q + 1e-12 <= 1) prob → 0 <= shannon_eps prob.
Proof.
  intros Hr. unfold shannon_eps.
  assert (np_sum (map (λ q, q * ln (q + 1e-12)) prob)
          <= np_sum (map (λ _, 0) prob)) as Hle.
  { apply np_sum_le. eapply Forall_impl; [exact Hr|]. intros q [Hq0 Hq1]. simpl.
    pose proof (ln_le_sub1 (q + 1e-12)). nra. }
  rewrite np_sum_zero in Hle. lra.
Qed.

Lemma equal_pair_entropy (a : R) :
  0 < a → calculate_spectral_entropy (equal_pair a) = - ln (1 / 2 + 1e-12).
Proof.
  intros Ha. rewrite calculate_spectral_entropy_eq.
  assert (positive_intensities (equal_pair a) = [a; a]) as ->.
  { unfold positive_intensities, equal_pair, values. cbn [map snd].
    rewrite !filter_cons, filter_nil. by rewrite !decide_True. }
  rewrite decide_False by (simpl; lia).
  unfold shannon_eps, normalized. cbn [map]. rewrite !np_sum_cons.
  replace (a / (a + (a + np_sum []))) with (1 / 2) by (cbn; field; lra).
  cbn. lra.
Qed.

Lemma ln_half_eps_bounds : ln 2 - 3e-12 <= - ln (1 / 2 + 1e-12) <= ln 2 - 1e-12.
Proof.
  replace (1 / 2 + 1e-12) with (/ 2 * (1 + 2e-12)) by lra.
  rewrite ln_mult by lra. rewrite ln_Rinv by lra.
  pose proof (ln_le_sub1 (1 + 2e-12)).
  pose proof (ln_ge_sub_inv (1 + 2e-12)) as Hge.
  assert (/ (1 + 2e-12) <= 1 - 1e-12) as Hinv.
  { apply Rmult_le_reg_l with (1 + 2e-12); [lra|]. rewrite Rinv_r by lra. lra. }
  lra.
Qed.

(** C5, as the code has it.  Peaks with intensity [<= 0] are dropped; with
    fewer than two left (so also with exactly one) the entropy is 0;
    otherwise it is [- sum p * ln (p + 1e-12)] over the sum-normalized
    intensities.  For two peaks of equal intensity this is [ln 2] less
    about [2e-12], between [ln 2 - 3e-12] and [ln 2 - 1e-12].  The result
    is non-negative when no normalized intensity exceeds [1 - 1e-12]; it
    can be negative otherwise. *)
Theorem calculate_spectral_entropy_spec (d : dict) :
  ((length (positive_intensities d) ≤ 1)%nat → calculate_spectral_entropy d = 0) ∧
  ((2 ≤ length (positive_intensities d))%nat →
     calculate_spectral_entropy d = shannon_eps (normalized (positive_intensities d))) ∧
  (Forall (λ q, q + 1e-12 <= 1) (normalized (positive_intensities d)) →
     0 <= calculate_spectral_entropy d) ∧
  (∀ a, 0 < a <= 1e300 →
     ln 2 - 3e-12 <= calculate_spectral_entropy (equal_pair a) <= ln 2 - 1e-12).
Proof.
  rewrite calculate_spectral_entropy_eq.
  pose proof (normalized_range _ (positive_intensities_pos d)) as Hrange.
  split; [|split; [|split]].
  - intros Hle. by rewrite decide_True.
  - intros Hge. rewrite decide_False by lia. done.
  - intros Hsmall. destruct (decide _) as [|Hlen]; [lra|].
    apply shannon_eps_nonneg. rewrite Forall_forall in Hrange, Hsmall |- *.
    intros q Hq. split; [apply Hrange, Hq|apply Hsmall, Hq].
  - intros a [Ha _]. rewrite equal_pair_entropy by done. apply ln_half_eps_bounds.
Qed.

(** C5 as stated fails: one peak at [1e30] beside a peak at [1] pushes its
    normalized intensity above [1 - 1e-12], and the entropy comes out
    negative. *)
Lemma calculate_spectral_entropy_negative_counterexample :
  calculate_spectral_entropy dominant_peak < 0.
Proof.
  rewrite calculate_spectral_entropy_eq.
  assert (positive_intensities dominant_peak = [1e30; 1]) as ->.
  { unfold positive_intensities, dominant_peak, values. cbn [map snd].
    rewrite !filter_cons, filter_nil. by rewrite !decide_True by lra. }
  rewrite decide_False by (simpl; lia).
  unfold shannon_eps, normalized. cbn [map]. rewrite !np_sum_cons.
  replace (np_sum []) with 0 by reflexivity.
  set (q1 := 1e30 / (1e30 + (1 + 0))). set (q2 := 1 / (1e30 + (1 + 0))).
  assert (1 / 2 < q1 ∧ 1 + 9e-13 < q1 + 1e-12) as [Hq1 Hq1'] by (unfold q1; lra).
  assert (0 < q2 < 1e-29) as Hq2 by (unfold q2; lra).
  assert (8e-13 < ln (q1 + 1e-12)) as HA.
  { pose proof (ln_ge_sub_inv (q1 + 1e-12)).
    assert (/ (q1 + 1e-12) < / (1 + 9e-13)) by (apply Rinv_0_lt_contravar; lra). lra. }
  assert (- 1e12 < ln (q2 + 1e-12)) as HB.
  { pose proof (ln_ge_sub_inv (q2 + 1e-12)).
    assert (/ (q2 + 1e-12) < / 1e-12) by (apply Rinv_0_lt_contravar; lra). lra. }
  assert (4e-13 < q1 * ln (q1 + 1e-12)) by nra.
  assert (- 1e-17 < q2 * ln (q2 + 1e-12)) by nra.
  lra.
Qed.

End EntropyClaims.

(** ** The pairwise network: claims C8 and C9 *)
Section NetworkFacts.
Import SkeletonSim ScorerSpec NetworkSpec.
Local Open Scope R_scope.

Lemma setitem_keys (d : dict) (k v : R) :
  keys (setitem d k v) = if decide (k ∈ keys d) then keys d else keys d ++ [k].
Proof.
  unfold keys. induction d as [|[k' v'] d IH]; cbn [setitem map fst].
  - rewrite decide_False; [done|]. apply not_elem_of_nil.
  - destruct (decide (k' = k)) as [->|Hne]; cbn [map fst].
    + rewrite decide_True; [done|]. apply list_elem_of_here.
    + rewrite IH. destruct (decide (k ∈ map fst d)) as [Hin|Hout].
      * rewrite decide_True; [done|]. by apply list_elem_of_further.
      * rewrite decide_False; [done|].
        rewrite elem_of_cons. intros [->|?]; done.
Qed.

Lemma wf_setitem (d : dict) (k v : R) : wf d → wf (setitem d k v).
Proof.
  unfold wf. rewrite setitem_keys. intros Hwf.
  destruct (decide (k ∈ keys d)) as [|Hout]; [done|].
  apply NoDup_app. split; [done|]. split.
  - intros x Hx ->%list_elem_of_singleton. done.
  - apply NoDup_singleton.
Qed.

(** A dict comprehension yields a well-formed dict. *)
Lemma wf_dict_of_items (kvs : list (R * R)) : wf (dict_of_items kvs).
Proof.
  unfold dict_of_items.
  assert (∀ d, wf d → wf (fold_left (λ d kv, setitem d kv.1 kv.2) kvs d)) as H.
  { induction kvs as [|kv kvs IH]; intros d Hd; simpl; [done|].
    apply IH, wf_setitem, Hd. }
  apply H. unfold wf. apply NoDup_nil. exact I.
Qed.

Lemma py_min_Rmin (a b : R) : Py.min a b = Rmin a b.
Proof.
  unfold Py.min, Rmin. destruct (decide (b < a)), (Rle_dec a b); lra.
Qed.

Lemma py_max_Rmax (a b : R) : Py.max a b = Rmax a b.
Proof.
  unfold Py.max, Rmax. destruct (decide (a < b)), (Rle_dec a b); lra.
Qed.

(** The guarded division never raises. *)
Lemma entropy_ratio_of_ratio (e1 e2 : R) : entropy_ratio_of e1 e2 = Ok (ratio e1 e2).
Proof.
  unfold entropy_ratio_of, ratio.
  destruct (decide (0 < e1 ∧ 0 < e2)) as [[H1 H2]|]; [|done].
  unfold truediv. rewrite py_min_Rmin, py_max_Rmax.
  rewrite decide_False; [done|].
  unfold Rmax. destruct (Rle_dec e1 e2); lra.
Qed.

Lemma ratio_range (e1 e2 : R) : 0 < ratio e1 e2 <= 1.
Proof.
  unfold ratio. destruct (decide (0 < e1 ∧ 0 < e2)) as [[H1 H2]|]; [|lra].
  assert (0 < Rmin e1 e2 ∧ Rmin e1 e2 <= Rmax e1 e2) as [Hmin Hle].
  { unfold Rmin, Rmax. destruct (Rle_dec e1 e2); lra. }
  assert (0 < Rmax e1 e2) as Hmax by lra.
  pose proof (Rinv_0_lt_compat _ Hmax) as Hinv. unfold Rdiv. split.
  - by apply Rmult_lt_0_compat.
  - rewrite <- (Rinv_r (Rmax e1 e2)) by lra. apply Rmult_le_compat_r; lra.
Qed.

Lemma round_half_even_bounds (x : R) (a b : Z) :
  IZR a <= x <= IZR b → (a ≤ round_half_even x ≤ b)%Z.
Proof.
  intros [Ha Hb]. unfold round_half_even.
  pose proof (Zfloor_bound x) as [Hf1 Hf2].
  pose proof (Zfloor_lub a x Ha) as Hlub.
  assert (Zfloor x ≤ b)%Z as Hfb by (apply le_IZR; lra).
  assert (1 / 2 <= x - IZR (Zfloor x) → (Zfloor x + 1 ≤ b)%Z) as Hup.
  { intros Hd. assert (Zfloor x < b)%Z; [|lia]. apply lt_IZR. lra. }
  destruct (decide (x - IZR (Zfloor x) < 1 / 2)); [lia|].
  destruct (decide (1 / 2 < x - IZR (Zfloor x))); [split; [lia|apply Hup; lra]|].
  destruct (Z.even (Zfloor x)); [lia|]. split; [lia|apply Hup; lra].
Qed.

Lemma round_half_even_lower (x : R) (a : Z) : IZR a <= x → (a ≤ round_half_even x)%Z.
Proof.
  intros Ha. pose proof (Zfloor_lub a x Ha) as Hlub.
  unfold round_half_even. repeat destruct (decide _); try destruct (Z.even _); lia.
Qed.

Lemma round_unit_interval (x : R) : 0 <= x <= 1 → 0 <= round x 4 <= 1.
Proof.
  intros Hx. unfold round.
  destruct (round_half_even_bounds (x * 10 ^ 4) 0 10000) as [H0 H1]; [lra|].
  apply IZR_le in H0, H1. lra.
Qed.

(** The loop body appends the edge of the pair, if it has one. *)
Lemma score_pair_edge_of (edges : list Edge) (i j : nat) (d1 d2 : Node) :
  wf (peaks d2) →
  score_pair edges ((i, d1), (j, d2)) = Ok (edges ++ option_list (edge_of d1 d2)).
Proof.
  intros Hwf. unfold score_pair, edge_of.
  rewrite cosine_similarity_score by done. cbn [mbind result_bind].
  destruct (decide (SIM_THRESHOLD <= score (peaks d1) (peaks d2))).
  - rewrite entropy_ratio_of_ratio. done.
  - by rewrite app_nil_r.
Qed.

Lemma for_each_score_pair (pairs : list ((nat * Node) * (nat * Node))) (edges : list Edge) :
  Forall (λ pr, wf (peaks pr.2.2)) pairs →
  for_each score_pair pairs edges = Ok (edges ++ edges_of pairs).
Proof.
  intros Hwf. revert edges.
  induction Hwf as [|[[i d1] [j d2]] pairs Hd2 Hrest IH]; intros edges.
  - simpl. by rewrite app_nil_r.
  - cbn [for_each]. rewrite score_pair_edge_of by done. cbn [mbind result_bind].
    rewrite IH. unfold edges_of. cbn [omap list_omap fst snd].
    destruct (edge_of d1 d2); simpl; by rewrite <- ?app_assoc.
Qed.

(** *** [enumerate] and [combinations] *)

Example enumerate_abc :
  enumerate ["a"; "b"; "c"] = [(0, "a"); (1, "b"); (2, "c")]%nat.
Proof. reflexivity. Qed.

Example combinations2_abc :
  combinations2 (enumerate ["a"; "b"; "c"])
  = [((0, "a"), (1, "b")); ((0, "a"), (2, "c")); ((1, "b"), (2, "c"))]%nat.
Proof. reflexivity. Qed.

Lemma elem_of_enumerate_from {A : Type} (k : nat) (l : list A) (j : nat) (x : A) :
  (j, x) ∈ enumerate_from k l ↔ (k ≤ j)%nat ∧ l !! (j - k)%nat = Some x.
Proof.
  revert k. induction l as [|a l IH]; intros k; cbn [enumerate_from].
  - rewrite elem_of_nil. split; [done|]. by intros [_ ?].
  - rewrite elem_of_cons, IH. split.
    + intros [[= -> ->]|[Hle Hlook]].
      * rewrite Nat.sub_diag. split; [lia|done].
      * split; [lia|]. by replace (j - k)%nat with (S (j - S k)) by lia.
    + intros [Hle Hlook]. destruct (decide (j = k)) as [->|Hne].
      * left. rewrite Nat.sub_diag in Hlook. by injection Hlook as ->.
      * right. split; [lia|].
        by replace (j - k)%nat with (S (j - S k)) in Hlook by lia.
Qed.


Lemma length_enumerate_from {A : Type} (k : nat) (l : list A) :
  length (enumerate_from k l) = length l.
Proof. revert k. induction l as [|a l IH]; intros k; simpl; [done|]. by rewrite IH. Qed.

(** The pairs are those of two positions [i < j], each with its element. *)
Lemma elem_of_combinations2_enumerate {A : Type} (k : nat) (l : list A)
    (i j : nat) (x y : A) :
  ((i, x), (j, y)) ∈ combinations2 (enumerate_from k l) ↔
  (k ≤ i < j)%nat ∧ l !! (i - k)%nat = Some x ∧ l !! (j - k)%nat = Some y.
Proof.
  revert k. induction l as [|a l IH]; intros k; cbn [enumerate_from combinations2].
  - rewrite elem_of_nil. split; [done|]. by intros (_ & ? & _).
  - rewrite elem_of_app, list_elem_of_fmap, IH. split.
    + intros [([j' y'] & [= -> -> -> ->] & Hin)|(Hle & Hx & Hy)].
      * apply elem_of_enumerate_from in Hin as [Hle Hy].
        rewrite Nat.sub_diag. split; [lia|]. split; [done|].
        by replace (j' - k)%nat with (S (j' - S k)) by lia.
      * split; [lia|]. split.
        -- by replace (i - k)%nat with (S (i - S k)) by lia.
        -- by replace (j - k)%nat with (S (j - S k)) by lia.
    + intros (Hle & Hx & Hy).
      replace (j - k)%nat with (S (j - S k)) in Hy by lia.
      destruct (decide (i = k)) as [->|Hne].
      * left. rewrite Nat.sub_diag in Hx. injection Hx as ->.
        exists (j, y). split; [done|]. apply elem_of_enumerate_from. split; [lia|done].
      * right. split; [lia|]. split; [|done].
        by replace (i - k)%nat with (S (i - S k)) in Hx by lia.
Qed.



Lemma wf_processed_data (entries : list Entry) :
  Forall (λ d, wf (peaks d)) (processed_data entries).
Proof.
  unfold processed_data. apply Forall_forall. intros d Hd.
  apply list_elem_of_fmap in Hd as (entry & -> & _). apply wf_dict_of_items.
Qed.

Lemma wf_scored_pairs (entries : list Entry) :
  Forall (λ pr, wf (peaks pr.2.2)) (scored_pairs entries).
Proof.
  apply Forall_forall. intros [[i d1] [j d2]] Hin.
  apply elem_of_combinations2_enumerate in Hin as (_ & _ & Hj).
  pose proof (wf_processed_data entries) as Hwf. rewrite Forall_forall in Hwf.
  apply Hwf. by eapply list_elem_of_lookup_2.
Qed.

(** The first loop appends the node of an entry whose identifier reads
    back, and raises on the first entry whose identifier does not. *)
Lemma append_entry_printable (acc : list Node) (entry : Entry) :
  printable entry → append_entry acc entry = Ok (acc ++ [process_entry entry]).
Proof.
  intros [Hm Hr]. unfold append_entry, split_id.
  rewrite decide_False by lra.
  rewrite decide_False by (cbn [generate_spectrum_id id_rt]; lia). done.
Qed.

Lemma append_entry_unprintable (acc : list Node) (entry : Entry) :
  ¬ printable entry → append_entry acc entry = Raise ValueError.
Proof.
  intros Hn. unfold append_entry, split_id.
  destruct (decide (default 0 (PEPMASS entry) < 0)) as [|Hm]; [done|].
  destruct (decide (id_rt (generate_spectrum_id entry) < 0)%Z) as [|Hr]; [done|].
  destruct Hn. split; [lra|]. cbn [generate_spectrum_id id_rt] in Hr. lia.
Qed.

Lemma for_each_append_entry (entries : list Entry) (acc : list Node) :
  Forall printable entries →
  for_each append_entry entries acc = Ok (acc ++ map process_entry entries).
Proof.
  intros H. revert acc. induction H as [|entry entries Hp _ IH]; intros acc.
  - by rewrite app_nil_r.
  - cbn [for_each map]. rewrite append_entry_printable by done.
    cbn [mbind result_bind]. rewrite IH, <- app_assoc. done.
Qed.

Lemma for_each_append_entry_raise (entries : list Entry) (acc : list Node) :
  ¬ Forall printable entries → for_each append_entry entries acc = Raise ValueError.
Proof.
  revert acc. induction entries as [|entry entries IH]; intros acc Hn.
  - destruct Hn. apply Forall_nil. exact I.
  - cbn [for_each]. destruct (decide (printable entry)) as [Hp|Hp].
    + rewrite append_entry_printable by done. cbn [mbind result_bind].
      apply IH. intros Hall. apply Hn. by apply Forall_cons.
    + by rewrite append_entry_unprintable.
Qed.

(** On entries whose identifiers read back the pipeline does not raise; it
    writes every node and the edges of the scored pairs. *)
Lemma run_similarity_network_pipeline_eq (entries : list Entry) :
  Forall printable entries →
  run_similarity_network_pipeline entries
  = Ok (save_cytoscape_xgmml (processed_data entries) (edges_of (scored_pairs entries))).
Proof.
  intros Hp. unfold run_similarity_network_pipeline.
  rewrite for_each_append_entry by done. cbn [mbind result_bind app].
  fold (processed_data entries). fold (scored_pairs entries).
  rewrite for_each_score_pair by apply wf_scored_pairs. done.
Qed.

Lemma run_similarity_network_pipeline_raise (entries : list Entry) :
  ¬ Forall printable entries →
  run_similarity_network_pipeline entries = Raise ValueError.
Proof.
  intros Hn. unfold run_similarity_network_pipeline.
  by rewrite for_each_append_entry_raise.
Qed.





Lemma printable_entry_XY : Forall printable [entry_X; entry_Y].
Proof.
  repeat (apply Forall_cons; split); try (apply Forall_nil; exact I);
    (split; [cbn; lra|apply round_half_even_lower; cbn; lra]).
Qed.





Lemma moderate_entry_XY : Forall (λ e, moderate (entry_peaks e)) [entry_X; entry_Y].
Proof.
  unfold moderate, entry_X, entry_Y. cbn [entry_peaks].
  repeat (apply Forall_cons; split); try (apply Forall_nil; exact I);
    cbn [snd]; right; (rewrite Rabs_right by lra); lra.
Qed.




(** C9, as the code has it.  The entropy ratio of a pair is computed without
    any exception; it is smaller over larger entropy when both are positive
    and 1 otherwise, hence in (0, 1].  A qualifying pair yields one edge
    carrying the ratio rounded to four decimals, and the style written for
    it is [dash] when that rounded ratio is below the limit 0.75 and [solid]
    otherwise. *)
Theorem entropy_ratio_line_style (edges : list Edge) (i j : nat) (d1 d2 : Node) :
  wf (peaks d2) →
  entropy_ratio_of (entropy d1) (entropy d2) = Ok (ratio (entropy d1) (entropy d2)) ∧
  0 < ratio (entropy d1) (entropy d2) <= 1 ∧
  (0 < entropy d1 → 0 < entropy d2 →
     ratio (entropy d1) (entropy d2)
     = Rmin (entropy d1) (entropy d2) / Rmax (entropy d1) (entropy d2)) ∧
  (entropy d1 <= 0 ∨ entropy d2 <= 0 → ratio (entropy d1) (entropy d2) = 1) ∧
  (SIM_THRESHOLD <= score (peaks d1) (peaks d2) →
     ∃ e, score_pair edges ((i, d1), (j, d2)) = Ok (edges ++ [e]) ∧
          entropy_ratio e = round (ratio (entropy d1) (entropy d2)) 4 ∧
          0 <= entropy_ratio e <= 1 ∧
          xe_line_style (write_edge (length edges, e))
          = if decide (round (ratio (entropy d1) (entropy d2)) 4 < ENTROPY_RATIO_LIMIT)
            then "dash" else "solid").
Proof.
  intros Hwf. pose proof (ratio_range (entropy d1) (entropy d2)) as Hrange.
  split; [apply entropy_ratio_of_ratio|]. split; [done|]. split; [|split].
  - intros H1 H2. unfold ratio. by rewrite decide_True.
  - intros Hz. unfold ratio. rewrite decide_False; [done|]. lra.
  - intros Hq. rewrite score_pair_edge_of by done. unfold edge_of.
    rewrite decide_True by done. eexists. split; [done|].
    cbn [entropy_ratio write_edge xe_line_style]. split; [done|]. split.
    + apply round_unit_interval. lra.
    + done.
Qed.

Lemma single_peak_score : score [(100, 1)] [(100, 1)] = 1.
Proof.
  apply score_self, l2norm_pos. rewrite sumsq_cons, sumsq_nil. cbn [snd]. lra.
Qed.

Lemma single_peak_wf : wf [(100, 1)].
Proof. solve_wf. Qed.

Lemma entropy_ratio_line_style_witness :
  wf (peaks (node_with_entropy 2)) ∧
  entropy_ratio_of 1 2 = Ok (ratio 1 2) ∧
  0 < ratio 1 2 <= 1 ∧
  (0 < 1 → 0 < 2 → ratio 1 2 = Rmin 1 2 / Rmax 1 2) ∧
  (1 <= 0 ∨ 2 <= 0 → ratio 1 2 = 1) ∧
  (SIM_THRESHOLD <= score [(100, 1)] [(100, 1)] →
     ∃ e, score_pair [] ((0%nat, node_with_entropy 1), (1%nat, node_with_entropy 2))
          = Ok ([] ++ [e]) ∧
          entropy_ratio e = round (ratio 1 2) 4 ∧
          0 <= entropy_ratio e <= 1 ∧
          xe_line_style (write_edge (0%nat, e))
          = if decide (round (ratio 1 2) 4 < ENTROPY_RATIO_LIMIT)
            then "dash" else "solid").
Proof.
  split; [exact single_peak_wf|].
  exact (entropy_ratio_line_style [] 0 1 (node_with_entropy 1) (node_with_entropy 2)
           single_peak_wf).
Defined.

(** The two entries of the counterexample, processed. *)
Lemma dict_of_two_items (k1 v1 k2 v2 : R) :
  k1 ≠ k2 → dict_of_items [(k1, v1); (k2, v2)] = [(k1, v1); (k2, v2)].
Proof.
  intros Hne. unfold dict_of_items. cbn [fold_left setitem fst snd].
  by rewrite decide_False.
Qed.

Lemma two_peak_entropy (k1 v1 k2 v2 : R) :
  0 < v1 → 0 < v2 →
  calculate_spectral_entropy [(k1, v1); (k2, v2)]
  = - (v1 / (v1 + v2) * ln (v1 / (v1 + v2) + 1e-12)
       + v2 / (v1 + v2) * ln (v2 / (v1 + v2) + 1e-12)).
Proof.
  intros H1 H2. rewrite calculate_spectral_entropy_eq.
  assert (EntropySpec.positive_intensities [(k1, v1); (k2, v2)] = [v1; v2]) as ->.
  { unfold EntropySpec.positive_intensities, values. cbn [map snd].
    rewrite !filter_cons, filter_nil. by rewrite !decide_True. }
  rewrite decide_False by (simpl; lia).
  unfold EntropySpec.shannon_eps, EntropySpec.normalized. cbn [map].
  rewrite !np_sum_cons. replace (np_sum []) with 0 by reflexivity.
  rewrite !Rplus_0_r. done.
Qed.

Lemma entry_X_entropy : 0 < entropy (process_entry entry_X) <= 0.2.
Proof.
  unfold process_entry, entry_X. cbn [entropy entry_peaks].
  rewrite dict_of_two_items by lra. rewrite two_peak_entropy by lra.
  replace (99 / (99 + 1)) with 0.99 by lra. replace (1 / (99 + 1)) with 0.01 by lra.
  pose proof (ln_increasing (0.99 + 1e-12) 1) as Ha. rewrite ln_1 in Ha.
  pose proof (ln_increasing (0.01 + 1e-12) 1) as Hb. rewrite ln_1 in Hb.
  pose proof (ln_ge_sub_inv (0.99 + 1e-12)) as Ha'.
  assert (/ (0.99 + 1e-12) < / 0.99) by (apply Rinv_0_lt_contravar; lra).
  pose proof (ln_increasing 0.01 (0.01 + 1e-12)) as Hc.
  assert (-18 <= ln 0.01) as Hd.
  { replace 0.01 with (0.1 * 0.1) by lra. rewrite ln_mult by lra.
    pose proof (ln_ge_sub_inv 0.1). lra. }
  split; lra.
Qed.

Lemma entry_Y_entropy : 0.37 <= entropy (process_entry entry_Y).
Proof.
  unfold process_entry, entry_Y. cbn [entropy entry_peaks].
  rewrite dict_of_two_items by lra. rewrite two_peak_entropy by lra.
  replace (3 / (3 + 1)) with 0.75 by lra. replace (1 / (3 + 1)) with 0.25 by lra.
  pose proof (ln_le_sub1 (0.75 + 1e-12)). pose proof (ln_le_sub1 (0.25 + 1e-12)). lra.
Qed.

Lemma entry_XY_score :
  SIM_THRESHOLD <= score (peaks (process_entry entry_X)) (peaks (process_entry entry_Y)).
Proof.
  unfold process_entry, entry_X, entry_Y. cbn [peaks entry_peaks].
  rewrite !dict_of_two_items by lra.
  assert (0 < sumsq [(100, 99); (200, 1)] ∧ 0 < sumsq [(100, 3); (200, 1)]) as [HX HY].
  { rewrite !sumsq_cons, sumsq_nil. cbn [snd]. lra. }
  unfold score. rewrite decide_True by (split; by apply l2norm_pos).
  unfold l2norm. rewrite <- sqrt_mult by lra.
  rewrite !sumsq_cons, sumsq_nil. cbn [snd]. eval_pairing.
  assert (sqrt ((99 ^ 2 + (1 ^ 2 + 0)) * (3 ^ 2 + (1 ^ 2 + 0))) <= 331) as Hs.
  { rewrite <- (sqrt_square 331) by lra. apply sqrt_le_1_alt. lra. }
  assert (0 < sqrt ((99 ^ 2 + (1 ^ 2 + 0)) * (3 ^ 2 + (1 ^ 2 + 0)))) as Hp
    by (apply sqrt_lt_R0; lra).
  unfold SIM_THRESHOLD. apply Rle_trans with (298 / 331); [lra|].
  unfold Rdiv. replace (99 * 3 + (1 * 1 + 0)) with 298 by lra.
  apply Rmult_le_compat_l; [lra|]. apply Rinv_le_contravar; lra.
Qed.

Lemma entry_XY_ratio :
  ratio (entropy (process_entry entry_X)) (entropy (process_entry entry_Y)) <= 0.6.
Proof.
  pose proof entry_X_entropy as [HX0 HX]. pose proof entry_Y_entropy as HY.
  unfold ratio. rewrite decide_True by lra.
  unfold Rmin, Rmax. destruct (Rle_dec _ _); [|lra].
  pose proof (Rinv_0_lt_compat (entropy (process_entry entry_Y))) as Hinv.
  apply Rle_trans with (0.6 * entropy (process_entry entry_Y) * / entropy (process_entry entry_Y)).
  - unfold Rdiv. apply Rmult_le_compat_r; lra.
  - rewrite Rmult_assoc, Rinv_r; lra.
Qed.

Lemma round_le (x : R) (b : Z) : 0 <= x → x * 10 ^ 4 <= IZR b → round x 4 <= IZR b / 10 ^ 4.
Proof.
  intros H0 Hb. unfold round.
  destruct (round_half_even_bounds (x * 10 ^ 4) 0 b) as [_ H1]; [lra|].
  apply IZR_le in H1. unfold Rdiv. apply Rmult_le_compat_r; lra.
Qed.

Lemma round_near_limit : round 0.74996 4 = 0.75.
Proof.
  unfold round, round_half_even.
  replace (0.74996 * 10 ^ 4) with 7499.6 by lra.
  rewrite (Zfloor_eq 7499 7499.6) by lra.
  rewrite decide_False by lra. rewrite decide_True by lra.
  replace (7499 + 1)%Z with 7500%Z by lia. lra.
Qed.

(** C9 as stated fails twice.  A qualifying edge between two parsed spectra
    whose entropy ratio is below the limit is written with the style [dash],
    not [dashed]; and a ratio of 0.74996, below the limit, is rounded to 0.75
    before the comparison, so that the edge is written [solid]. *)
Lemma line_style_counterexample :
  (∃ doc e,
     run_similarity_network_pipeline [entry_X; entry_Y] = Ok doc ∧
     xg_edges doc = [e] ∧
     ratio (entropy (process_entry entry_X)) (entropy (process_entry entry_Y))
       < ENTROPY_RATIO_LIMIT ∧
     xe_line_style e = "dash" ∧ xe_line_style e ≠ "dashed") ∧
  (∃ e,
     score_pair [] ((0%nat, node_with_entropy 0.74996), (1%nat, node_with_entropy 1))
       = Ok [e] ∧
     ratio 0.74996 1 < ENTROPY_RATIO_LIMIT ∧
     xe_line_style (write_edge (0%nat, e)) = "solid").
Proof.
  split.
  - pose proof entry_XY_ratio as Hr. pose proof entry_XY_score as Hs.
    pose proof (ratio_range (entropy (process_entry entry_X))
                  (entropy (process_entry entry_Y))) as [Hr0 _].
    rewrite run_similarity_network_pipeline_eq by exact printable_entry_XY.
    unfold scored_pairs, processed_data, enumerate.
    cbn [map enumerate_from combinations2 app edges_of omap list_omap fst snd].
    unfold edge_of. rewrite decide_True by done.
    cbn [option_list save_cytoscape_xgmml xg_edges enumerate enumerate_from map write_edge].
    eexists _, _. split; [reflexivity|]. split; [reflexivity|].
    split; [unfold ENTROPY_RATIO_LIMIT; lra|].
    cbn [write_edge xe_line_style]. unfold line_style_of. cbn [entropy_ratio].
    rewrite decide_True; [done|].
    pose proof (round_le _ 6000 (Rlt_le _ _ Hr0)) as Hround.
    unfold ENTROPY_RATIO_LIMIT. lra.
  - rewrite score_pair_edge_of by exact single_peak_wf.
    unfold edge_of, node_with_entropy. cbn [peaks entropy id].
    rewrite single_peak_score. rewrite decide_True by (unfold SIM_THRESHOLD; lra).
    eexists. split; [reflexivity|].
    assert (ratio 0.74996 1 = 0.74996) as Hr.
    { unfold ratio. rewrite decide_True by lra.
      unfold Rmin, Rmax. destruct (Rle_dec _ _); lra. }
    rewrite Hr. split; [unfold ENTROPY_RATIO_LIMIT; lra|].
    cbn [write_edge xe_line_style]. unfold line_style_of. cbn [entropy_ratio].
    rewrite round_near_limit. rewrite decide_False; [done|].
    unfold ENTROPY_RATIO_LIMIT. lra.
Qed.

End NetworkFacts.

(** ** Seed location: claims C10 and C7 *)
Section SeedFacts.
Import FamilyCosine ExpansionSpec ExpansionExamples.
Local Open Scope R_scope.

(** The test of the loop body is [passes]. *)
Lemma passes_iff (target_mz target_rt : R) (s : Spectrum) :
  passes target_mz target_rt s ↔
  match precursor_mz (metadata s), retention_time (metadata s) with
  | Some curr_mz, Some curr_rt =>
      float_bool curr_mz && float_bool curr_rt = true ∧
      Rabs (curr_mz - target_mz) < 0.005 ∧ Rabs (curr_rt - target_rt) < 2.0
  | _, _ => False
  end.
Proof.
  unfold passes, float_bool.
  destruct (precursor_mz (metadata s)) as [m|], (retention_time (metadata s)) as [r|].
  - rewrite andb_true_iff, !bool_decide_eq_true. split.
    + intros (m' & r' & [= <-] & [= <-] & ?). tauto.
    + intros ?. exists m, r. tauto.
  - split; [by intros (? & ? & _ & [=] & _)|done].
  - split; [by intros (? & ? & [=] & _)|done].
  - split; [by intros (? & ? & [=] & _)|done].
Qed.

Lemma find_seed_enumerate_from (target_mz target_rt : R) (k : nat) (l : list Spectrum) :
  match find_seed target_mz target_rt (enumerate_from k l) with
  | Some (i, s) =>
      (k ≤ i)%nat ∧ l !! (i - k)%nat = Some s ∧ passes target_mz target_rt s ∧
      ∀ j s', (j < i - k)%nat → l !! j = Some s' → ¬ passes target_mz target_rt s'
  | None => ∀ j s', l !! j = Some s' → ¬ passes target_mz target_rt s'
  end.
Proof.
  revert k. induction l as [|s l IH]; intros k; cbn [enumerate_from find_seed].
  - by intros j s' ?.
  - pose proof (passes_iff target_mz target_rt s) as Hp.
    assert (¬ passes target_mz target_rt s →
            match find_seed target_mz target_rt (enumerate_from (S k) l) with
            | Some (i, s0) =>
                (k ≤ i)%nat ∧ (s :: l) !! (i - k)%nat = Some s0 ∧
                passes target_mz target_rt s0 ∧
                ∀ j s', (j < i - k)%nat → (s :: l) !! j = Some s' →
                        ¬ passes target_mz target_rt s'
            | None => ∀ j s', (s :: l) !! j = Some s' → ¬ passes target_mz target_rt s'
            end) as Hskip.
    { intros Hno. specialize (IH (S k)).
      destruct (find_seed target_mz target_rt (enumerate_from (S k) l)) as [[i s0]|].
      - destruct IH as (Hle & Hlook & Hpass & Hfirst).
        split; [lia|]. split; [by replace (i - k)%nat with (S (i - S k)) by lia|].
        split; [done|]. intros [|j] s' Hj Hs'.
        + by injection Hs' as <-.
        + apply (Hfirst j); [lia|done].
      - intros [|j] s' Hs'; [by injection Hs' as <-|by eapply IH]. }
    destruct (precursor_mz (metadata s)) as [m|], (retention_time (metadata s)) as [r|];
      try (apply Hskip; tauto).
    destruct (float_bool m && float_bool r) eqn:Hb; [|apply Hskip; rewrite Hp; by intros [? _]].
    destruct (decide _) as [Hw|Hw]; [|apply Hskip; tauto].
    rewrite Nat.sub_diag. split; [lia|]. split; [done|]. split; [tauto|].
    intros j s' Hj. lia.
Qed.

(** A spectrum with mass 0 and one without retention time are passed over,
    although both lie inside the window. *)
Lemma find_seed_example :
  find_seed 0.001 10 (enumerate [zero_mz; no_rt; eligible]) = Some (2%nat, eligible).
Proof.
  unfold enumerate, zero_mz, no_rt, eligible, spectrum_at.
  cbn [enumerate_from find_seed metadata precursor_mz retention_time].
  unfold float_bool.
  rewrite (bool_decide_eq_false_2 (0 ≠ 0)) by (intros H; by apply H).
  cbn [andb]. rewrite !bool_decide_eq_true_2 by lra. cbn [andb].
  rewrite decide_True; [done|].
  split; unfold Rabs; destruct (Rcase_abs _); lra.
Qed.

(** C10.  The seed search returns the first spectrum, in input order, whose
    precursor mass and retention time are both present and non-zero and lie
    strictly within 0.005 and 2.0 of the targets; a spectrum with a missing or
    zero value is never returned, wherever its other value lies. *)
Theorem find_seed_first_eligible (raw_spectrums : list Spectrum) (target_mz target_rt : R) :
  match find_seed target_mz target_rt (enumerate raw_spectrums) with
  | Some (i, s) =>
      raw_spectrums !! i = Some s ∧ passes target_mz target_rt s ∧
      (∀ j s', (j < i)%nat → raw_spectrums !! j = Some s' → ¬ passes target_mz target_rt s') ∧
      (∃ m r, precursor_mz (metadata s) = Some m ∧ retention_time (metadata s) = Some r ∧
              m ≠ 0 ∧ r ≠ 0 ∧ Rabs (m - target_mz) < 0.005 ∧ Rabs (r - target_rt) < 2.0)
  | None => ∀ j s', raw_spectrums !! j = Some s' → ¬ passes target_mz target_rt s'
  end ∧
  find_seed 0.001 10 (enumerate [zero_mz; no_rt; eligible]) = Some (2%nat, eligible).
Proof.
  split.
  - pose proof (find_seed_enumerate_from target_mz target_rt 0 raw_spectrums) as H.
    unfold enumerate.
    destruct (find_seed target_mz target_rt (enumerate_from 0 raw_spectrums)) as [[i s]|];
      [|done].
    rewrite Nat.sub_0_r in H. destruct H as (_ & Hlook & Hpass & Hfirst).
    split; [done|]. split; [done|]. split; [done|]. exact Hpass.
  - exact find_seed_example.
Qed.

(** Without an eligible spectrum the search finds nothing. *)
Lemma find_seed_None (raw_spectrums : list Spectrum) (target_mz target_rt : R) :
  (∀ j s, raw_spectrums !! j = Some s → ¬ passes target_mz target_rt s) →
  find_seed target_mz target_rt (enumerate raw_spectrums) = None.
Proof.
  intros Hnone.
  pose proof (find_seed_enumerate_from target_mz target_rt 0 raw_spectrums) as H.
  unfold enumerate.
  destruct (find_seed target_mz target_rt (enumerate_from 0 raw_spectrums)) as [[i s]|];
    [|done].
  rewrite Nat.sub_0_r in H. destruct H as (_ & Hlook & Hpass & _).
  by destruct (Hnone i s Hlook).
Qed.

Section Run.
Variable argsort : list R → list nat.
Variable normalize_intensities : Spectrum → Spectrum.
Variable CosineGreedy_pair : R → Spectrum → Spectrum → R.

Lemma run_without_seed (fuel : nat) (raw_spectrums : list Spectrum)
    (target_mz target_rt threshold : R) :
  (∀ j s, raw_spectrums !! j = Some s → ¬ passes target_mz target_rt s) →
  run_final_restoration_v2 argsort normalize_intensities CosineGreedy_pair
    fuel raw_spectrums target_mz target_rt threshold
  = Some {| stdout := [Loading; Searching target_mz target_rt; NotFound];
            written := None;
            outcome := Ok () |}.
Proof.
  intros Hnone. unfold run_final_restoration_v2.
  by rewrite find_seed_None.
Qed.

(** C7, as the code has it.  When no spectrum is eligible as seed, the run
    prints its not-found line and returns normally: nothing is raised, and
    the output file is not written. *)
Theorem no_seed_returns (fuel : nat) (raw_spectrums : list Spectrum)
    (target_mz target_rt threshold : R) :
  (∀ j s, raw_spectrums !! j = Some s → ¬ passes target_mz target_rt s) →
  run_final_restoration_v2 argsort normalize_intensities CosineGreedy_pair
    fuel raw_spectrums target_mz target_rt threshold
  = Some {| stdout := [Loading; Searching target_mz target_rt; NotFound];
            written := None;
            outcome := Ok () |}.
Proof. apply run_without_seed. Qed.

End Run.

Lemma far_away_not_passes : ¬ passes 289.25 1201.59 far_away.
Proof.
  rewrite passes_iff. unfold far_away, spectrum_at. cbn [metadata precursor_mz retention_time].
  intros (_ & Hmz & _). revert Hmz. unfold Rabs. destruct (Rcase_abs _); lra.
Qed.

Lemma no_seed_returns_witness :
  (∀ j s, [far_away] !! j = Some s → ¬ passes 289.25 1201.59 s) ∧
  run_final_restoration_v2 argsort_none normalize_id pair_one
    5 [far_away] 289.25 1201.59 0.7
  = Some {| stdout := [Loading; Searching 289.25 1201.59; NotFound];
            written := None;
            outcome := Ok () |}.
Proof.
  assert (∀ j s, [far_away] !! j = Some s → ¬ passes 289.25 1201.59 s) as H.
  { intros [|j] s Hs; [|done]. injection Hs as <-. exact far_away_not_passes. }
  split; [exact H|].
  exact (no_seed_returns argsort_none normalize_id pair_one
           5 [far_away] 289.25 1201.59 0.7 H).
Defined.

(** C7 as stated fails: on a collection without an eligible spectrum the
    call comes back with [Ok], the outcome of a normal return, and no error
    reaches the caller. *)
Lemma no_seed_counterexample :
  ∃ r, run_final_restoration_v2 argsort_none normalize_id pair_one
         5 [far_away] 289.25 1201.59 0.7 = Some r ∧
       outcome r = Ok () ∧ written r = None ∧ last (stdout r) = Some NotFound.
Proof.
  eexists. split.
  - apply run_without_seed. intros [|j] s Hs; [|done].
    injection Hs as <-. exact far_away_not_passes.
  - done.
Qed.

End SeedFacts.

(** ** Family expansion: claim C6 *)
Section ExpansionFacts.
Import FamilyCosine ExpansionSpec ExpansionExamples.
Local Open Scope R_scope.

Variable pair : R → Spectrum → Spectrum → R.
Variable P : list Spectrum.
Variable threshold : R.
Variable seed : nat.

Local Abbreviation E := (similar pair P threshold).
Local Abbreviation hit := (hitb pair P threshold).
Local Abbreviation new := (fresh pair P threshold).
Local Abbreviation explore_invariant := (ExpansionSpec.explore_invariant pair P threshold seed).

Lemma hit_similar (curr : nat) (c : Spectrum) (j : nat) :
  P !! curr = Some c → hit c j = true ↔ E curr j.
Proof.
  intros Hc. unfold hitb, similar. split.
  - destruct (P !! j) as [o|] eqn:Hj; [|done].
    intros Hb%bool_decide_eq_true. by exists c, o.
  - intros (a & b & Ha & -> & Hle). rewrite Hc in Ha. injection Ha as <-.
    by apply bool_decide_eq_true.
Qed.

Lemma hit_lt (c : Spectrum) (j : nat) : hit c j = true → (j < length P)%nat.
Proof.
  unfold hitb. destruct (P !! j) eqn:Hj; [|done]. intros _. by eapply lookup_lt_Some.
Qed.

Lemma fresh_add (k k' m : nat) (selected : gset nat) (c : Spectrum) :
  (k < k')%nat → new k' m ({[k]} ∪ selected) c = new k' m selected c.
Proof.
  intros Hlt. unfold fresh. revert k' Hlt.
  induction m as [|m IH]; intros k' Hlt; [done|].
  cbn [seq]. rewrite !filter_cons, IH by lia.
  destruct (decide ((k' ∉ selected) ∧ hit c k' = true)) as [[Hout Hh]|Hno].
  - rewrite decide_True; [done|]. split; [|done].
    rewrite elem_of_union, elem_of_singleton. intros [->|?]; [lia|done].
  - rewrite decide_False; [done|]. intros [Hout Hh]. apply Hno. split; [|done].
    set_solver.
Qed.

Lemma explore_body_selected (curr i : nat) (other : Spectrum)
    (selected : gset nat) (to_explore : list nat) :
  i ∈ selected →
  explore_body pair P threshold curr (selected, to_explore) (i, other)
  = Ok (selected, to_explore).
Proof. intros Hin. unfold explore_body. by rewrite decide_True. Qed.

Lemma explore_body_fresh (curr i : nat) (c other : Spectrum)
    (selected : gset nat) (to_explore : list nat) :
  i ∉ selected → P !! curr = Some c →
  explore_body pair P threshold curr (selected, to_explore) (i, other)
  = if decide (threshold <= pair 0.02 c other)
    then Ok ({[i]} ∪ selected, to_explore ++ [i])
    else Ok (selected, to_explore).
Proof. intros Hout Hc. unfold explore_body. rewrite decide_False by done. by rewrite Hc. Qed.

(** One scan, in closed form. *)
Lemma for_each_explore_body (curr : nat) (c : Spectrum) (l : list Spectrum)
    (k : nat) (selected : gset nat) (to_explore : list nat) :
  P !! curr = Some c → drop k P = l →
  for_each (explore_body pair P threshold curr) (enumerate_from k l) (selected, to_explore)
  = Ok (selected ∪ list_to_set (new k (length l) selected c),
        to_explore ++ new k (length l) selected c).
Proof.
  intros Hc. revert k selected to_explore.
  induction l as [|o l IH]; intros k selected to_explore Hdrop.
  - cbn [enumerate_from for_each length]. unfold fresh. cbn [seq].
    rewrite filter_nil, list_to_set_nil, app_nil_r. by rewrite (right_id_L ∅ (∪)).
  - assert (P !! k = Some o) as Hk.
    { rewrite <- (Nat.add_0_r k), <- lookup_drop, Hdrop. done. }
    assert (drop (S k) P = l) as Hdrop'.
    { rewrite (drop_S _ _ _ Hk) in Hdrop. by injection Hdrop. }
    cbn [enumerate_from for_each length]. unfold fresh.
    cbn [seq]. rewrite filter_cons. fold (new (S k) (length l) selected c).
    destruct (decide (k ∈ selected)) as [Hin|Hout].
    + rewrite explore_body_selected by done.
      cbn [mbind result_bind]. rewrite IH by done.
      rewrite decide_False; [done|]. by intros [? _].
    + rewrite (explore_body_fresh _ _ c) by done.
      assert (hit c k = true ↔ threshold <= pair 0.02 c o) as Hh.
      { unfold hitb. rewrite Hk. apply bool_decide_eq_true. }
      destruct (decide (threshold <= pair 0.02 c o)) as [Hle|Hgt].
      * cbn [mbind result_bind]. rewrite IH by done. rewrite fresh_add by lia.
        rewrite decide_True by tauto.
        rewrite list_to_set_cons, <- app_assoc.
        by rewrite (assoc_L (∪)), (comm_L (∪) selected {[k]}).
      * cbn [mbind result_bind]. rewrite IH by done.
        rewrite decide_False by tauto. done.
Qed.

Lemma explore_step_eq (selected : gset nat) (curr : nat) (rest : list nat)
    (c : Spectrum) :
  P !! curr = Some c →
  explore_step pair P threshold selected curr rest
  = Ok (selected ∪ list_to_set (new 0 (length P) selected c),
        rest ++ new 0 (length P) selected c).
Proof. intros Hc. unfold explore_step, enumerate. by apply for_each_explore_body. Qed.

Lemma elem_of_fresh (selected : gset nat) (c : Spectrum) (i : nat) :
  i ∈ new 0 (length P) selected c ↔ (i ∉ selected) ∧ hit c i = true.
Proof.
  unfold fresh. rewrite list_elem_of_filter, elem_of_seq. split; [tauto|].
  intros [Hout Hh]. pose proof (hit_lt _ _ Hh). split; [done|lia].
Qed.

(** A scan never removes a position. *)
Lemma explore_body_mono (curr : nat) (st st' : gset nat * list nat) (io : nat * Spectrum) :
  explore_body pair P threshold curr st io = Ok st' → st.1 ⊆ st'.1.
Proof.
  destruct st as [sel q], io as [i other]. unfold explore_body.
  destruct (decide (i ∈ sel)); [by intros [= <-]|].
  destruct (P !! curr); [|done].
  destruct (decide _); intros [= <-]; cbn [fst]; set_solver.
Qed.

Lemma explore_step_mono (selected : gset nat) (curr : nat) (rest : list nat)
    (selected' : gset nat) (to_explore' : list nat) :
  explore_step pair P threshold selected curr rest = Ok (selected', to_explore') →
  selected ⊆ selected'.
Proof.
  unfold explore_step. generalize (enumerate P). intros l. revert selected rest.
  induction l as [|io l IH]; intros selected rest; cbn [for_each].
  - by intros [= <- _].
  - destruct (explore_body pair P threshold curr (selected, rest) io) as [[s1 q1]|e] eqn:Hb;
      [|done].
    cbn [mbind result_bind]. intros Hrest.
    apply explore_body_mono in Hb. apply IH in Hrest. cbn [fst] in Hb. set_solver.
Qed.

(** Counting: what a scan adds leaves the unvisited. *)
Lemma length_filter_split {A : Type} (Q1 Q2 : A → Prop)
    `{!∀ x, Decision (Q1 x)} `{!∀ x, Decision (Q2 x)} (l : list A) :
  (length (filter (λ x, Q1 x ∧ ¬ Q2 x) l) + length (filter (λ x, Q1 x ∧ Q2 x) l)
   = length (filter Q1 l))%nat.
Proof.
  induction l as [|x l IH]; [done|].
  rewrite !filter_cons.
  destruct (decide (Q1 x)) as [H1|H1], (decide (Q2 x)) as [H2|H2].
  - rewrite decide_False by tauto. rewrite decide_True by tauto. simpl. lia.
  - rewrite decide_True by tauto. rewrite decide_False by tauto. simpl. lia.
  - rewrite !decide_False by tauto. done.
  - rewrite !decide_False by tauto. done.
Qed.

Lemma unvisited_step (selected : gset nat) (c : Spectrum) :
  (unvisited (length P) (selected ∪ list_to_set (new 0 (length P) selected c))
   + length (new 0 (length P) selected c)
   = unvisited (length P) selected)%nat.
Proof.
  unfold unvisited.
  rewrite <- (length_filter_split (λ i, i ∉ selected) (λ i, hit c i = true)).
  f_equal. f_equal. apply list_filter_iff. intros i.
  rewrite elem_of_union, elem_of_list_to_set, elem_of_fresh. tauto.
Qed.


Lemma explore_invariant_step (selected : gset nat) (curr : nat) (rest : list nat)
    (c : Spectrum) :
  P !! curr = Some c → explore_invariant selected (curr :: rest) →
  explore_invariant (selected ∪ list_to_set (new 0 (length P) selected c))
                    (rest ++ new 0 (length P) selected c).
Proof.
  intros Hc (Hreach & Hqueue & Hrange & Hclosed).
  assert (curr ∈ selected) as Hcurr by (apply Hqueue, list_elem_of_here).
  split; [|split; [|split]].
  - intros i [Hi|Hi%elem_of_list_to_set%elem_of_fresh]%elem_of_union; [by apply Hreach|].
    destruct Hi as [_ Hh]. eapply rtc_r; [by apply Hreach|]. by apply (hit_similar curr c).
  - intros i [Hi|Hi]%elem_of_app.
    + apply elem_of_union. left. by apply Hqueue, list_elem_of_further.
    + apply elem_of_union. right. by apply elem_of_list_to_set.
  - intros i [Hi|Hi%elem_of_list_to_set%elem_of_fresh]%elem_of_union; [by apply Hrange|].
    destruct Hi as [_ Hh]. by eapply hit_lt.
  - intros i j Hi Hout Hij. rewrite elem_of_app in Hout.
    apply elem_of_union in Hi as [Hi|Hi%elem_of_list_to_set]; [|tauto].
    destruct (decide (i = curr)) as [->|Hne].
    + apply (hit_similar curr c) in Hij; [|done].
      destruct (decide (j ∈ selected)) as [Hj|Hj]; apply elem_of_union; [by left|].
      right. by apply elem_of_list_to_set, elem_of_fresh.
    + apply elem_of_union. left. apply (Hclosed i j); [done| |done].
      rewrite elem_of_cons. tauto.
Qed.

(** The loop finishes within its fuel and keeps the invariant. *)
Lemma explore_terminates (fuel : nat) (selected : gset nat) (to_explore : list nat) :
  explore_invariant selected to_explore →
  (length to_explore + unvisited (length P) selected < fuel)%nat →
  ∃ selected', explore pair P threshold fuel selected to_explore = Some (Ok selected') ∧
               selected ⊆ selected' ∧ explore_invariant selected' [].
Proof.
  revert selected to_explore.
  induction fuel as [|fuel IH]; intros selected to_explore Hinv Hfuel; [lia|].
  destruct to_explore as [|curr rest].
  - exists selected. by split.
  - assert (curr ∈ selected) as Hcurr by (apply Hinv, list_elem_of_here).
    destruct (lookup_lt_is_Some_2 P curr) as [c Hc]; [by apply Hinv|].
    cbn [explore]. rewrite (explore_step_eq _ _ _ c) by done.
    pose proof (unvisited_step selected c) as Hcount.
    destruct (IH _ _ (explore_invariant_step _ _ _ _ Hc Hinv)) as (sel' & Hrun & Hsub & Hinv').
    { rewrite length_app. cbn [length] in Hfuel. lia. }
    exists sel'. split; [done|]. split; [set_solver|done].
Qed.

(** Under a symmetric scorer the chains may be read in either direction. *)
Lemma rtsc_similar (i j : nat) :
  (∀ a b, pair 0.02 a b = pair 0.02 b a) → rtsc E i j ↔ rtc E i j.
Proof.
  intros Hsym. split; [|apply rtc_rtsc_rl].
  induction 1 as [|x y z Hxy _ IH]; [apply rtc_refl|].
  eapply rtc_l; [|exact IH].
  destruct Hxy as [Hxy|(a & b & Ha & Hb & Hle)]; [done|].
  exists b, a. rewrite Hsym. done.
Qed.

(** From the seed alone, the loop returns the positions reachable from it. *)
Lemma explore_reachable (fuel : nat) :
  (seed < length P)%nat → (length P < fuel)%nat →
  ∃ selected, explore pair P threshold fuel {[seed]} [seed] = Some (Ok selected) ∧
              ∀ i, i ∈ selected ↔ rtc E seed i.
Proof.
  intros Hseed Hfuel.
  destruct (explore_terminates fuel {[seed]} [seed]) as (sel & Hrun & Hsub & Hinv).
  - split; [|split; [|split]].
    + intros i ->%elem_of_singleton. apply rtc_refl.
    + intros i ->%list_elem_of_singleton. by apply elem_of_singleton.
    + by intros i ->%elem_of_singleton.
    + intros i j ->%elem_of_singleton Hout. destruct Hout. apply list_elem_of_here.
  - assert (unvisited (length P) {[seed]} < length (seq 0 (length P)))%nat as Hlt.
    { unfold unvisited. apply (length_filter_lt _ _ seed).
      - apply elem_of_seq. lia.
      - intros Hout. apply Hout. by apply elem_of_singleton. }
    rewrite length_seq in Hlt. cbn [length]. lia.
  - exists sel. split; [done|]. intros i. split; [apply Hinv|].
    destruct Hinv as (_ & _ & _ & Hclosed).
    revert i. apply (rtc_ind_r (λ i, i ∈ sel)).
    + apply Hsub. by apply elem_of_singleton.
    + intros y z Hy Hyz IHy. apply (Hclosed y z); [done|apply not_elem_of_nil|done].
Qed.

End ExpansionFacts.

Section ExpansionClaim.
Import FamilyCosine ExpansionSpec ExpansionExamples.
Local Open Scope R_scope.

Variable argsort : list R → list nat.
Variable normalize_intensities : Spectrum → Spectrum.
Variable CosineGreedy_pair : R → Spectrum → Spectrum → R.

Local Abbreviation processed raw := (preprocess argsort normalize_intensities raw).

Lemma find_seed_lookup (raw_spectrums : list Spectrum) (target_mz target_rt : R)
    (seed : nat) (s : Spectrum) :
  find_seed target_mz target_rt (enumerate raw_spectrums) = Some (seed, s) →
  raw_spectrums !! seed = Some s.
Proof.
  intros Hfind.
  pose proof (find_seed_enumerate_from target_mz target_rt 0 raw_spectrums) as H.
  unfold enumerate in Hfind. rewrite Hfind, Nat.sub_0_r in H. tauto.
Qed.

(** C6.  Once a seed is found (and its title can be printed), the loop ends
    within [length raw + 1] turns, the run returns normally, and the spectra
    it saves are those at the positions linked to the seed by a chain of
    scores at or above the threshold, each score taken from a selected
    spectrum to the next (in either direction when the scorer is symmetric);
    no turn of the loop removes a position. *)
Theorem expansion_closure (fuel : nat) (raw_spectrums : list Spectrum)
    (target_mz target_rt threshold : R) (seed : nat) (s : Spectrum) (t : string) :
  find_seed target_mz target_rt (enumerate raw_spectrums) = Some (seed, s) →
  title (metadata s) = Some t →
  (length raw_spectrums < fuel)%nat →
  ∃ selected,
    explore CosineGreedy_pair (processed raw_spectrums) threshold fuel {[seed]} [seed]
    = Some (Ok selected) ∧
    (∃ out, run_final_restoration_v2 argsort normalize_intensities CosineGreedy_pair
              fuel raw_spectrums target_mz target_rt threshold
            = Some {| stdout := out;
                      written := Some (omap (λ i, processed raw_spectrums !! i)
                                            (elements selected));
                      outcome := Ok () |}) ∧
    (∀ i, i ∈ selected ↔
          rtc (similar CosineGreedy_pair (processed raw_spectrums) threshold) seed i) ∧
    ((∀ a b, CosineGreedy_pair 0.02 a b = CosineGreedy_pair 0.02 b a) →
     ∀ i, i ∈ selected ↔
          rtsc (similar CosineGreedy_pair (processed raw_spectrums) threshold) seed i) ∧
    (∀ sel curr rest sel' queue',
       explore_step CosineGreedy_pair (processed raw_spectrums) threshold sel curr rest
       = Ok (sel', queue') → sel ⊆ sel').
Proof.
  intros Hfind Htitle Hfuel.
  assert (length (processed raw_spectrums) = length raw_spectrums) as Hlen
    by apply length_map.
  assert (seed < length (processed raw_spectrums))%nat as Hseed.
  { rewrite Hlen. eapply lookup_lt_Some, find_seed_lookup, Hfind. }
  destruct (explore_reachable CosineGreedy_pair (processed raw_spectrums) threshold seed fuel)
    as (selected & Hrun & Hreach); [done|lia|].
  exists selected. split; [done|]. split; [|split; [done|split]].
  - unfold run_final_restoration_v2. rewrite Hfind, Htitle, Hrun. by eexists.
  - intros Hsym i. rewrite Hreach. symmetry. by apply rtsc_similar.
  - intros sel curr rest sel' queue'. apply explore_step_mono.
Qed.

End ExpansionClaim.

Section ExpansionWitness.
Import FamilyCosine ExpansionSpec ExpansionExamples.
Local Open Scope R_scope.

Lemma expansion_closure_witness :
  find_seed 0.001 10 (enumerate [zero_mz; no_rt; eligible]) = Some (2%nat, eligible) ∧
  title (metadata eligible) = Some "seed" ∧
  (length [zero_mz; no_rt; eligible] < 4)%nat ∧
  ∃ selected,
    explore pair_one (preprocess argsort_none normalize_id [zero_mz; no_rt; eligible])
      0.7 4 {[2%nat]} [2%nat]
    = Some (Ok selected) ∧
    (∃ out, run_final_restoration_v2 argsort_none normalize_id pair_one
              4 [zero_mz; no_rt; eligible] 0.001 10 0.7
            = Some {| stdout := out;
                      written :=
                        Some (omap (λ i, preprocess argsort_none normalize_id
                                           [zero_mz; no_rt; eligible] !! i)
                                   (elements selected));
                      outcome := Ok () |}) ∧
    (∀ i, i ∈ selected ↔
          rtc (similar pair_one
                 (preprocess argsort_none normalize_id [zero_mz; no_rt; eligible]) 0.7)
              2%nat i) ∧
    ((∀ a b, pair_one 0.02 a b = pair_one 0.02 b a) →
     ∀ i, i ∈ selected ↔
          rtsc (similar pair_one
                  (preprocess argsort_none normalize_id [zero_mz; no_rt; eligible]) 0.7)
               2%nat i) ∧
    (∀ sel curr rest sel' queue',
       explore_step pair_one
         (preprocess argsort_none normalize_id [zero_mz; no_rt; eligible]) 0.7 sel curr rest
       = Ok (sel', queue') → sel ⊆ sel').
Proof.
  split; [exact find_seed_example|]. split; [reflexivity|]. split; [simpl; lia|].
  apply (expansion_closure argsort_none normalize_id pair_one 4
           [zero_mz; no_rt; eligible] 0.001 10 0.7 2 eligible "seed").
  - exact find_seed_example.
  - reflexivity.
  - simpl. lia.
Defined.

End ExpansionWitness.

(** * Further properties *)

(** ** The scorer on disjoint masses *)
Section ScorerMoreFacts.
Import SkeletonSim ScorerSpec ScorerMore.
Local Open Scope R_scope.

Lemma score_le_1 (peaks1 peaks2 : dict) : score peaks1 peaks2 <= 1.
Proof.
  unfold score. destruct (decide _) as [[H1 H2]|_]; [|lra].
  pose proof (l2norm_nonneg peaks1). pose proof (l2norm_nonneg peaks2).
  assert (0 < l2norm peaks1 * l2norm peaks2) as Hden by (apply Rmult_lt_0_compat; lra).
  pose proof (greedy_dot_le peaks1 peaks2).
  pose proof (Rinv_0_lt_compat _ Hden) as Hinv. unfold Rdiv.
  rewrite <- (Rinv_r (l2norm peaks1 * l2norm peaks2)) by lra.
  apply Rmult_le_compat_r; lra.
Qed.

Lemma take_first_apart (mz : R) (l : list (R * R)) :
  Forall (λ q, ¬ within mz q.1) l → take_first mz l = None.
Proof.
  induction 1 as [|q l Hq Hl IH]; [done|].
  cbn [take_first]. rewrite decide_False by done. by rewrite IH.
Qed.

Lemma greedy_dot_apart (peaks1 peaks2 : list (R * R)) :
  apart peaks1 peaks2 → greedy_dot peaks1 peaks2 = 0.
Proof.
  unfold apart. induction 1 as [|[mz1 int1] peaks1 Hp Hrest IH]; [done|].
  cbn [greedy_dot]. by rewrite take_first_apart.
Qed.

Lemma score_apart (peaks1 peaks2 : dict) : apart peaks1 peaks2 → score peaks1 peaks2 = 0.
Proof.
  intros Hap. unfold score. rewrite greedy_dot_apart by done.
  destruct (decide _); [|done]. unfold Rdiv. lra.
Qed.




End ScorerMoreFacts.

(** ** The entropy: upper bound *)
Section EntropyMoreFacts.
Import SkeletonSim EntropySpec.
Local Open Scope R_scope.

Lemma np_sum_affine (a b : R) (l : list R) :
  np_sum (map (λ q, q * a - b) l) = a * np_sum l - b * INR (length l).
Proof.
  induction l as [|x l IH]; [cbn; lra|].
  cbn [map]. rewrite !np_sum_cons, IH. rewrite length_cons, S_INR. lra.
Qed.

Lemma shannon_term_lower (n q : R) :
  0 < n → 0 < q → q * (1 - ln n) - / n <= q * ln (q + 1e-12).
Proof.
  intros Hn Hq.
  assert (0 < n * q) as Hnq by (by apply Rmult_lt_0_compat).
  pose proof (ln_le_sub1 (/ (n * q)) (Rinv_0_lt_compat _ Hnq)) as H.
  rewrite ln_Rinv, ln_mult in H by done.
  assert (ln q < ln (q + 1e-12)) as Hinc by (apply ln_increasing; lra).
  assert (q * / (n * q) = / n) as Hinv by (field; lra).
  assert (q * (1 - ln n) - / n <= q * ln q) as Hlow.
  { rewrite <- Hinv. assert (0 <= q * (/ (n * q) - 1 + ln n + ln q)); [|lra].
    apply Rmult_le_pos; lra. }
  assert (q * ln q <= q * ln (q + 1e-12)) by (apply Rmult_le_compat_l; lra).
  lra.
Qed.

Lemma shannon_eps_upper (prob : list R) :
  Forall (λ q, 0 < q) prob → np_sum prob = 1 → prob ≠ [] →
  shannon_eps prob <= ln (INR (length prob)).
Proof.
  intros Hpos Hsum Hne. unfold shannon_eps.
  assert (0 < INR (length prob)) as Hn.
  { apply lt_0_INR. destruct prob; [done|simpl; lia]. }
  assert (np_sum (map (λ q, q * (1 - ln (INR (length prob))) - / INR (length prob)) prob)
          <= np_sum (map (λ q, q * ln (q + 1e-12)) prob)) as Hle.
  { apply np_sum_le. eapply Forall_impl; [exact Hpos|]. intros q Hq. cbv beta.
    by apply shannon_term_lower. }
  rewrite np_sum_affine, Hsum in Hle. rewrite Rinv_l in Hle by lra. lra.
Qed.

Lemma np_sum_pos (l : list R) : Forall (λ y, 0 < y) l → l ≠ [] → 0 < np_sum l.
Proof.
  intros Hpos Hne. destruct l as [|x l]; [done|].
  pose proof (np_sum_elem_le (x :: l) x Hpos (list_elem_of_here x l)).
  apply Forall_cons in Hpos as [Hx _]. lra.
Qed.

Lemma length_normalized (p : list R) : length (normalized p) = length p.
Proof. unfold normalized. apply length_map. Qed.

(** X4.  The entropy never exceeds the logarithm of the number of peaks with
    positive intensity. *)
Theorem calculate_spectral_entropy_upper (d : dict) :
  calculate_spectral_entropy d
  <= ln (INR (Nat.max 1 (length (positive_intensities d)))).
Proof.
  rewrite calculate_spectral_entropy_eq.
  destruct (decide _) as [Hle|Hlen].
  - rewrite Nat.max_l by lia. cbn [INR]. rewrite ln_1. lra.
  - rewrite Nat.max_r by lia.
    pose proof (positive_intensities_pos d) as Hpos.
    assert (positive_intensities d ≠ []) as Hne.
    { intros E. rewrite E in Hlen. simpl in Hlen. lia. }
    rewrite <- length_normalized. apply shannon_eps_upper.
    + eapply Forall_impl; [exact (normalized_range _ Hpos)|]. intros q [Hq _]. exact Hq.
    + apply normalized_sum. by apply np_sum_pos.
    + intros E. apply (f_equal length) in E. rewrite length_normalized in E.
      destruct (positive_intensities d); [done|simpl in E; lia].
Qed.

End EntropyMoreFacts.

(** ** The network: what the edges and nodes carry *)
Section NetworkMoreFacts.
Import SkeletonSim ScorerSpec NetworkSpec ScorerMore NetworkMore.
Local Open Scope R_scope.

Lemma round_lower (x : R) (a : Z) : IZR a <= x * 10 ^ 4 → IZR a / 10 ^ 4 <= round x 4.
Proof.
  intros Hx. unfold round. pose proof (round_half_even_lower _ _ Hx) as H0.
  apply IZR_le in H0.
  assert (0 < / 10 ^ 4) by (apply Rinv_0_lt_compat; lra).
  unfold Rdiv. apply Rmult_le_compat_r; lra.
Qed.

Lemma round_upper (x : R) (b : Z) : x * 10 ^ 4 <= IZR b → round x 4 <= IZR b / 10 ^ 4.
Proof.
  intros Hx. unfold round.
  assert (round_half_even (x * 10 ^ 4) ≤ b)%Z as H1.
  { pose proof (Zfloor_bound (x * 10 ^ 4)) as [Hf1 Hf2].
    assert (Zfloor (x * 10 ^ 4) ≤ b)%Z as Hfb by (apply le_IZR; lra).
    assert (1 / 2 <= x * 10 ^ 4 - IZR (Zfloor (x * 10 ^ 4)) →
            (Zfloor (x * 10 ^ 4) + 1 ≤ b)%Z) as Hup.
    { intros Hd. assert (Zfloor (x * 10 ^ 4) < b)%Z; [|lia]. apply lt_IZR. lra. }
    unfold round_half_even.
    destruct (decide (x * 10 ^ 4 - IZR (Zfloor (x * 10 ^ 4)) < 1 / 2)); [lia|].
    destruct (decide (1 / 2 < x * 10 ^ 4 - IZR (Zfloor (x * 10 ^ 4)))); [apply Hup; lra|].
    destruct (Z.even (Zfloor (x * 10 ^ 4))); [lia|]. apply Hup; lra. }
  apply IZR_le in H1.
  assert (0 < / 10 ^ 4) by (apply Rinv_0_lt_compat; lra).
  unfold Rdiv. apply Rmult_le_compat_r; lra.
Qed.

Lemma edge_of_in_range (d1 d2 : Node) (e : Edge) (i : nat) :
  edge_of d1 d2 = Some e →
  edge_in_range (write_edge (i, e)) ∧ xe_cosine_similarity (write_edge (i, e)) <= 1.
Proof.
  unfold edge_of. destruct (decide _) as [Hq|]; [|done]. intros [= <-].
  unfold edge_in_range.
  cbn [write_edge xe_cosine_similarity xe_entropy_ratio xe_line_style similarity
       entropy_ratio].
  pose proof (score_le_1 (peaks d1) (peaks d2)) as Hs1.
  pose proof (ratio_range (entropy d1) (entropy d2)) as Hr.
  unfold SIM_THRESHOLD in *. split; [split; [|split]|].
  - pose proof (round_lower (score (peaks d1) (peaks d2)) 9000) as H. lra.
  - apply round_unit_interval. lra.
  - unfold line_style_of. destruct (decide _); [by left|by right].
  - pose proof (round_upper (score (peaks d1) (peaks d2)) 10000) as H. lra.
Qed.

Lemma elem_of_edges_of (pairs : list ((nat * Node) * (nat * Node))) (e : Edge) :
  e ∈ edges_of pairs → ∃ pr, pr ∈ pairs ∧ edge_of pr.1.2 pr.2.2 = Some e.
Proof.
  unfold edges_of. intros (pr & Hin & He)%list_elem_of_omap. by exists pr.
Qed.

Lemma xe_id_write_edge (k : nat) (edges : list Edge) :
  map xe_id (map write_edge (enumerate_from k edges)) = seq k (length edges).
Proof.
  revert k. induction edges as [|e edges IH]; intros k; [done|].
  cbn [enumerate_from map length seq]. by rewrite IH.
Qed.

Lemma write_edge_in_range (pairs : list ((nat * Node) * (nat * Node))) :
  Forall (λ e, edge_in_range e ∧ xe_cosine_similarity e <= 1)
         (map write_edge (enumerate (edges_of pairs))).
Proof.
  apply Forall_forall. intros x ([i e] & -> & Hin)%list_elem_of_fmap.
  apply elem_of_enumerate_from in Hin as [_ Hlook].
  apply list_elem_of_lookup_2, elem_of_edges_of in Hlook as (pr & _ & He).
  by eapply edge_of_in_range.
Qed.

(** X7.  In the document written, every edge carries a cosine similarity of
    at least the threshold 0.9, an entropy ratio between 0 and 1 and the
    line style dash or solid, and the edges are numbered 0, 1, 2, ... in the
    order written.  For intensities of moderate size, whose squares neither
    underflow nor overflow, the cosine similarity written is at most 1. *)
Theorem written_edges_in_range (entries : list Entry) (doc : Xgmml) :
  run_similarity_network_pipeline entries = Ok doc →
  Forall edge_in_range (xg_edges doc) ∧
  map xe_id (xg_edges doc) = seq 0 (length (xg_edges doc)) ∧
  (Forall (λ e, moderate (entry_peaks e)) entries →
   Forall (λ e, xe_cosine_similarity e <= 1) (xg_edges doc)).
Proof.
  destruct (decide (Forall printable entries)) as [Hp|Hp].
  2:{ by rewrite run_similarity_network_pipeline_raise. }
  rewrite run_similarity_network_pipeline_eq by done. intros [= <-].
  cbn [xg_edges save_cytoscape_xgmml].
  pose proof (write_edge_in_range (scored_pairs entries)) as Hall.
  split; [|split].
  - eapply Forall_impl; [exact Hall|]. by intros e [He _].
  - unfold enumerate. rewrite xe_id_write_edge.
    by rewrite length_map, length_enumerate_from.
  - intros _. eapply Forall_impl; [exact Hall|]. by intros e [_ He].
Qed.

Lemma written_edges_in_range_witness :
  ∃ doc, run_similarity_network_pipeline [entry_X; entry_Y] = Ok doc ∧
    Forall edge_in_range (xg_edges doc) ∧
    map xe_id (xg_edges doc) = seq 0 (length (xg_edges doc)) ∧
    Forall (λ e, moderate (entry_peaks e)) [entry_X; entry_Y] ∧
    Forall (λ e, xe_cosine_similarity e <= 1) (xg_edges doc).
Proof.
  pose proof (run_similarity_network_pipeline_eq [entry_X; entry_Y] printable_entry_XY)
    as Hrun.
  eexists. split; [exact Hrun|].
  destruct (written_edges_in_range [entry_X; entry_Y] _ Hrun) as (H1 & H2 & H3).
  split; [exact H1|]. split; [exact H2|]. split; [exact moderate_entry_XY|].
  exact (H3 moderate_entry_XY).
Defined.

(** X8.  A pair of spectra with no two masses within the tolerance of each
    other adds no edge. *)
Theorem score_pair_apart (edges : list Edge) (i j : nat) (d1 d2 : Node) :
  wf (peaks d2) → apart (peaks d1) (peaks d2) →
  score_pair edges ((i, d1), (j, d2)) = Ok edges.
Proof.
  intros Hwf Hap. rewrite score_pair_edge_of by done.
  unfold edge_of. rewrite score_apart by done.
  rewrite decide_False by (unfold SIM_THRESHOLD; lra).
  cbn [option_list]. by rewrite app_nil_r.
Qed.

Lemma single_peaks_apart : apart [(100, 1)] [(300, 1)].
Proof.
  unfold apart. repeat (apply Forall_cons; split); try apply Forall_nil; try exact I.
  cbn [fst]. solve_within.
Qed.

Lemma single_peak_300_wf : wf [(300, 1)].
Proof. solve_wf. Qed.

Lemma score_pair_apart_witness :
  wf [(300, 1)] ∧ apart [(100, 1)] [(300, 1)] ∧
  score_pair [] ((0%nat, node_with_entropy 1),
                 (1%nat, {| id := {| id_pepmass := 0; id_rt := 0 |};
                            peaks := [(300, 1)]; entropy := 0; pepmass := 0;
                            retention_time := 0 |}))
  = Ok [].
Proof.
  split; [exact single_peak_300_wf|]. split; [exact single_peaks_apart|].
  exact (score_pair_apart [] 0 1 (node_with_entropy 1)
           {| id := {| id_pepmass := 0; id_rt := 0 |};
              peaks := [(300, 1)]; entropy := 0; pepmass := 0; retention_time := 0 |}
           single_peak_300_wf single_peaks_apart).
Defined.

Lemma round_one : round 1 4 = 1.
Proof.
  pose proof (round_lower 1 10000). pose proof (round_upper 1 10000). lra.
Qed.

Lemma ratio_diag (e : R) : ratio e e = 1.
Proof.
  unfold ratio. destruct (decide _) as [[He _]|]; [|done].
  rewrite Rmin_left, Rmax_left by lra. apply Rdiv_diag. lra.
Qed.

(** X9.  Two entries with the same peak list, of intensities of moderate
    size and not all zero, and with identifiers that read back, are always
    joined: the pair yields one edge, from the first identifier to the
    second, with similarity 1 after rounding to four decimals, entropy ratio
    1 and style solid, and the pipeline run on the two entries writes that
    edge and no other. *)
Theorem score_pair_same_peaks (edges : list Edge) (i j : nat) (e1 e2 : Entry) :
  entry_peaks e1 = entry_peaks e2 →
  moderate (entry_peaks e1) →
  l2norm (dict_of_items (entry_peaks e1)) ≠ 0 →
  printable e1 → printable e2 →
  (∃ e, score_pair edges ((i, process_entry e1), (j, process_entry e2)) = Ok (edges ++ [e]) ∧
        source e = generate_spectrum_id e1 ∧ target e = generate_spectrum_id e2 ∧
        similarity e = 1 ∧ entropy_ratio e = 1 ∧ line_style_of e = "solid") ∧
  ∃ doc, run_similarity_network_pipeline [e1; e2] = Ok doc ∧
         xg_nodes doc = [written_node e1; written_node e2] ∧
         xg_edges doc = [{| xe_id := 0;
                            xe_source := generate_spectrum_id e1;
                            xe_target := generate_spectrum_id e2;
                            xe_cosine_similarity := 1;
                            xe_entropy_ratio := 1;
                            xe_line_style := "solid" |}].
Proof.
  intros Hsame _ Hnz Hp1 Hp2.
  assert (edge_of (process_entry e1) (process_entry e2)
          = Some {| source := generate_spectrum_id e1; target := generate_spectrum_id e2;
                    similarity := 1; entropy_ratio := 1 |}) as Hedge.
  { unfold edge_of, process_entry. cbn [peaks entropy id]. rewrite <- Hsame.
    rewrite score_self by done. rewrite ratio_diag, round_one.
    by rewrite decide_True by (unfold SIM_THRESHOLD; lra). }
  assert (line_style_of {| source := generate_spectrum_id e1;
                           target := generate_spectrum_id e2;
                           similarity := 1; entropy_ratio := 1 |} = "solid") as Hstyle.
  { unfold line_style_of. cbn [entropy_ratio].
    rewrite decide_False; [done|]. unfold ENTROPY_RATIO_LIMIT. lra. }
  split.
  - rewrite score_pair_edge_of by apply wf_dict_of_items. rewrite Hedge.
    eexists. split; [done|]. cbn [source target similarity entropy_ratio].
    by do 4 (split; [done|]).
  - rewrite run_similarity_network_pipeline_eq
      by (repeat (apply Forall_cons; split); [done|done|apply Forall_nil; exact I]).
    eexists. split; [done|].
    unfold scored_pairs, processed_data, enumerate.
    cbn [map enumerate_from combinations2 app edges_of omap list_omap fst snd].
    rewrite Hedge.
    cbn [option_list save_cytoscape_xgmml xg_nodes xg_edges enumerate enumerate_from
         map write_edge app]. split; [done|].
    unfold enumerate. cbn [enumerate_from map write_edge source target similarity
                           entropy_ratio].
    by rewrite Hstyle.
Qed.

Lemma entry_X_norm : l2norm (dict_of_items (entry_peaks entry_X)) ≠ 0.
Proof.
  unfold entry_X. cbn [entry_peaks]. rewrite dict_of_two_items by lra.
  apply l2norm_pos. rewrite !sumsq_cons, sumsq_nil. cbn [snd]. lra.
Qed.

Lemma entry_X_moderate : moderate (entry_peaks entry_X).
Proof.
  pose proof moderate_entry_XY as H. by apply Forall_cons in H as [H _].
Qed.

Lemma entry_X_printable : printable entry_X.
Proof.
  pose proof printable_entry_XY as H. by apply Forall_cons in H as [H _].
Qed.

Lemma entry_Z_printable : printable entry_Z.
Proof. split; [cbn; lra|apply round_half_even_lower; cbn; lra]. Qed.

Lemma score_pair_same_peaks_witness :
  entry_peaks entry_X = entry_peaks entry_Z ∧
  moderate (entry_peaks entry_X) ∧
  l2norm (dict_of_items (entry_peaks entry_X)) ≠ 0 ∧
  printable entry_X ∧ printable entry_Z ∧
  (∃ e, score_pair [] ((0%nat, process_entry entry_X), (1%nat, process_entry entry_Z))
        = Ok ([] ++ [e]) ∧
        source e = generate_spectrum_id entry_X ∧ target e = generate_spectrum_id entry_Z ∧
        similarity e = 1 ∧ entropy_ratio e = 1 ∧ line_style_of e = "solid") ∧
  ∃ doc, run_similarity_network_pipeline [entry_X; entry_Z] = Ok doc ∧
         xg_nodes doc = [written_node entry_X; written_node entry_Z] ∧
         xg_edges doc = [{| xe_id := 0;
                            xe_source := generate_spectrum_id entry_X;
                            xe_target := generate_spectrum_id entry_Z;
                            xe_cosine_similarity := 1;
                            xe_entropy_ratio := 1;
                            xe_line_style := "solid" |}].
Proof.
  split; [reflexivity|]. split; [exact entry_X_moderate|]. split; [exact entry_X_norm|].
  split; [exact entry_X_printable|]. split; [exact entry_Z_printable|].
  exact (score_pair_same_peaks [] 0 1 entry_X entry_Z eq_refl entry_X_moderate
           entry_X_norm entry_X_printable entry_Z_printable).
Defined.

End NetworkMoreFacts.

(** ** The peaks and attributes of a node *)
Section NodeFacts.
Import SkeletonSim ScorerSpec NetworkSpec NetworkMore.
Local Open Scope R_scope.

Lemma getitem_setitem_eq (d : dict) (k v : R) : getitem (setitem d k v) k = Ok v.
Proof.
  induction d as [|[k' v'] d IH]; cbn [setitem getitem].
  - by rewrite decide_True.
  - destruct (decide (k' = k)) as [->|Hne]; cbn [getitem].
    + by rewrite decide_True.
    + by rewrite decide_False.
Qed.

Lemma getitem_setitem_ne (d : dict) (k k' v : R) :
  k ≠ k' → getitem (setitem d k v) k' = getitem d k'.
Proof.
  intros Hne. induction d as [|[k0 v0] d IH]; cbn [setitem getitem].
  - by rewrite decide_False.
  - destruct (decide (k0 = k)) as [->|Hne0]; cbn [getitem].
    + by rewrite !decide_False.
    + by rewrite IH.
Qed.

Lemma getitem_fold_setitem (kvs : list (R * R)) (d : dict) (k : R) :
  getitem (fold_left (λ d kv, setitem d kv.1 kv.2) kvs d) k
  = match last_value kvs k with Some v => Ok v | None => getitem d k end.
Proof.
  revert d. induction kvs as [|[k' v'] kvs IH]; intros d; [done|].
  cbn [fold_left fst snd]. rewrite IH. unfold last_value. rewrite filter_cons.
  cbn [fst]. destruct (decide (k' = k)) as [->|Hne].
  - rewrite last_cons. destruct (last (filter _ kvs)) as [kv|]; cbn [fmap option_fmap option_map]; [done|].
    cbn [snd]. apply getitem_setitem_eq.
  - destruct (last (filter _ kvs)) as [kv|]; cbn [fmap option_fmap option_map]; [done|].
    by apply getitem_setitem_ne.
Qed.

Lemma keys_fold_setitem (kvs : list (R * R)) (d : dict) :
  keys (fold_left (λ d kv, setitem d kv.1 kv.2) kvs d)
  = keys d ++ first_occurrences (keys d) kvs.
Proof.
  revert d. induction kvs as [|[k v] kvs IH]; intros d.
  - cbn. by rewrite app_nil_r.
  - cbn [fold_left first_occurrences fst snd]. rewrite IH, setitem_keys.
    destruct (decide (k ∈ keys d)); [done|]. by rewrite <- app_assoc.
Qed.

(** X10.  The peaks of a node hold each mass of the entry once, in the order
    of first appearance, with the intensity listed last for it; looking up a
    mass the entry does not list raises [KeyError]. *)
Theorem process_entry_peaks (entry : Entry) :
  keys (peaks (process_entry entry)) = first_occurrences [] (entry_peaks entry) ∧
  ∀ k, getitem (peaks (process_entry entry)) k
       = match last_value (entry_peaks entry) k with
         | Some v => Ok v
         | None => Raise KeyError
         end.
Proof.
  cbn [process_entry peaks]. unfold dict_of_items. split.
  - by rewrite keys_fold_setitem.
  - intros k. by rewrite getitem_fold_setitem.
Qed.

(** A mass listed twice keeps its first place and takes the later intensity. *)
Example process_entry_twice :
  peaks (process_entry entry_twice) = [(100, 9); (200, 1)] ∧
  getitem (peaks (process_entry entry_twice)) 100 = Ok 9 ∧
  getitem (peaks (process_entry entry_twice)) 150 = Raise KeyError.
Proof.
  assert (peaks (process_entry entry_twice) = [(100, 9); (200, 1)]) as ->.
  { cbn [process_entry peaks entry_twice entry_peaks]. unfold dict_of_items.
    cbn [fold_left fst snd setitem].
    rewrite (decide_False (P := 100 = 200)) by lra. cbn [setitem].
    by rewrite (decide_True (P := 100 = 100)) by lra. }
  split; [done|]. cbn [getitem]. split.
  - by rewrite decide_True by lra.
  - by rewrite !decide_False by lra.
Qed.

Lemma round_half_even_near (x : R) : Rabs (IZR (round_half_even x) - x) <= 1 / 2.
Proof.
  unfold round_half_even. pose proof (Zfloor_bound x) as [Hf1 Hf2].
  apply Rabs_le.
  destruct (decide (x - IZR (Zfloor x) < 1 / 2)); [lra|].
  destruct (decide (1 / 2 < x - IZR (Zfloor x))); [rewrite plus_IZR; lra|].
  destruct (Z.even (Zfloor x)); [lra|]. rewrite plus_IZR. lra.
Qed.

Lemma round_2_near (x : R) : Rabs (round x 2 - x) <= 0.005.
Proof.
  unfold round. pose proof (round_half_even_near (x * 10 ^ 2)) as H.
  revert H. unfold Rabs. repeat destruct (Rcase_abs _); lra.
Qed.

Lemma round_half_even_nonneg (x : R) : 0 <= x → (0 ≤ round_half_even x)%Z.
Proof.
  intros Hx. pose proof (Zfloor_lub 0 x Hx) as Hlub.
  unfold round_half_even. repeat destruct (decide _); try destruct (Z.even _); lia.
Qed.

Lemma round_2_nonneg (x : R) : 0 <= x → 0 <= round x 2.
Proof.
  intros Hx. unfold round.
  assert (0 ≤ round_half_even (x * 10 ^ 2))%Z as H
    by (apply round_half_even_nonneg; lra).
  apply IZR_le in H. apply Rmult_le_pos; [done|]. apply Rlt_le, Rinv_0_lt_compat. lra.
Qed.

(** X11.  For an entry with non-negative precursor mass and retention time
    (a missing field counts as 0), the node written carries the precursor
    mass to within 0.005 and the retention time as an integer within one
    half of it, both non-negative. *)
Theorem process_entry_attributes (entry : Entry) :
  0 <= default 0 (PEPMASS entry) → 0 <= default 0 (RTINSECONDS entry) →
  Rabs (xn_pepmass (write_node (process_entry entry)) - default 0 (PEPMASS entry)) <= 0.005 ∧
  0 <= xn_pepmass (write_node (process_entry entry)) ∧
  Rabs (IZR (xn_rt (write_node (process_entry entry))) - default 0 (RTINSECONDS entry)) <= 1 / 2 ∧
  (0 ≤ xn_rt (write_node (process_entry entry)))%Z.
Proof.
  intros Hm Hr.
  cbn [write_node process_entry xn_pepmass xn_rt pepmass retention_time
       generate_spectrum_id id_pepmass id_rt].
  split; [apply round_2_near|]. split; [by apply round_2_nonneg|].
  split; [apply round_half_even_near|by apply round_half_even_nonneg].
Qed.

Lemma process_entry_attributes_witness :
  0 <= default 0 (PEPMASS entry_Z) ∧ 0 <= default 0 (RTINSECONDS entry_Z) ∧
  Rabs (xn_pepmass (write_node (process_entry entry_Z)) - default 0 (PEPMASS entry_Z)) <= 0.005 ∧
  0 <= xn_pepmass (write_node (process_entry entry_Z)) ∧
  Rabs (IZR (xn_rt (write_node (process_entry entry_Z))) - default 0 (RTINSECONDS entry_Z)) <= 1 / 2 ∧
  (0 ≤ xn_rt (write_node (process_entry entry_Z)))%Z.
Proof.
  assert (0 <= default 0 (PEPMASS entry_Z)) as Hm by (cbn; lra).
  assert (0 <= default 0 (RTINSECONDS entry_Z)) as Hr by (cbn; lra).
  split; [exact Hm|]. split; [exact Hr|].
  exact (process_entry_attributes entry_Z Hm Hr).
Defined.

End NodeFacts.

(** ** script_03: the merging of close peaks *)
Section MergeFacts.
Import FamilyCosine MergeSpec.
Local Open Scope R_scope.

Lemma fold_left_rev {A B : Type} (f : A → B → A) (l : list B) (a : A) :
  fold_left f (rev l) a = fold_right (λ x acc, f acc x) a l.
Proof.
  induction l as [|x l IH]; [done|].
  cbn [rev fold_right]. by rewrite fold_left_app, IH.
Qed.

Lemma merge_peaks_eq (argsort : list R → list nat) (sp : Spectrum) (tolerance : R) :
  merge_peaks argsort sp tolerance
  = {| metadata := metadata sp;
       peaks := omap (λ i, peaks sp !! i)
                  (merge_sort (≤) (merge_fold sp tolerance (argsort (map snd (peaks sp)))).1) |}.
Proof.
  unfold merge_peaks, merge_fold. rewrite fold_left_rev.
  by destruct (fold_right _ _ _).
Qed.

Lemma existsb_within (tolerance mz : R) (seen : list R) :
  existsb (λ ref, bool_decide (Rabs (mz - ref) <= tolerance)) seen
  = bool_decide (Exists (λ ref, Rabs (mz - ref) <= tolerance) seen).
Proof.
  induction seen as [|ref seen IH]; cbn [existsb].
  - symmetry. apply bool_decide_eq_false. by intros ?%Exists_nil.
  - rewrite IH. destruct (decide (Rabs (mz - ref) <= tolerance)) as [Hw|Hw].
    + rewrite (bool_decide_eq_true_2 _ Hw). symmetry. apply bool_decide_eq_true.
      by apply Exists_cons_hd.
    + rewrite (bool_decide_eq_false_2 _ Hw). cbn [orb]. apply bool_decide_ext.
      rewrite Exists_cons. tauto.
Qed.

(** The three ways a turn of the loop can go. *)
Lemma merge_step_cases (sp : Spectrum) (tolerance : R) (keep : list nat) (seen : list R)
    (i : nat) :
  (peaks sp !! i = None ∧ merge_step sp tolerance (keep, seen) i = (keep, seen)) ∨
  (∃ mz int, peaks sp !! i = Some (mz, int) ∧
             Exists (λ ref, Rabs (mz - ref) <= tolerance) seen ∧
             merge_step sp tolerance (keep, seen) i = (keep, seen)) ∨
  (∃ mz int, peaks sp !! i = Some (mz, int) ∧
             Forall (λ ref, tolerance < Rabs (mz - ref)) seen ∧
             merge_step sp tolerance (keep, seen) i = (keep ++ [i], seen ++ [mz])).
Proof.
  unfold merge_step. destruct (peaks sp !! i) as [[mz int]|]; [|by left].
  right. rewrite existsb_within.
  destruct (decide (Exists (λ ref, Rabs (mz - ref) <= tolerance) seen)) as [Hex|Hno].
  - left. exists mz, int. by rewrite (bool_decide_eq_true_2 _ Hex).
  - right. exists mz, int. rewrite (bool_decide_eq_false_2 _ Hno).
    split; [done|]. split; [|done].
    apply Forall_forall. intros ref Href.
    destruct (Rlt_le_dec tolerance (Rabs (mz - ref))) as [|Hle]; [done|].
    destruct Hno. apply Exists_exists. by exists ref.
Qed.

Lemma all_apart_snoc (tolerance x : R) (l : list R) :
  all_apart tolerance l → Forall (λ y, tolerance < Rabs (x - y)) l →
  all_apart tolerance (l ++ [x]).
Proof.
  induction l as [|y l IH]; cbn [all_apart app].
  - intros _ _. split; [apply Forall_nil|]; exact I.
  - intros [Hy Hl] [Hxy Hx]%Forall_cons. split; [|by apply IH].
    apply Forall_app. split; [done|].
    apply Forall_singleton. by rewrite Rabs_minus_sym.
Qed.

Lemma all_apart_Permutation (tolerance : R) (l1 l2 : list R) :
  l1 ≡ₚ l2 → all_apart tolerance l1 → all_apart tolerance l2.
Proof.
  induction 1 as [|x l1 l2 Hp IH|x y l|l1 l2 l3 _ IH1 _ IH2]; cbn [all_apart].
  - done.
  - intros [Hx Hl]. split; [by rewrite <- Hp|by apply IH].
  - intros [[Hyx Hy]%Forall_cons [Hx Hl]]. split; [|done].
    apply Forall_cons. split; [by rewrite Rabs_minus_sym|done].
  - intros H. by apply IH2, IH1.
Qed.

Lemma all_apart_lookup (tolerance : R) (l : list R) (a b : nat) (x y : R) :
  all_apart tolerance l → a ≠ b → l !! a = Some x → l !! b = Some y →
  tolerance < Rabs (x - y).
Proof.
  revert a b. induction l as [|z l IH]; intros a b; [done|].
  cbn [all_apart]. intros [Hz Hl] Hne Ha Hb.
  rewrite Forall_forall in Hz.
  destruct a as [|a], b as [|b]; cbn in Ha, Hb.
  - done.
  - injection Ha as <-. by eapply Hz, list_elem_of_lookup_2.
  - injection Hb as <-. rewrite Rabs_minus_sym. by eapply Hz, list_elem_of_lookup_2.
  - apply (IH a b); [done|lia|done|done].
Qed.

Lemma lookup_all_apart (tolerance : R) (l : list R) :
  (∀ a b x y, a ≠ b → l !! a = Some x → l !! b = Some y → tolerance < Rabs (x - y)) →
  all_apart tolerance l.
Proof.
  induction l as [|z l IH]; intros H; cbn [all_apart]; [done|]. split.
  - apply Forall_forall. intros y [b Hb]%list_elem_of_lookup_1.
    by apply (H 0%nat (S b)).
  - apply IH. intros a b x y Hne Ha Hb. apply (H (S a) (S b)); [lia|done|done].
Qed.

(** What the loop keeps are positions of peaks, taken from the positions it
    ran over; the kept masses are pairwise apart; and under a non-negative
    tolerance no position is kept twice. *)
Lemma merge_fold_inv (sp : Spectrum) (tolerance : R) (l : list nat) :
  (merge_fold sp tolerance l).2
  = map fst (omap (λ i, peaks sp !! i) (merge_fold sp tolerance l).1) ∧
  all_apart tolerance (merge_fold sp tolerance l).2 ∧
  (∀ k, k ∈ (merge_fold sp tolerance l).1 → k ∈ l) ∧
  (0 <= tolerance → NoDup (merge_fold sp tolerance l).1).
Proof.
  induction l as [|i l (Hseen & Hapart & Hsub & Hnodup)].
  - cbn. split; [done|]. split; [done|]. split; [done|]. intros _. apply NoDup_nil. exact I.
  - cbn [merge_fold fold_right]. fold (merge_fold sp tolerance l).
    destruct (merge_fold sp tolerance l) as [keep seen]. cbn [fst snd] in *.
    destruct (merge_step_cases sp tolerance keep seen i)
      as [[_ ->]|[(mz & int & _ & _ & ->)|(mz & int & Hi & Hfar & ->)]]; cbn [fst snd].
    + split; [done|]. split; [done|]. split; [|done].
      intros k Hk. by apply list_elem_of_further, Hsub.
    + split; [done|]. split; [done|]. split; [|done].
      intros k Hk. by apply list_elem_of_further, Hsub.
    + split; [|split; [|split]].
      * rewrite omap_app, map_app. cbn [omap list_omap]. rewrite Hi. cbn. by rewrite Hseen.
      * by apply all_apart_snoc.
      * intros k [Hk| ->%list_elem_of_singleton]%elem_of_app;
          [by apply list_elem_of_further, Hsub|apply list_elem_of_here].
      * intros Htol. apply NoDup_app. split; [by apply Hnodup|]. split; [|apply NoDup_singleton].
        intros k Hk ->%list_elem_of_singleton.
        assert (mz ∈ seen) as Hmz.
        { rewrite Hseen. apply list_elem_of_fmap. exists (mz, int). split; [done|].
          apply list_elem_of_omap. by exists i. }
        rewrite Forall_forall in Hfar. specialize (Hfar mz Hmz).
        rewrite Rminus_diag, Rabs_R0 in Hfar. lra.
Qed.

Lemma merge_peaks_Permutation (argsort : list R → list nat) (sp : Spectrum) (tolerance : R) :
  peaks (merge_peaks argsort sp tolerance)
  ≡ₚ omap (λ i, peaks sp !! i) (merge_fold sp tolerance (argsort (map snd (peaks sp)))).1.
Proof. rewrite merge_peaks_eq. cbn [peaks]. by rewrite merge_sort_Permutation. Qed.

Lemma merge_peaks_all_apart (argsort : list R → list nat) (sp : Spectrum) (tolerance : R) :
  separated tolerance (peaks (merge_peaks argsort sp tolerance)).
Proof.
  intros a b p q Hne Ha Hb.
  destruct (merge_fold_inv sp tolerance (argsort (map snd (peaks sp))))
    as (Hseen & Hapart & _ & _).
  rewrite Hseen in Hapart.
  apply (all_apart_lookup tolerance (map fst (peaks (merge_peaks argsort sp tolerance))) a b);
    [|done|by rewrite list_lookup_fmap, Ha|by rewrite list_lookup_fmap, Hb].
  eapply all_apart_Permutation; [|exact Hapart].
  apply fmap_Permutation. symmetry. apply merge_peaks_Permutation.
Qed.

(** X12.  After merging, every two peaks kept are more than the tolerance
    apart in mass. *)
Theorem merge_peaks_separated (argsort : list R → list nat) (sp : Spectrum) (tolerance : R) :
  separated tolerance (peaks (merge_peaks argsort sp tolerance)).
Proof. apply merge_peaks_all_apart. Qed.

Lemma omap_ext_Forall {A B : Type} (f g : A → option B) (l : list A) :
  Forall (λ x, f x = g x) l → omap f l = omap g l.
Proof.
  induction 1 as [|x l Hx _ IH]; [done|]. cbn [omap list_omap]. by rewrite Hx, IH.
Qed.

Lemma omap_lookup_nil {A : Type} (k : nat) (l : list nat) :
  omap (λ i, (@nil A) !! (i - k)%nat) l = [].
Proof. induction l as [|i l IH]; [done|]. cbn [omap list_omap]. by rewrite IH. Qed.

(** Looking up strictly ascending positions yields a sublist. *)
Lemma omap_lookup_sublist {A : Type} (l : list A) (k : nat) (idx : list nat) :
  StronglySorted lt idx → Forall (λ i, (k ≤ i)%nat) idx →
  omap (λ i, l !! (i - k)%nat) idx `sublist_of` l.
Proof.
  revert k idx. induction l as [|x l IH]; intros k idx Hsorted Hge.
  - rewrite omap_lookup_nil. apply sublist_nil_l.
  - destruct idx as [|i idx]; [apply sublist_nil_l|].
    apply StronglySorted_inv in Hsorted as [Hsorted Hlt].
    apply Forall_cons in Hge as [Hi Hge].
    assert (Forall (λ j, (S k ≤ j)%nat) idx) as Hge'.
    { eapply Forall_impl; [exact Hlt|]. intros j Hj. cbv beta in Hj. lia. }
    assert (omap (λ j, (x :: l) !! (j - k)%nat) idx
            = omap (λ j, l !! (j - S k)%nat) idx) as Hrest.
    { apply omap_ext_Forall. eapply Forall_impl; [exact Hge'|]. intros j Hj. cbv beta in Hj |- *.
      by replace (j - k)%nat with (S (j - S k)) by lia. }
    cbn [omap list_omap]. rewrite Hrest. destruct (decide (i = k)) as [->|Hne].
    + rewrite Nat.sub_diag. cbn. apply sublist_skip. by apply IH.
    + replace (i - k)%nat with (S (i - S k)) by lia. cbn [lookup list_lookup].
      apply sublist_cons.
      change (omap (λ j, l !! (j - S k)%nat) (i :: idx) `sublist_of` l).
      apply IH; [by apply SSorted_cons|]. apply Forall_cons. split; [lia|done].
Qed.

Lemma StronglySorted_le_lt (l : list nat) :
  StronglySorted le l → NoDup l → StronglySorted lt l.
Proof.
  induction 1 as [|x l _ IH Hle]; intros Hnd; [apply SSorted_nil|].
  apply NoDup_cons in Hnd as [Hx Hnd]. apply SSorted_cons; [by apply IH|].
  apply Forall_forall. intros y Hy. rewrite Forall_forall in Hle.
  specialize (Hle y Hy). assert (x ≠ y) by (by intros ->). lia.
Qed.

(** X13.  Under a non-negative tolerance, merging only drops peaks: what is
    kept is a sublist of the input peaks, each with its mass and intensity
    and in the input order, and the metadata are those of the input. *)
Theorem merge_peaks_sublist (argsort : list R → list nat) (sp : Spectrum) (tolerance : R) :
  0 <= tolerance →
  peaks (merge_peaks argsort sp tolerance) `sublist_of` peaks sp ∧
  metadata (merge_peaks argsort sp tolerance) = metadata sp.
Proof.
  intros Htol. rewrite merge_peaks_eq. cbn [peaks metadata]. split; [|done].
  destruct (merge_fold_inv sp tolerance (argsort (map snd (peaks sp))))
    as (_ & _ & _ & Hnodup).
  set (keep := (merge_fold sp tolerance (argsort (map snd (peaks sp)))).1) in *.
  assert (omap (λ i, peaks sp !! i) (merge_sort (≤) keep)
          = omap (λ i, peaks sp !! (i - 0)%nat) (merge_sort (≤) keep)) as ->.
  { apply omap_ext_Forall, Forall_forall. intros i _. by rewrite Nat.sub_0_r. }
  apply omap_lookup_sublist.
  - apply StronglySorted_le_lt; [apply StronglySorted_merge_sort; apply _|].
    rewrite merge_sort_Permutation. by apply Hnodup.
  - apply Forall_forall. intros i _. lia.
Qed.

Lemma merge_peaks_sublist_witness :
  0 <= 0.02 ∧
  peaks (merge_peaks argsort_insertion crowded 0.02) `sublist_of` peaks crowded ∧
  metadata (merge_peaks argsort_insertion crowded 0.02) = metadata crowded.
Proof.
  assert (0 <= 0.02) as Htol by lra.
  split; [exact Htol|]. exact (merge_peaks_sublist argsort_insertion crowded 0.02 Htol).
Defined.

(** Run over positions in ascending order of intensity, the loop leaves every
    position it ran over with a kept peak close by that is at least as
    intense. *)
Lemma merge_fold_covers (sp : Spectrum) (tolerance : R) (l : list nat) :
  0 <= tolerance →
  StronglySorted (λ i j, ∀ x y, map snd (peaks sp) !! i = Some x →
                                map snd (peaks sp) !! j = Some y → x <= y) l →
  ∀ i p, i ∈ l → peaks sp !! i = Some p →
         ∃ k q, k ∈ (merge_fold sp tolerance l).1 ∧ peaks sp !! k = Some q ∧
                Rabs (p.1 - q.1) <= tolerance ∧ p.2 <= q.2.
Proof.
  intros Htol. induction 1 as [|i l Hsorted IH Hle]; intros j p Hj Hp.
  - by apply elem_of_nil in Hj.
  - destruct (merge_fold_inv sp tolerance l) as (Hseen & _ & Hsub & _).
    cbn [merge_fold fold_right]. fold (merge_fold sp tolerance l).
    destruct (merge_fold sp tolerance l) as [keep seen]. cbn [fst snd] in *.
    destruct (merge_step_cases sp tolerance keep seen i)
      as [[Hi ->]|[(mz & int & Hi & Hnear & ->)|(mz & int & Hi & _ & ->)]]; cbn [fst].
    + apply elem_of_cons in Hj as [->|Hj]; [congruence|by apply (IH j p)].
    + apply elem_of_cons in Hj as [->|Hj]; [|by apply (IH j p)].
      rewrite Hi in Hp. injection Hp as <-.
      apply Exists_exists in Hnear as (ref & Href & Hw).
      rewrite Hseen in Href.
      apply list_elem_of_fmap in Href as (q & -> & (k & Hk & Hq)%list_elem_of_omap).
      exists k, q. split; [done|]. split; [done|]. split; [done|].
      rewrite Forall_forall in Hle. apply (Hle k (Hsub k Hk)).
      * by rewrite list_lookup_fmap, Hi.
      * by rewrite list_lookup_fmap, Hq.
    + apply elem_of_cons in Hj as [->|Hj].
      * exists i, p. split; [apply elem_of_app; right; apply list_elem_of_here|].
        split; [done|]. rewrite Rminus_diag, Rabs_R0. lra.
      * destruct (IH j p Hj Hp) as (k & q & Hk & Hq & Hw).
        exists k, q. split; [apply elem_of_app; by left|done].
Qed.

(** X14.  When [argsort] returns all positions in ascending order of
    intensity and the tolerance is not negative, every input peak has a kept
    peak within the tolerance of its mass that is at least as intense. *)
Theorem merge_peaks_covers (argsort : list R → list nat) (sp : Spectrum) (tolerance : R) :
  0 <= tolerance →
  ascending_positions (map snd (peaks sp)) (argsort (map snd (peaks sp))) →
  ∀ p, p ∈ peaks sp →
       ∃ q, q ∈ peaks (merge_peaks argsort sp tolerance) ∧
            Rabs (p.1 - q.1) <= tolerance ∧ p.2 <= q.2.
Proof.
  intros Htol [Hall Hsorted] p [i Hi]%list_elem_of_lookup_1.
  destruct (merge_fold_covers sp tolerance _ Htol Hsorted i p) as (k & q & Hk & Hq & Hw).
  - apply Hall. rewrite length_map. by eapply lookup_lt_Some.
  - done.
  - exists q. split; [|done]. rewrite merge_peaks_Permutation.
    apply list_elem_of_omap. by exists k.
Qed.

(** The insertion sort is an [argsort]. *)
Lemma insert_position_Permutation (xs : list R) (i : nat) (l : list nat) :
  insert_position xs i l ≡ₚ i :: l.
Proof.
  induction l as [|j l IH]; [done|]. cbn [insert_position].
  destruct (decide _); [done|]. rewrite IH. apply perm_swap.
Qed.

Lemma argsort_insertion_Permutation (xs : list R) :
  argsort_insertion xs ≡ₚ seq 0 (length xs).
Proof.
  unfold argsort_insertion. induction (seq 0 (length xs)) as [|i l IH]; [done|].
  cbn [fold_right]. by rewrite insert_position_Permutation, IH.
Qed.

Lemma insert_position_sorted (xs : list R) (i : nat) (l : list nat) :
  StronglySorted (λ a b, value_at xs a <= value_at xs b) l →
  StronglySorted (λ a b, value_at xs a <= value_at xs b) (insert_position xs i l).
Proof.
  induction 1 as [|j l Hsorted IH Hj]; cbn [insert_position].
  - apply SSorted_cons; [apply SSorted_nil|apply Forall_nil; exact I].
  - destruct (decide (value_at xs i <= value_at xs j)) as [Hle|Hgt].
    + apply SSorted_cons; [by apply SSorted_cons|].
      apply Forall_cons. split; [done|].
      eapply Forall_impl; [exact Hj|]. intros k Hk. cbv beta in Hk |- *. lra.
    + apply SSorted_cons; [done|]. rewrite insert_position_Permutation.
      apply Forall_cons. split; [lra|done].
Qed.

Lemma argsort_insertion_ascending (xs : list R) :
  ascending_positions xs (argsort_insertion xs).
Proof.
  split.
  - intros i Hi. rewrite argsort_insertion_Permutation. apply elem_of_seq. lia.
  - assert (StronglySorted (λ a b, value_at xs a <= value_at xs b) (argsort_insertion xs))
      as Hsorted.
    { unfold argsort_insertion. induction (seq 0 (length xs)) as [|i l IH].
      - apply SSorted_nil.
      - cbn [fold_right]. by apply insert_position_sorted. }
    induction Hsorted as [|j l _ IH Hj]; [apply SSorted_nil|].
    apply SSorted_cons; [done|].
    eapply Forall_impl; [exact Hj|]. intros k Hk x y Hx Hy.
    unfold value_at in Hk. by rewrite Hx, Hy in Hk.
Qed.

Lemma merge_peaks_covers_witness :
  0 <= 0.02 ∧
  ascending_positions (map snd (peaks crowded)) (argsort_insertion (map snd (peaks crowded))) ∧
  ∀ p, p ∈ peaks crowded →
       ∃ q, q ∈ peaks (merge_peaks argsort_insertion crowded 0.02) ∧
            Rabs (p.1 - q.1) <= 0.02 ∧ p.2 <= q.2.
Proof.
  assert (0 <= 0.02) as Htol by lra.
  split; [exact Htol|]. split; [apply argsort_insertion_ascending|].
  exact (merge_peaks_covers argsort_insertion crowded 0.02 Htol
           (argsort_insertion_ascending (map snd (peaks crowded)))).
Defined.

(** On peaks that are already apart the loop keeps every position it runs
    over. *)
Lemma merge_fold_separated (sp : Spectrum) (tolerance : R) (l : list nat) :
  separated tolerance (peaks sp) → NoDup l →
  (∀ i, i ∈ l → (i < length (peaks sp))%nat) →
  (merge_fold sp tolerance l).1 = rev l.
Proof.
  intros Hsep. induction l as [|i l IH]; intros Hnd Hrange; [done|].
  apply NoDup_cons in Hnd as [Hi Hnd].
  destruct (merge_fold_inv sp tolerance l) as (Hseen & _ & _ & _).
  rewrite IH in Hseen by (first [done | intros k Hk; by apply Hrange, list_elem_of_further]).
  specialize (IH Hnd (λ k Hk, Hrange k (list_elem_of_further _ _ _ Hk))).
  cbn [merge_fold fold_right]. fold (merge_fold sp tolerance l).
  destruct (merge_fold sp tolerance l) as [keep seen]. cbn [fst snd] in *. subst keep.
  destruct (merge_step_cases sp tolerance (rev l) seen i)
    as [[Hnone _]|[(mz & int & Hlook & Hnear & _)|(mz & int & _ & _ & ->)]].
  - destruct (lookup_lt_is_Some_2 (peaks sp) i) as [p Hp]; [|congruence].
    apply Hrange, list_elem_of_here.
  - apply Exists_exists in Hnear as (ref & Href & Hw). rewrite Hseen in Href.
    apply list_elem_of_fmap in Href as (q & -> & (k & Hk & Hq)%list_elem_of_omap).
    assert (i ≠ k) as Hne.
    { intros ->. apply Hi. by rewrite list_elem_of_In, in_rev, <- list_elem_of_In. }
    pose proof (Hsep i k (mz, int) q Hne Hlook Hq) as Hfar. cbn [fst] in Hfar. lra.
  - done.
Qed.

Lemma StronglySorted_seq (k n : nat) : StronglySorted le (seq k n).
Proof.
  revert k. induction n as [|n IH]; intros k; [apply SSorted_nil|].
  cbn [seq]. apply SSorted_cons; [apply IH|].
  apply Forall_seq. intros j Hj. lia.
Qed.

Lemma omap_lookup_seq {A : Type} (pre l : list A) :
  omap (λ i, (pre ++ l) !! i) (seq (length pre) (length l)) = l.
Proof.
  revert pre. induction l as [|x l IH]; intros pre; [done|].
  cbn [length seq omap list_omap]. rewrite list_lookup_middle by done.
  f_equal. specialize (IH (pre ++ [x])).
  rewrite <- app_assoc, length_app in IH. cbn in IH.
  by rewrite Nat.add_1_r in IH.
Qed.

Lemma merge_peaks_unchanged (argsort : list R → list nat) (sp : Spectrum) (tolerance : R) :
  separated tolerance (peaks sp) →
  argsort (map snd (peaks sp)) ≡ₚ seq 0 (length (peaks sp)) →
  merge_peaks argsort sp tolerance = sp.
Proof.
  intros Hsep Hperm. rewrite merge_peaks_eq.
  rewrite merge_fold_separated; [|done| |].
  - assert (merge_sort le (rev (argsort (map snd (peaks sp)))) = seq 0 (length (peaks sp)))
      as ->.
    { apply (StronglySorted_unique le).
      - apply StronglySorted_merge_sort; apply _.
      - apply StronglySorted_seq.
      - rewrite merge_sort_Permutation, <- Permutation_rev. done. }
    pose proof (omap_lookup_seq [] (peaks sp)) as Hall. cbn [app length] in Hall.
    rewrite Hall. by destruct sp.
  - rewrite Hperm. apply NoDup_seq.
  - intros i Hi. rewrite Hperm in Hi. apply elem_of_seq in Hi. lia.
Qed.

(** X15.  A spectrum whose peaks are already more than the tolerance apart
    comes back from merging unchanged, when [argsort] returns each position
    once. *)
Theorem merge_peaks_fixed (argsort : list R → list nat) (sp : Spectrum) (tolerance : R) :
  separated tolerance (peaks sp) →
  argsort (map snd (peaks sp)) ≡ₚ seq 0 (length (peaks sp)) →
  merge_peaks argsort sp tolerance = sp.
Proof. apply merge_peaks_unchanged. Qed.

Lemma spread_separated : separated 0.02 (peaks spread).
Proof.
  intros a b p q Hne Ha Hb. unfold spread in Ha, Hb. cbn [peaks] in Ha, Hb.
  destruct a as [|[|[|a]]], b as [|[|[|b]]]; try done;
    cbn in Ha, Hb; injection Ha as <-; injection Hb as <-; cbn [fst];
    unfold Rabs; destruct (Rcase_abs _); lra.
Qed.

Lemma spread_argsort :
  argsort_insertion (map snd (peaks spread)) ≡ₚ seq 0 (length (peaks spread)).
Proof.
  rewrite argsort_insertion_Permutation. by rewrite length_map.
Qed.

Lemma merge_peaks_fixed_witness :
  separated 0.02 (peaks spread) ∧
  argsort_insertion (map snd (peaks spread)) ≡ₚ seq 0 (length (peaks spread)) ∧
  merge_peaks argsort_insertion spread 0.02 = spread.
Proof.
  split; [exact spread_separated|]. split; [exact spread_argsort|].
  exact (merge_peaks_fixed argsort_insertion spread 0.02 spread_separated spread_argsort).
Defined.

(** X16.  Merging a second time changes nothing, when [argsort] returns each
    position of the merged spectrum once. *)
Theorem merge_peaks_idempotent (argsort : list R → list nat) (sp : Spectrum) (tolerance : R) :
  argsort (map snd (peaks (merge_peaks argsort sp tolerance)))
  ≡ₚ seq 0 (length (peaks (merge_peaks argsort sp tolerance))) →
  merge_peaks argsort (merge_peaks argsort sp tolerance) tolerance
  = merge_peaks argsort sp tolerance.
Proof. intros Hperm. apply merge_peaks_unchanged; [apply merge_peaks_all_apart|done]. Qed.

Lemma crowded_argsort :
  argsort_insertion (map snd (peaks (merge_peaks argsort_insertion crowded 0.02)))
  ≡ₚ seq 0 (length (peaks (merge_peaks argsort_insertion crowded 0.02))).
Proof.
  rewrite argsort_insertion_Permutation. by rewrite length_map.
Qed.

Lemma merge_peaks_idempotent_witness :
  argsort_insertion (map snd (peaks (merge_peaks argsort_insertion crowded 0.02)))
  ≡ₚ seq 0 (length (peaks (merge_peaks argsort_insertion crowded 0.02))) ∧
  merge_peaks argsort_insertion (merge_peaks argsort_insertion crowded 0.02) 0.02
  = merge_peaks argsort_insertion crowded 0.02.
Proof.
  split; [exact crowded_argsort|].
  exact (merge_peaks_idempotent argsort_insertion crowded 0.02 crowded_argsort).
Defined.

End MergeFacts.

(** ** script_03: the run as a whole *)
Section RunFacts.
Import FamilyCosine ExpansionSpec ExpansionExamples RunExamples.
Local Open Scope R_scope.

Variable argsort : list R → list nat.
Variable normalize_intensities : Spectrum → Spectrum.
Variable CosineGreedy_pair : R → Spectrum → Spectrum → R.

Local Abbreviation processed raw := (preprocess argsort normalize_intensities raw).
Local Abbreviation run :=
  (run_final_restoration_v2 argsort normalize_intensities CosineGreedy_pair).

Lemma find_seed_Some (raw_spectrums : list Spectrum) (target_mz target_rt : R)
    (i : nat) (s : Spectrum) :
  raw_spectrums !! i = Some s → passes target_mz target_rt s →
  (∀ j s', (j < i)%nat → raw_spectrums !! j = Some s' → ¬ passes target_mz target_rt s') →
  find_seed target_mz target_rt (enumerate raw_spectrums) = Some (i, s).
Proof.
  intros Hi Hpass Hfirst.
  pose proof (find_seed_enumerate_from target_mz target_rt 0 raw_spectrums) as H.
  unfold enumerate.
  destruct (find_seed target_mz target_rt (enumerate_from 0 raw_spectrums)) as [[i' s']|].
  - rewrite Nat.sub_0_r in H. destruct H as (_ & Hi' & Hpass' & Hfirst').
    assert (i' = i) as ->.
    { destruct (Nat.lt_trichotomy i' i) as [Hlt|[->|Hgt]]; [|done|].
      - by destruct (Hfirst i' s' Hlt Hi').
      - by destruct (Hfirst' i s Hgt Hi). }
    congruence.
  - by destruct (H i s Hi).
Qed.

(** X17.  When the first eligible spectrum carries no title, the run stops
    with [TypeError] where it prints the seed, before anything is written;
    a later eligible spectrum with a title does not help. *)
Theorem seed_without_title (fuel : nat) (raw_spectrums : list Spectrum)
    (target_mz target_rt threshold : R) (i : nat) (s : Spectrum) :
  raw_spectrums !! i = Some s → passes target_mz target_rt s →
  (∀ j s', (j < i)%nat → raw_spectrums !! j = Some s' → ¬ passes target_mz target_rt s') →
  title (metadata s) = None →
  run fuel raw_spectrums target_mz target_rt threshold
  = Some {| stdout := [Loading; Searching target_mz target_rt];
            written := None;
            outcome := Raise TypeError |}.
Proof.
  intros Hi Hpass Hfirst Htitle. unfold run_final_restoration_v2.
  rewrite (find_seed_Some _ _ _ i s) by done. by rewrite Htitle.
Qed.

Lemma rtc_similar_lt (P : list Spectrum) (threshold : R) (seed i : nat) :
  (seed < length P)%nat → rtc (similar CosineGreedy_pair P threshold) seed i →
  (i < length P)%nat.
Proof.
  intros Hseed Hrtc. revert i Hrtc. apply (rtc_ind_r (λ i, (i < length P)%nat)); [done|].
  intros y z _ (a & b & _ & Hz & _) _. by eapply lookup_lt_Some.
Qed.

Lemma rtc_similar_mono (P : list Spectrum) (t1 t2 : R) (seed i : nat) :
  t1 <= t2 → rtc (similar CosineGreedy_pair P t2) seed i →
  rtc (similar CosineGreedy_pair P t1) seed i.
Proof.
  intros Hle. apply rtc_subrel. intros x y (a & b & Ha & Hb & Hs).
  exists a, b. split; [done|]. split; [done|]. lra.
Qed.

(** X18.  Raising the threshold never adds a spectrum: from the same seed,
    what the search selects under the higher threshold is among what it
    selects under the lower one. *)
Theorem explore_threshold_monotone (P : list Spectrum) (t1 t2 : R) (seed fuel : nat) :
  t1 <= t2 → (seed < length P)%nat → (length P < fuel)%nat →
  ∃ sel1 sel2,
    explore CosineGreedy_pair P t1 fuel {[seed]} [seed] = Some (Ok sel1) ∧
    explore CosineGreedy_pair P t2 fuel {[seed]} [seed] = Some (Ok sel2) ∧
    sel2 ⊆ sel1.
Proof.
  intros Hle Hseed Hfuel.
  destruct (explore_reachable CosineGreedy_pair P t1 seed fuel Hseed Hfuel)
    as (sel1 & Hrun1 & Hreach1).
  destruct (explore_reachable CosineGreedy_pair P t2 seed fuel Hseed Hfuel)
    as (sel2 & Hrun2 & Hreach2).
  exists sel1, sel2. split; [done|]. split; [done|].
  intros i Hi. apply Hreach1. eapply rtc_similar_mono; [exact Hle|]. by apply Hreach2.
Qed.

Lemma length_omap_lookup {A : Type} (l : list A) (idx : list nat) :
  Forall (λ i, (i < length l)%nat) idx → length (omap (λ i, l !! i) idx) = length idx.
Proof.
  induction 1 as [|i idx Hi _ IH]; [done|]. cbn [omap list_omap].
  destruct (lookup_lt_is_Some_2 l i Hi) as [x ->]. cbn [length]. by rewrite IH.
Qed.

Lemma NoDup_bounded_length (idx : list nat) (n : nat) :
  NoDup idx → Forall (λ i, (i < n)%nat) idx → (length idx ≤ n)%nat.
Proof.
  intros Hnd Hlt. rewrite <- (length_seq n 0). apply submseteq_length.
  apply NoDup_submseteq; [done|]. intros i Hi. rewrite Forall_forall in Hlt.
  apply elem_of_seq. specialize (Hlt i Hi). lia.
Qed.

(** X19.  When a seed with a title is found, the run returns normally and
    saves between one and all of the processed spectra, the seed's among
    them, each saved spectrum being a processed one; the count it prints
    last is the number of spectra saved. *)
Theorem run_saves_seed (fuel : nat) (raw_spectrums : list Spectrum)
    (target_mz target_rt threshold : R) (seed : nat) (s : Spectrum) (t : string) :
  find_seed target_mz target_rt (enumerate raw_spectrums) = Some (seed, s) →
  title (metadata s) = Some t →
  (length raw_spectrums < fuel)%nat →
  ∃ r specs,
    run fuel raw_spectrums target_mz target_rt threshold = Some r ∧
    outcome r = Ok () ∧ written r = Some specs ∧
    last (stdout r) = Some (Done (length specs)) ∧
    normalize_intensities (merge_peaks argsort s 0.02) ∈ specs ∧
    (1 ≤ length specs ≤ length raw_spectrums)%nat ∧
    ∀ x, x ∈ specs → x ∈ processed raw_spectrums.
Proof.
  intros Hfind Htitle Hfuel.
  assert (length (processed raw_spectrums) = length raw_spectrums) as Hlen
    by apply length_map.
  pose proof (find_seed_lookup normalize_intensities CosineGreedy_pair _ _ _ _ _ Hfind)
    as Hraw.
  assert (processed raw_spectrums !! seed
          = Some (normalize_intensities (merge_peaks argsort s 0.02))) as Hseedp.
  { unfold preprocess. by rewrite list_lookup_fmap, Hraw. }
  assert (seed < length (processed raw_spectrums))%nat as Hseed
    by (by eapply lookup_lt_Some).
  destruct (explore_reachable CosineGreedy_pair (processed raw_spectrums) threshold seed fuel)
    as (selected & Hrun & Hreach); [done|lia|].
  assert (Forall (λ i, (i < length (processed raw_spectrums))%nat) (elements selected))
    as Hrange.
  { apply Forall_forall. intros i Hi%elem_of_elements%Hreach.
    by eapply rtc_similar_lt. }
  assert (normalize_intensities (merge_peaks argsort s 0.02)
          ∈ omap (λ i, processed raw_spectrums !! i) (elements selected)) as Hin.
  { apply list_elem_of_omap. exists seed. split; [|done].
    apply elem_of_elements, Hreach, rtc_refl. }
  eexists _, _. split.
  { unfold run_final_restoration_v2. rewrite Hfind, Htitle, Hrun. done. }
  cbn [outcome written stdout]. split; [done|]. split; [done|].
  split; [by rewrite last_snoc|]. split; [done|]. split.
  - rewrite length_omap_lookup by done. split.
    + apply list_elem_of_omap in Hin as (i & Hi & _).
      destruct (elements selected); [by apply elem_of_nil in Hi|simpl; lia].
    + rewrite <- Hlen. apply NoDup_bounded_length; [apply NoDup_elements|done].
  - intros x (i & _ & Hx)%list_elem_of_omap. by eapply list_elem_of_lookup_2.
Qed.

End RunFacts.

Section RunWitnesses.
Import FamilyCosine ExpansionSpec ExpansionExamples RunExamples MergeSpec.
Local Open Scope R_scope.

Lemma untitled_passes : passes 0.001 10 untitled.
Proof.
  exists 0.002, 11. unfold untitled, spectrum_at. cbn [metadata precursor_mz retention_time].
  split; [done|]. split; [done|]. split; [lra|]. split; [lra|].
  split; unfold Rabs; destruct (Rcase_abs _); lra.
Qed.

Lemma untitled_first (j : nat) (s' : Spectrum) :
  (j < 2)%nat → [zero_mz; no_rt; untitled; eligible] !! j = Some s' → ¬ passes 0.001 10 s'.
Proof.
  intros Hj Hs'. destruct j as [|[|j]]; [| |lia]; injection Hs' as <-; rewrite passes_iff;
    unfold zero_mz, no_rt, spectrum_at; cbn [metadata precursor_mz retention_time].
  - intros [Hb _]. unfold float_bool in Hb.
    rewrite (bool_decide_eq_false_2 (0 ≠ 0)) in Hb by (intros H; by apply H). done.
  - by intros [].
Qed.

Lemma seed_without_title_witness :
  [zero_mz; no_rt; untitled; eligible] !! 2%nat = Some untitled ∧
  passes 0.001 10 untitled ∧
  (∀ j s', (j < 2)%nat → [zero_mz; no_rt; untitled; eligible] !! j = Some s' →
           ¬ passes 0.001 10 s') ∧
  title (metadata untitled) = None ∧
  run_final_restoration_v2 argsort_insertion normalize_id pair_one
    5 [zero_mz; no_rt; untitled; eligible] 0.001 10 0.7
  = Some {| stdout := [Loading; Searching 0.001 10];
            written := None;
            outcome := Raise TypeError |}.
Proof.
  split; [reflexivity|]. split; [exact untitled_passes|]. split; [exact untitled_first|].
  split; [reflexivity|].
  exact (seed_without_title argsort_insertion normalize_id pair_one
           5 [zero_mz; no_rt; untitled; eligible] 0.001 10 0.7 2 untitled
           eq_refl untitled_passes untitled_first eq_refl).
Defined.

Lemma explore_threshold_monotone_witness :
  0.5 <= 0.7 ∧ (2 < length [zero_mz; no_rt; eligible])%nat ∧
  (length [zero_mz; no_rt; eligible] < 4)%nat ∧
  ∃ sel1 sel2,
    explore pair_one [zero_mz; no_rt; eligible] 0.5 4 {[2%nat]} [2%nat] = Some (Ok sel1) ∧
    explore pair_one [zero_mz; no_rt; eligible] 0.7 4 {[2%nat]} [2%nat] = Some (Ok sel2) ∧
    sel2 ⊆ sel1.
Proof.
  assert (0.5 <= 0.7) as Hle by lra.
  assert (2 < length [zero_mz; no_rt; eligible])%nat as Hseed by (simpl; lia).
  assert (length [zero_mz; no_rt; eligible] < 4)%nat as Hfuel by (simpl; lia).
  split; [exact Hle|]. split; [exact Hseed|]. split; [exact Hfuel|].
  exact (explore_threshold_monotone pair_one [zero_mz; no_rt; eligible] 0.5 0.7 2 4
           Hle Hseed Hfuel).
Defined.

Lemma run_saves_seed_witness :
  find_seed 0.001 10 (enumerate [zero_mz; no_rt; eligible]) = Some (2%nat, eligible) ∧
  title (metadata eligible) = Some "seed" ∧
  (length [zero_mz; no_rt; eligible] < 4)%nat ∧
  ∃ r specs,
    run_final_restoration_v2 argsort_insertion normalize_id pair_one
      4 [zero_mz; no_rt; eligible] 0.001 10 0.7 = Some r ∧
    outcome r = Ok () ∧ written r = Some specs ∧
    last (stdout r) = Some (Done (length specs)) ∧
    normalize_id (merge_peaks argsort_insertion eligible 0.02) ∈ specs ∧
    (1 ≤ length specs ≤ length [zero_mz; no_rt; eligible])%nat ∧
    ∀ x, x ∈ specs → x ∈ preprocess argsort_insertion normalize_id [zero_mz; no_rt; eligible].
Proof.
  assert (length [zero_mz; no_rt; eligible] < 4)%nat as Hfuel by (simpl; lia).
  split; [exact find_seed_example|]. split; [reflexivity|]. split; [exact Hfuel|].
  exact (run_saves_seed argsort_insertion normalize_id pair_one 4
           [zero_mz; no_rt; eligible] 0.001 10 0.7 2 eligible "seed"
           find_seed_example eq_refl Hfuel).
Defined.

End RunWitnesses.

(** ** script_04: which precursor masses pass *)
Section FormulaFacts.
Import FormulaFilter FormulaSpec.
Local Open Scope R_scope.

Lemma existsb_elem_of {A : Type} (f : A → bool) (l : list A) :
  existsb f l = true ↔ ∃ x, x ∈ l ∧ f x = true.
Proof.
  rewrite existsb_exists. split; intros (x & Hx & Hf); exists x; split; try done;
    by apply list_elem_of_In.
Qed.

Lemma elem_of_range (a b k : Z) : k ∈ range a b ↔ (a ≤ k < b)%Z.
Proof. unfold range. rewrite elem_of_seqZ. lia. Qed.

(** An integer closer than one half is what rounding returns. *)
Lemma round_half_even_unique (x : R) (h : Z) :
  Rabs (IZR h - x) < 1 / 2 → round_half_even x = h.
Proof.
  intros Hnear.
  assert (- (1 / 2) < IZR h - x < 1 / 2) as [Hlo Hhi].
  { revert Hnear. unfold Rabs. destruct (Rcase_abs _); lra. }
  unfold round_half_even. destruct (Rle_or_lt (IZR h) x) as [Hle|Hlt].
  - rewrite (Zfloor_eq h x) by lra.
    rewrite decide_True by lra. done.
  - rewrite (Zfloor_eq (h - 1) x) by (rewrite minus_IZR; lra).
    rewrite minus_IZR. rewrite decide_False by lra. rewrite decide_True by lra. lia.
Qed.

Lemma int_nonneg (x : R) : 0 <= x → int x = Zfloor x.
Proof. intros Hx. unfold int. by rewrite decide_True. Qed.

Lemma even_mod (h : Z) : (h `mod` 2 = 0)%Z ↔ Z.even h = true.
Proof. rewrite Zeven_mod. by rewrite Z.eqb_eq. Qed.

Lemma oxygen_body_true (neutral_mass : R) (c o : Z) :
  oxygen_body neutral_mass c (IZR c * MASS_C) o = true →
  ∃ h, (0 ≤ h ≤ 2 * c + 2)%Z ∧ Z.even h = true ∧
       Rabs (cho_mass c h o - neutral_mass) <= TOLERANCE.
Proof.
  unfold oxygen_body. cbv zeta.
  set (h := round_half_even _).
  destruct (bool_decide (0 ≤ h)%Z) eqn:H0; [|done].
  destruct (bool_decide (h `mod` 2 = 0)%Z) eqn:H2; [|done].
  destruct (bool_decide (h ≤ 2 * c + 2)%Z) eqn:Hc; [|done].
  cbn [andb]. intros Hfit%bool_decide_eq_true.
  apply bool_decide_eq_true in H0, H2, Hc. exists h.
  split; [lia|]. split; [by apply even_mod|]. exact Hfit.
Qed.

Lemma oxygen_body_complete (neutral_mass : R) (c h o : Z) :
  (0 ≤ h ≤ 2 * c + 2)%Z → Z.even h = true →
  Rabs (cho_mass c h o - neutral_mass) <= TOLERANCE →
  oxygen_body neutral_mass c (IZR c * MASS_C) o = true.
Proof.
  intros Hh Heven Hfit. unfold oxygen_body. cbv zeta.
  assert (round_half_even ((neutral_mass - (IZR c * MASS_C + IZR o * MASS_O)) / MASS_H) = h)
    as ->.
  { apply round_half_even_unique.
    set (y := (neutral_mass - (IZR c * MASS_C + IZR o * MASS_O)) / MASS_H).
    assert (y * MASS_H = neutral_mass - (IZR c * MASS_C + IZR o * MASS_O)) as Hy.
    { unfold y, MASS_H. field. lra. }
    revert Hfit. unfold cho_mass, TOLERANCE, MASS_H in *. unfold Rabs.
    repeat destruct (Rcase_abs _); lra. }
  rewrite !bool_decide_eq_true_2; [|done|lia| by apply even_mod |lia].
  done.
Qed.

Lemma admissible_neutral_mass (neutral_mass : R) (c h o : Z) :
  admissible c h o → Rabs (cho_mass c h o - neutral_mass) <= TOLERANCE →
  IZR c * MASS_C <= neutral_mass + TOLERANCE ∧
  IZR o * MASS_O <= neutral_mass - IZR c * MASS_C + TOLERANCE ∧
  0 < neutral_mass.
Proof.
  intros ((Hc1 & Hc2) & Ho & (Hh & _) & _) Hfit.
  apply IZR_le in Hc1, Ho, Hh.
  assert (- TOLERANCE <= cho_mass c h o - neutral_mass <= TOLERANCE) as [Hlo Hhi].
  { revert Hfit. unfold Rabs. destruct (Rcase_abs _); lra. }
  unfold cho_mass, MASS_C, MASS_H, MASS_O, TOLERANCE in *. lra.
Qed.

Lemma is_valid_cho_formula_spec (pepmass : R) :
  is_valid_cho_formula pepmass = true ↔
  ∃ adduct_mass c h o,
    (adduct_mass = MASS_PROTON ∨ adduct_mass = MASS_NA) ∧ admissible c h o ∧
    Rabs (cho_mass c h o - (pepmass - adduct_mass)) <= TOLERANCE.
Proof.
  unfold is_valid_cho_formula. rewrite existsb_elem_of. split.
  - intros (adduct_mass & Hadd & Hbody). unfold adduct_body in Hbody.
    destruct (decide (pepmass - adduct_mass <= 0)); [done|].
    apply existsb_elem_of in Hbody as (c & Hc%elem_of_range & Hcarbon).
    unfold carbon_body in Hcarbon. destruct (decide _); [done|].
    apply existsb_elem_of in Hcarbon as (o & Ho%elem_of_range & Hox).
    apply oxygen_body_true in Hox as (h & Hh & Heven & Hfit).
    exists adduct_mass, c, h, o. split.
    { rewrite !elem_of_cons, elem_of_nil in Hadd. tauto. }
    split; [|done]. split; [lia|]. split; [lia|]. done.
  - intros (adduct_mass & c & h & o & Hadd & Hadm & Hfit).
    destruct (admissible_neutral_mass _ _ _ _ Hadm Hfit) as (Hcm & Hom & Hpos).
    destruct Hadm as (Hc & Ho & Hh & Heven).
    exists adduct_mass. split.
    { rewrite !elem_of_cons. tauto. }
    unfold adduct_body. rewrite decide_False by lra.
    apply existsb_elem_of. exists c. split; [apply elem_of_range; lia|].
    unfold carbon_body. rewrite decide_False by lra.
    apply existsb_elem_of. exists o. split; [|by apply (oxygen_body_complete _ c h o)].
    apply elem_of_range.
    assert (IZR o <= (pepmass - adduct_mass - IZR c * MASS_C + TOLERANCE) / MASS_O) as Hq.
    { unfold MASS_O in *. lra. }
    rewrite int_nonneg by (apply IZR_le in Ho; lra).
    pose proof (Zfloor_lub o _ Hq). lia.
Qed.


(** X20.  A precursor mass passes exactly when, for the proton or the sodium
    adduct, the neutral mass lies within 0.005 of a formula with 18 to 25
    carbon atoms, any number of oxygen atoms and an even number of hydrogen
    atoms, at most two more than twice the carbon count. *)
Theorem is_valid_cho_formula_iff (pepmass : R) :
  is_valid_cho_formula pepmass = true ↔
  ∃ adduct_mass c h o,
    (adduct_mass = MASS_PROTON ∨ adduct_mass = MASS_NA) ∧ admissible c h o ∧
    Rabs (cho_mass c h o - (pepmass - adduct_mass)) <= TOLERANCE.
Proof. apply is_valid_cho_formula_spec. Qed.

(** The protonated C20H30O2 passes; a mass of 100 is below every formula. *)
Example is_valid_cho_formula_C20H30O2 :
  is_valid_cho_formula 303.231856 = true ∧ is_valid_cho_formula 100 = false.
Proof.
  split.
  - apply is_valid_cho_formula_spec. exists MASS_PROTON, 20%Z, 30%Z, 2%Z.
    split; [by left|]. split; [unfold admissible; repeat split; lia|].
    unfold cho_mass, MASS_PROTON, MASS_C, MASS_H, MASS_O, TOLERANCE, Rabs.
    destruct (Rcase_abs _); lra.
  - destruct (is_valid_cho_formula 100) eqn:Hvalid; [|done].
    apply is_valid_cho_formula_spec in Hvalid
      as (adduct_mass & c & h & o & Hadd & Hadm & Hfit).
    destruct (admissible_neutral_mass _ _ _ _ Hadm Hfit) as (Hcm & _ & _).
    destruct Hadm as ((Hc & _) & _). apply IZR_le in Hc.
    unfold MASS_C, MASS_PROTON, MASS_NA, TOLERANCE in *.
    destruct Hadd as [-> | ->]; lra.
Qed.

End FormulaFacts.

(** ** script_05: the library of hydrocarbon masses and the peak filter *)
Section FragmentFacts.
Import FormulaFilter FragmentFilter FragmentSpec.
Local Open Scope R_scope.

Lemma formulas_setitem_keys (d : formulas) (k : R) (v : string) (m : R) :
  m ∈ map fst (setitem d k v) ↔ m ∈ map fst d ∨ m = k.
Proof.
  induction d as [|[k' v'] d IH]; cbn [setitem map fst].
  - rewrite elem_of_cons, elem_of_nil. tauto.
  - destruct (decide (k' = k)) as [-> |Hne]; cbn [map fst]; rewrite !elem_of_cons.
    + tauto.
    + rewrite IH. tauto.
Qed.

Lemma fold_setitem_keys {A : Type} (key : A → R) (val : A → string) (l : list A)
    (d : formulas) (m : R) :
  m ∈ map fst (fold_left (λ d x, setitem d (key x) (val x)) l d) ↔
  m ∈ map fst d ∨ ∃ x, x ∈ l ∧ m = key x.
Proof.
  revert d. induction l as [|x l IH]; intros d; cbn [fold_left].
  - split; [by left|]. intros [Hm|(x & Hx%elem_of_nil & _)]; done.
  - rewrite IH, formulas_setitem_keys. split.
    + intros [[Hm| ->]|(y & Hy & ->)]; [by left| |].
      * right. exists x. split; [apply list_elem_of_here|done].
      * right. exists y. split; [by apply list_elem_of_further|done].
    + intros [Hm|(y & [-> |Hy]%elem_of_cons & ->)]; [tauto|tauto|].
      right. by exists y.
Qed.

Lemma hydrogen_loop_keys (max_h : Z) (d : formulas) (c : Z) (m : R) :
  m ∈ map fst (hydrogen_loop max_h d c) ↔
  m ∈ map fst d ∨
  ∃ h, (Z.max 1 c ≤ h ≤ Z.min (2 * c + 2) max_h)%Z ∧ m = calculate_ch_mass c h.
Proof.
  unfold hydrogen_loop. cbv zeta.
  rewrite (fold_setitem_keys (calculate_ch_mass c)
             (λ h, "C" +:+ pretty c +:+ "H" +:+ pretty h)).
  split; (intros [Hm|(h & Hh & ->)]; [by left|right; exists h]).
  - apply elem_of_range in Hh. split; [lia|done].
  - split; [apply elem_of_range; lia|done].
Qed.

Lemma generate_ch_formulas_fold (max_h : Z) (l : list Z) (d : formulas) (m : R) :
  m ∈ map fst (fold_left (hydrogen_loop max_h) l d) ↔
  m ∈ map fst d ∨
  ∃ c h, c ∈ l ∧ (Z.max 1 c ≤ h ≤ Z.min (2 * c + 2) max_h)%Z ∧ m = calculate_ch_mass c h.
Proof.
  revert d. induction l as [|c l IH]; intros d; cbn [fold_left].
  - split; [by left|]. intros [Hm|(c & h & Hc%elem_of_nil & _)]; done.
  - rewrite IH, hydrogen_loop_keys. split.
    + intros [[Hm|(h & Hh & ->)]|(c' & h & Hc' & Hh & ->)]; [by left| |].
      * right. exists c, h. split; [apply list_elem_of_here|done].
      * right. exists c', h. split; [by apply list_elem_of_further|done].
    + intros [Hm|(c' & h & [-> |Hc']%elem_of_cons & Hh & ->)]; [tauto| |].
      * left. right. by exists h.
      * right. by exists c', h.
Qed.

Lemma elem_of_generate_ch_formulas (max_c max_h : Z) (m : R) :
  m ∈ map fst (generate_ch_formulas max_c max_h) ↔
  ∃ c h, ch_formula max_c max_h c h ∧ m = calculate_ch_mass c h.
Proof.
  unfold generate_ch_formulas. rewrite generate_ch_formulas_fold. unfold ch_formula. split.
  - intros [Hnil|(c & h & Hc%elem_of_range & Hh & ->)]; [by apply elem_of_nil in Hnil|].
    exists c, h. split; [split; [lia|done]|done].
  - intros (c & h & [Hc Hh] & ->). right. exists c, h.
    split; [apply elem_of_range; lia|done].
Qed.

(** X21.  The library holds exactly the masses of the formulas with [c] from
    1 to [max_c] carbon atoms and [h] hydrogen atoms, [h] from [max(1, c)] to
    the smaller of [2c + 2] and [max_h]. *)
Theorem generate_ch_formulas_keys (max_c max_h : Z) (m : R) :
  m ∈ map fst (generate_ch_formulas max_c max_h) ↔
  ∃ c h, ch_formula max_c max_h c h ∧ m = calculate_ch_mass c h.
Proof. apply elem_of_generate_ch_formulas. Qed.

Lemma matched_iff (ch : formulas) (mz : R) :
  matched ch mz = true ↔ ∃ m, m ∈ map fst ch ∧ Rabs (mz - m) <= MASS_TOLERANCE.
Proof.
  unfold matched. rewrite existsb_elem_of. split.
  - intros ([m v] & Hin & Hw%bool_decide_eq_true). exists m. split; [|done].
    apply list_elem_of_fmap. by exists (m, v).
  - intros (m & ([m' v] & -> & Hin)%list_elem_of_fmap & Hw). exists (m', v).
    split; [done|]. by apply bool_decide_eq_true.
Qed.

Lemma matched_ch_fragment (mz : R) :
  matched (generate_ch_formulas 50 100) mz = true ↔ ch_fragment mz.
Proof.
  rewrite matched_iff. unfold ch_fragment. split.
  - intros (m & (c & h & Hf & ->)%elem_of_generate_ch_formulas & Hw). by exists c, h.
  - intros (c & h & Hf & Hw). exists (calculate_ch_mass c h). split; [|done].
    apply elem_of_generate_ch_formulas. by exists c, h.
Qed.

(** The two loops in closed form. *)
Lemma fold_peak_body (ch : formulas) (pks acc : list (R * R)) :
  fold_left (peak_body ch) pks acc = acc ++ filter (λ p, matched ch p.1 = true) pks.
Proof.
  revert acc. induction pks as [|p pks IH]; intros acc; cbn [fold_left].
  - by rewrite filter_nil, app_nil_r.
  - rewrite IH, filter_cons. unfold peak_body.
    destruct (matched ch p.1); [|by rewrite decide_False].
    rewrite decide_True by done. by rewrite <- app_assoc.
Qed.

Lemma entry_body_eq (ch : formulas) (acc : list Entry) (entry : Entry) :
  entry_body ch acc entry = acc ++ option_list (kept_entry ch entry).
Proof.
  unfold entry_body, kept_entry, kept_peaks. cbv zeta.
  rewrite fold_peak_body. cbn [app].
  destruct (filter _ (peaks entry)); cbn [option_list]; [by rewrite app_nil_r|done].
Qed.

Lemma filter_ch_peaks_eq (entries : list Entry) (ch : formulas) :
  filter_ch_peaks entries ch = omap (kept_entry ch) entries.
Proof.
  unfold filter_ch_peaks.
  assert (∀ acc, fold_left (entry_body ch) entries acc = acc ++ omap (kept_entry ch) entries)
    as H; [|apply (H [])].
  induction entries as [|e entries IH]; intros acc; cbn [fold_left omap list_omap].
  - by rewrite app_nil_r.
  - rewrite IH, entry_body_eq. destruct (kept_entry ch e); cbn [option_list].
    + by rewrite <- app_assoc.
    + by rewrite app_nil_r.
Qed.

Lemma kept_entry_Some (ch : formulas) (e e' : Entry) :
  kept_entry ch e = Some e' ↔
  kept_peaks ch e ≠ [] ∧ e' = {| fields := fields e; peaks := kept_peaks ch e |}.
Proof.
  unfold kept_entry. destruct (kept_peaks ch e) as [|p ps]; split.
  - done.
  - by intros [? _].
  - intros [= <-]. done.
  - intros [_ ->]. done.
Qed.

(** X22.  With the library [main] builds, the filter keeps of every entry
    exactly the peaks whose mass lies within 0.005 of a hydrocarbon formula
    with 1 to 50 carbon atoms, in their order and with the metadata of the
    entry; an entry left without a peak is dropped, and no other is. *)
Theorem filter_ch_peaks_exact (entries : list Entry) :
  (∀ e', e' ∈ filter_ch_peaks entries (generate_ch_formulas 50 100) →
     peaks e' ≠ [] ∧
     ∃ e, e ∈ entries ∧ fields e' = fields e ∧ peaks e' `sublist_of` peaks e ∧
          ∀ p, p ∈ peaks e' ↔ p ∈ peaks e ∧ ch_fragment p.1) ∧
  (∀ e p, e ∈ entries → p ∈ peaks e → ch_fragment p.1 →
     ∃ e', e' ∈ filter_ch_peaks entries (generate_ch_formulas 50 100) ∧
           fields e' = fields e ∧ p ∈ peaks e') ∧
  map fields (filter_ch_peaks entries (generate_ch_formulas 50 100))
  `sublist_of` map fields entries.
Proof.
  rewrite filter_ch_peaks_eq. split; [|split].
  - intros e' (e & He & (Hne & ->)%kept_entry_Some)%list_elem_of_omap.
    cbn [peaks fields]. split; [done|]. exists e. split; [done|]. split; [done|].
    split; [apply sublist_filter|].
    intros p. unfold kept_peaks. rewrite list_elem_of_filter, matched_ch_fragment. tauto.
  - intros e p He Hp Hfrag.
    assert (p ∈ kept_peaks (generate_ch_formulas 50 100) e) as Hkept.
    { unfold kept_peaks. rewrite list_elem_of_filter, matched_ch_fragment. tauto. }
    exists {| fields := fields e; peaks := kept_peaks (generate_ch_formulas 50 100) e |}.
    split; [|done]. apply list_elem_of_omap. exists e. split; [done|].
    apply kept_entry_Some. split; [|done]. intros Hnil. rewrite Hnil in Hkept.
    by apply elem_of_nil in Hkept.
  - induction entries as [|e entries IH]; [done|]. cbn [omap list_omap map].
    destruct (kept_entry _ e) as [e'|] eqn:He.
    + apply kept_entry_Some in He as [_ ->]. cbn [map fields]. by apply sublist_skip.
    + by apply sublist_cons.
Qed.

Lemma kept_peaks_idemp (ch : formulas) (e : Entry) :
  kept_peaks ch {| fields := fields e; peaks := kept_peaks ch e |} = kept_peaks ch e.
Proof.
  unfold kept_peaks. cbn [peaks].
  induction (peaks e) as [|p ps IH]; [done|]. rewrite filter_cons.
  destruct (decide (matched ch p.1 = true)) as [Hm|Hm]; [|done].
  rewrite filter_cons, decide_True by done. by rewrite IH.
Qed.

(** X23.  Filtering a second time with the same library changes nothing. *)
Theorem filter_ch_peaks_idempotent (entries : list Entry) (ch : formulas) :
  filter_ch_peaks (filter_ch_peaks entries ch) ch = filter_ch_peaks entries ch.
Proof.
  rewrite !filter_ch_peaks_eq.
  induction entries as [|e entries IH]; [done|]. cbn [omap list_omap].
  destruct (kept_entry ch e) as [e'|] eqn:He; [|done].
  cbn [omap list_omap]. rewrite IH.
  apply kept_entry_Some in He as [Hne ->].
  assert (kept_entry ch {| fields := fields e; peaks := kept_peaks ch e |}
          = Some {| fields := fields e; peaks := kept_peaks ch e |}) as ->; [|done].
  apply kept_entry_Some. rewrite kept_peaks_idemp. done.
Qed.

End FragmentFacts.

(** ** script_06: what [parse_mgf] returns *)
Section MgfParserFacts.
Import MgfParser MgfSpec.
Local Open Scope R_scope.

Variable strip : string → string.
Variable peak_pattern : string → bool.
Variable split : string → list string.
Variable float : string → option R.

Local Abbreviation kind := (classify strip peak_pattern split float).

(** The loop body looks at a line only through its kind. *)
Lemma parse_line_step (st : State) (raw : string) :
  parse_line strip peak_pattern split float st raw = step st (kind raw).
Proof.
  unfold parse_line, classify. cbv zeta.
  destruct (decide (strip raw = EmptyString)); [done|].
  destruct (String.prefix "BEGIN IONS" (strip raw)); [done|].
  destruct (String.prefix "END IONS" (strip raw)); [done|].
  destruct (contains _ (strip raw)).
  - destruct (split_once _ (strip raw)) as [key value].
    destruct (current_entry st) as [i|] eqn:Hcur; cbn [is_not_None andb step].
    + done.
    + unfold update_current. by rewrite Hcur.
  - cbn [andb]. destruct (peak_pattern (strip raw)); [|by rewrite andb_false_r].
    rewrite andb_true_r.
    destruct (split (strip raw)) as [|a [|b [|c parts]]];
      try (by destruct (is_not_None _)).
    destruct (float a) as [mz|], (float b) as [intensity|];
      try (by destruct (is_not_None _)).
    destruct (current_entry st) as [i|] eqn:Hcur; cbn [is_not_None step]; [done|].
    unfold update_current. by rewrite Hcur.
Qed.

Lemma fold_parse_line (lines : list string) (st : State) :
  fold_left (parse_line strip peak_pattern split float) lines st
  = fold_left step (map kind lines) st.
Proof.
  revert st. induction lines as [|raw lines IH]; intros st; [done|].
  cbn [fold_left map]. by rewrite parse_line_step, IH.
Qed.

Lemma alter_last {A : Type} (f : A → A) (l : list A) (x : A) :
  alter f (length l) (l ++ [x]) = l ++ [f x].
Proof.
  replace (length l) with (length l + 0)%nat by lia.
  by rewrite alter_app_r.
Qed.

Lemma related_update (f : Object → Object) (st : State) (done : list Object)
    (obj : Object) (n : nat) :
  related st done (Some (obj, n)) →
  related (update_current f st) done (Some (f obj, n)).
Proof.
  intros (objs & older & Hheap & Hcur & Hent & Hlt & Hdone).
  unfold update_current. rewrite Hcur, Hheap, alter_last.
  exists objs, older. by cbn.
Qed.

Lemma omap_lookup_app_l {A : Type} (l1 l2 : list A) (idx : list nat) :
  Forall (λ i, (i < length l1)%nat) idx →
  omap (λ i, (l1 ++ l2) !! i) idx = omap (λ i, l1 !! i) idx.
Proof.
  intros Hlt. apply omap_ext_Forall. eapply Forall_impl; [exact Hlt|].
  intros i Hi. by apply lookup_app_l.
Qed.

Lemma omap_lookup_replicate {A : Type} (l : list A) (x : A) (n : nat) :
  omap (λ i, (l ++ [x]) !! i) (replicate n (length l)) = replicate n x.
Proof.
  induction n as [|n IH]; [done|]. cbn [replicate omap list_omap].
  rewrite IH. by rewrite list_lookup_middle.
Qed.

Lemma related_step (st : State) (done : list Object) (cur : option (Object * nat))
    (k : Kind) :
  related st done cur →
  related (step st k)
    (match k with Begin => done ++ flush cur | _ => done end)
    (match k with
     | Begin => Some ({| items := []; peak_list := [] |}, 0%nat)
     | _ => read k <$> cur
     end).
Proof.
  intros Hrel. destruct k as [| |key value|mz intensity|].
  - (* BEGIN IONS *)
    cbn [step]. destruct cur as [[obj n]|].
    + destruct Hrel as (objs & older & Hheap & Hcur & Hent & Hlt & Hdone).
      exists (objs ++ [obj]), (older ++ replicate n (length objs)).
      cbn [heap mgf_entries current_entry replicate]. rewrite Hheap.
      split; [done|]. split; [done|]. rewrite app_nil_r. split; [done|].
      rewrite length_app. cbn [length]. split.
      * apply Forall_app. split.
        -- eapply Forall_impl; [exact Hlt|]. intros i Hi. cbv beta in Hi |- *. lia.
        -- apply Forall_replicate. lia.
      * rewrite omap_app, omap_lookup_app_l by done.
        rewrite omap_lookup_replicate. cbn [flush]. by rewrite Hdone.
    + destruct Hrel as (Hheap & Hent & Hcur & ->).
      exists [], []. cbn [heap mgf_entries current_entry replicate flush app length].
      rewrite Hheap, Hent. cbn. split; [done|]. split; [done|]. split; [done|].
      split; [apply Forall_nil; exact I|done].
  - (* END IONS *)
    destruct cur as [[obj n]|]; cbn [fmap option_fmap option_map read fst snd step].
    + destruct Hrel as (objs & older & Hheap & Hcur & Hent & Hlt & Hdone).
      rewrite Hcur, Hheap, list_lookup_middle by done. cbn [fmap option_fmap option_map].
      destruct (peak_list obj) as [|p pks] eqn:Hpeaks.
      * exists objs, older. by rewrite Hheap, Hcur, Hent.
      * exists objs, older. cbn [heap mgf_entries current_entry].
        rewrite alter_last, Hent. split; [done|]. split; [done|].
        split; [|done]. rewrite <- app_assoc. f_equal.
        change ([length objs]) with (replicate 1 (length objs)).
        rewrite <- replicate_add. f_equal. lia.
    + destruct Hrel as (Hheap & Hent & Hcur & ->). rewrite Hcur. done.
  - (* key=value *)
    destruct cur as [[obj n]|]; cbn [fmap option_fmap option_map read fst snd step].
    + by apply related_update.
    + destruct Hrel as (Hheap & Hent & Hcur & ->). unfold update_current. by rewrite Hcur.
  - (* a peak *)
    destruct cur as [[obj n]|]; cbn [fmap option_fmap option_map read fst snd step].
    + by apply related_update.
    + destruct Hrel as (Hheap & Hent & Hcur & ->). unfold update_current. by rewrite Hcur.
  - destruct cur as [[obj n]|]; exact Hrel.
Qed.

Lemma related_readout (st : State) (done : list Object) (cur : option (Object * nat)) :
  related st done cur →
  omap (λ i, heap st !! i) (mgf_entries st) = done ++ flush cur.
Proof.
  destruct cur as [[obj n]|].
  - intros (objs & older & -> & _ & -> & Hlt & <-).
    rewrite omap_app, omap_lookup_app_l by done. by rewrite omap_lookup_replicate.
  - intros (-> & -> & _ & ->). done.
Qed.

Lemma fold_step_entries_of (ks : list Kind) (st : State) (done : list Object)
    (cur : option (Object * nat)) :
  related st done cur →
  omap (λ i, heap (fold_left step ks st) !! i) (mgf_entries (fold_left step ks st))
  = done ++ entries_of cur ks.
Proof.
  revert st done cur. induction ks as [|k ks IH]; intros st done cur Hrel.
  - cbn [fold_left entries_of]. by apply related_readout.
  - cbn [fold_left]. rewrite (IH _ _ _ (related_step _ _ _ k Hrel)).
    destruct k; cbn [entries_of]; by rewrite <- ?app_assoc.
Qed.

(** X24.  [parse_mgf] returns, for every [BEGIN IONS] line, the entry made
    of all [key=value] and peak lines up to the next [BEGIN IONS] line or
    the end of the file, those after [END IONS] included, once for each
    [END IONS] line among them that finds a peak already read; lines before
    the first [BEGIN IONS] count for nothing. *)
Theorem parse_mgf_entries_of (lines : list string) :
  parse_mgf strip peak_pattern split float lines = entries_of None (map kind lines).
Proof.
  unfold parse_mgf. cbv zeta. rewrite fold_parse_line.
  by rewrite (fold_step_entries_of _ _ [] None).
Qed.

(** Lines that neither open nor close a block add their fields and peaks. *)
Lemma entries_of_body (ks rest : list Kind) (obj : Object) (n : nat) :
  Forall (λ k, k ≠ Begin ∧ k ≠ End_) ks →
  entries_of (Some (obj, n)) (ks ++ rest)
  = entries_of (Some ({| items := fields_of ks (items obj);
                         peak_list := peak_list obj ++ peaks_of ks |}, n)) rest.
Proof.
  intros Hks. revert obj. induction Hks as [|k ks [Hb He] _ IH]; intros obj.
  - cbn [app fields_of fold_left peaks_of omap list_omap]. rewrite app_nil_r. by destruct obj.
  - destruct k as [| |key value|mz intensity|]; try done;
      cbn [app entries_of fmap option_fmap option_map read fst snd]; rewrite IH;
      cbn [set_field append_peak items peak_list fields_of fold_left peaks_of omap list_omap];
      by rewrite <- ?app_assoc.
Qed.

Lemma entries_of_blocks (blocks : list Block) (cur : option (Object * nat)) :
  Forall (clean strip peak_pattern split float) blocks →
  entries_of cur (map kind (concat (map block_lines blocks)))
  = flush cur ++ omap (block_entry strip peak_pattern split float) blocks.
Proof.
  intros Hclean. revert cur.
  induction Hclean as [|blk blocks (Hbegin & Hend & Hbody) _ IH]; intros cur.
  - cbn. by rewrite app_nil_r.
  - cbn [map concat]. unfold block_lines at 1.
    rewrite <- app_comm_cons, map_cons, Hbegin. cbn [entries_of]. f_equal.
    rewrite <- app_assoc, map_app.
    rewrite entries_of_body by (by apply Forall_fmap).
    cbn [app map items peak_list]. rewrite Hend. cbn [entries_of fmap option_fmap option_map read fst snd].
    cbn [omap list_omap]. unfold block_entry at 1. cbv zeta.
    destruct (peaks_of (map kind (body blk))) as [|p pks]; rewrite IH; done.
Qed.

(** X25.  On a file made of blocks as they should be (a [BEGIN IONS] line,
    lines of other kinds, an [END IONS] line), [parse_mgf] returns one entry
    for each block with at least one peak, in the order of the blocks: its
    fields with the last value given for each key, and its peaks in the order
    of the lines; a block without a peak is left out. *)
Theorem parse_mgf_blocks (blocks : list Block) :
  Forall (clean strip peak_pattern split float) blocks →
  parse_mgf strip peak_pattern split float (concat (map block_lines blocks))
  = omap (block_entry strip peak_pattern split float) blocks.
Proof.
  intros Hclean. unfold parse_mgf. cbv zeta. rewrite fold_parse_line.
  rewrite (fold_step_entries_of _ _ [] None) by done.
  by rewrite entries_of_blocks.
Qed.

End MgfParserFacts.

Section MgfParserWitness.
Import MgfParser MgfSpec.
Local Open Scope R_scope.

Lemma block_300_clean :
  Forall (clean strip_id pattern_100_5 split_100_5 float_100_5) [block_300].
Proof.
  apply Forall_singleton. split; [reflexivity|]. split; [reflexivity|].
  repeat (apply Forall_cons; split); try apply Forall_nil; try exact I; done.
Qed.

Lemma parse_mgf_blocks_witness :
  Forall (clean strip_id pattern_100_5 split_100_5 float_100_5) [block_300] ∧
  parse_mgf strip_id pattern_100_5 split_100_5 float_100_5
    (concat (map block_lines [block_300]))
  = omap (block_entry strip_id pattern_100_5 split_100_5 float_100_5) [block_300].
Proof.
  split; [exact block_300_clean|].
  exact (parse_mgf_blocks strip_id pattern_100_5 split_100_5 float_100_5 [block_300]
           block_300_clean).
Defined.

End MgfParserWitness.

(** ** script_04: which blocks of the file are written *)
Section FormulaFileFacts.
Import Stdlib.Strings.Ascii FormulaFilter FormulaFile.

Variable strip : string → string.
Variable float : string → option R.

Local Abbreviation read := (read_line strip float).
Local Abbreviation cut := (chunks strip).
Local Abbreviation pass := (passing strip float).

Lemma fold_read_line (lines : list string) (st : State) :
  keep_ion st = pass (current_ion st) →
  out (fold_left read lines st)
  = out st ++ concat (filter (λ c, pass c = true) (cut (current_ion st) lines)) ∧
  match_count (fold_left read lines st)
  = (match_count st + length (filter (λ c, pass c = true) (cut (current_ion st) lines)))%nat.
Proof.
  revert st. induction lines as [|line lines IH]; intros st Hkeep.
  - cbn [fold_left chunks filter concat length]. rewrite filter_nil.
    cbn. by rewrite app_nil_r, Nat.add_0_r.
  - cbn [fold_left chunks].
    assert ((if String.prefix "PEPMASS=" line
             then if pepmass_passes strip float line then true else keep_ion st
             else keep_ion st) = pass (current_ion st ++ [line])) as Hkeep'.
    { unfold passing. rewrite existsb_app. cbn [existsb]. rewrite orb_false_r.
      fold (passing strip float (current_ion st)). rewrite <- Hkeep.
      unfold passing_line.
      destruct (String.prefix "PEPMASS=" line), (pepmass_passes strip float line),
        (keep_ion st); done. }
    unfold read_line at 2 4. cbv zeta. rewrite Hkeep'.
    destruct (decide (strip line = "END IONS")) as [Hend|Hend].
    + rewrite filter_cons.
      destruct (pass (current_ion st ++ [line])) eqn:Hpass.
      * rewrite decide_True by done.
        destruct (IH {| out := out st ++ current_ion st ++ [line]; current_ion := [];
                        keep_ion := false; match_count := S (match_count st) |})
          as [-> ->]; [done|].
        cbn [out current_ion match_count concat length]. rewrite <- !app_assoc.
        split; [done|lia].
      * rewrite decide_False by done.
        destruct (IH {| out := out st; current_ion := [];
                        keep_ion := false; match_count := match_count st |})
          as [-> ->]; [done|]. done.
    + destruct (IH {| out := out st; current_ion := current_ion st ++ [line];
                      keep_ion := pass (current_ion st ++ [line]);
                      match_count := match_count st |})
        as [-> ->]; [done|]. done.
Qed.

Lemma chunks_sublist (P : list string → Prop) `{!∀ c, Decision (P c)}
    (pending lines : list string) :
  concat (filter P (cut pending lines)) `sublist_of` pending ++ lines.
Proof.
  revert pending. induction lines as [|line lines IH]; intros pending.
  - cbn. apply sublist_nil_l.
  - cbn [chunks]. destruct (decide (strip line = "END IONS")).
    + rewrite filter_cons. specialize (IH []). cbn [app] in IH.
      replace (pending ++ line :: lines) with ((pending ++ [line]) ++ lines)
        by (by rewrite <- app_assoc).
      destruct (decide (P (pending ++ [line]))).
      * cbn [concat]. by apply sublist_app.
      * by apply sublist_inserts_l.
    + specialize (IH (pending ++ [line])). by rewrite <- app_assoc in IH.
Qed.

(** X26.  The filter cuts the input after every [END IONS] line and writes,
    whole and in order, exactly the chunks that hold a line starting with
    [PEPMASS=] whose value reads as a mass that passes; the count it prints
    is the number of chunks written.  So the output is a sublist of the
    input, and what follows the last [END IONS] line is never written. *)
Theorem filter_mgf_with_nitrogen_rule_chunks (lines : list string) :
  filter_mgf_with_nitrogen_rule strip float lines
  = (concat (filter (λ c, pass c = true) (cut [] lines)),
     length (filter (λ c, pass c = true) (cut [] lines))) ∧
  (filter_mgf_with_nitrogen_rule strip float lines).1 `sublist_of` lines ∧
  (∀ c, pass c = true ↔
        ∃ line field mz, line ∈ c ∧ String.prefix "PEPMASS=" line = true ∧
          str_split "=" line !! 1%nat = Some field ∧ float (strip field) = Some mz ∧
          is_valid_cho_formula mz = true).
Proof.
  unfold filter_mgf_with_nitrogen_rule. cbv zeta.
  destruct (fold_read_line lines
              {| out := []; current_ion := []; keep_ion := false; match_count := 0 |})
    as [Hout Hcount]; [done|].
  rewrite Hout, Hcount. cbn [out current_ion match_count app fst Nat.add].
  split; [done|]. split; [apply (chunks_sublist _ [] lines)|].
  intros c. unfold passing. rewrite existsb_elem_of. unfold passing_line, pepmass_passes.
  split.
  - intros (line & Hin & [Hprefix Hpass]%andb_true_iff).
    destruct (str_split _ line !! 1%nat) as [field|] eqn:Hfield; [|done].
    destruct (float (strip field)) as [mz|] eqn:Hmz; [|done].
    by exists line, field, mz.
  - intros (line & field & mz & Hin & Hprefix & Hfield & Hmz & Hvalid).
    exists line. split; [done|]. by rewrite Hprefix, Hfield, Hmz.
Qed.

End FormulaFileFacts.

(** ** script_02: which spectra are written *)
Section TicFilterFacts.
Import TicFilter.
Local Open Scope R_scope.

Variable strip : string → string.
Variable split : string → list string.
Variable float : string → option R.
Variable min_total_intensity : R.

Local Abbreviation read := (read_line strip split float min_total_intensity).
Local Abbreviation total := (block_total strip split float).

(** Outside a spectrum, a line that is neither [BEGIN IONS] nor [END IONS]
    changes nothing. *)
Lemma fold_read_gap (lines : list string) (st : State) :
  Forall (plain strip) lines → in_spectrum st = false → fold_left read lines st = st.
Proof.
  intros Hplain Hout. induction Hplain as [|line lines [Hb He] _ IH]; [done|].
  cbn [fold_left]. unfold read_line at 2. cbv zeta.
  rewrite !decide_False by done. by rewrite Hout.
Qed.

(** Inside a spectrum, such a line is kept and its intensity added. *)
Lemma fold_read_body (lines : list string) (w cur : list string) (t : R) :
  Forall (plain strip) lines →
  fold_left read lines
    {| written := w; current_spectrum := cur; in_spectrum := true; total_intensity := t |}
  = {| written := w; current_spectrum := cur ++ lines; in_spectrum := true;
       total_intensity :=
         fold_left (λ total line, total + intensity_of split float (strip line)) lines t |}.
Proof.
  intros Hplain. revert cur t.
  induction Hplain as [|line lines [Hb He] _ IH]; intros cur t.
  - cbn. by rewrite app_nil_r.
  - cbn [fold_left]. unfold read_line at 2. cbv zeta.
    rewrite !decide_False by done. cbn [in_spectrum written current_spectrum total_intensity].
    rewrite IH. by rewrite <- app_assoc.
Qed.

Lemma fold_read_spectrum (blk : Block) (st : State) :
  clean strip blk →
  fold_left read (spectrum_lines blk) st
  = {| written := if decide (min_total_intensity <= total blk)
                  then written st ++ spectrum_lines blk else written st;
       current_spectrum := spectrum_lines blk;
       in_spectrum := false;
       total_intensity := total blk |}.
Proof.
  intros (Hbegin & Hend & Hbody & _). unfold spectrum_lines.
  cbn [fold_left]. unfold read_line at 2. cbv zeta. rewrite decide_True by done.
  rewrite fold_left_app, fold_read_body by done. cbn [fold_left].
  unfold read_line. cbv zeta.
  rewrite decide_False by (rewrite Hend; done). rewrite decide_True by done.
  cbn [written current_spectrum total_intensity]. done.
Qed.

Lemma fold_read_blocks (blocks : list Block) (st : State) :
  Forall (clean strip) blocks →
  written (fold_left read (concat (map block_lines blocks)) st)
  = written st
    ++ concat (map spectrum_lines
                 (filter (λ blk, min_total_intensity <= total blk) blocks)).
Proof.
  intros Hclean. revert st. induction Hclean as [|blk blocks Hblk _ IH]; intros st.
  - cbn. by rewrite app_nil_r.
  - cbn [map concat]. unfold block_lines at 1. rewrite !fold_left_app.
    rewrite fold_read_spectrum by done.
    destruct Hblk as (Hbegin & Hend & Hbody & Hgap).
    rewrite (fold_read_gap (gap blk)) by (first [exact Hgap | reflexivity]).
    rewrite IH, filter_cons. cbn [written].
    destruct (decide (min_total_intensity <= total blk)); [|done].
    cbn [map concat]. by rewrite <- app_assoc.
Qed.

(** X27.  On a file made of spectra as they should be, each followed by
    lines that are neither [BEGIN IONS] nor [END IONS], the filter writes,
    whole and in order, exactly the spectra whose total reaches the minimum;
    the total is taken over every line between [BEGIN IONS] and [END IONS]
    whose second field reads as a number, header lines included; lines
    outside the spectra are not written. *)
Theorem filter_mgf_by_total_intensity_blocks (before : list string) (blocks : list Block) :
  Forall (plain strip) before → Forall (clean strip) blocks →
  filter_mgf_by_total_intensity strip split float min_total_intensity
    (before ++ concat (map block_lines blocks))
  = concat (map spectrum_lines
              (filter (λ blk, min_total_intensity <= total blk) blocks)).
Proof.
  intros Hbefore Hclean. unfold filter_mgf_by_total_intensity.
  rewrite fold_left_app.
  rewrite (fold_read_gap before) by (first [exact Hbefore | reflexivity]).
  by rewrite fold_read_blocks.
Qed.

(** X28.  A second [END IONS] line right after a spectrum that was written
    makes the filter write that spectrum again, the extra line included. *)
Theorem filter_mgf_by_total_intensity_stray_end (blk : Block) (stray : string) :
  clean strip blk → min_total_intensity <= total blk → strip stray = "END IONS" →
  filter_mgf_by_total_intensity strip split float min_total_intensity
    (spectrum_lines blk ++ [stray])
  = spectrum_lines blk ++ spectrum_lines blk ++ [stray].
Proof.
  intros Hclean Hkept Hstray. unfold filter_mgf_by_total_intensity.
  rewrite fold_left_app, fold_read_spectrum by done. cbn [fold_left].
  unfold read_line. cbv zeta.
  rewrite decide_False by (rewrite Hstray; done). rewrite decide_True by done.
  cbn [written current_spectrum total_intensity]. by rewrite !decide_True by done.
Qed.

End TicFilterFacts.

Section TicFilterWitness.
Import TicFilter.
Local Open Scope R_scope.

Lemma block_5000_clean : clean strip_id block_5000.
Proof.
  split; [reflexivity|]. split; [reflexivity|].
  split; repeat (apply Forall_cons; split); try apply Forall_nil; try exact I; done.
Qed.

Lemma block_5000_total : 2000 <= block_total strip_id split_second float_2500 block_5000.
Proof.
  unfold block_total, block_5000, intensity_of, split_second, float_2500.
  cbn [body fold_left default from_option]. unfold Datatypes.id. lra.
Qed.

Lemma filter_mgf_by_total_intensity_blocks_witness :
  Forall (plain strip_id) ["junk"] ∧ Forall (clean strip_id) [block_5000] ∧
  filter_mgf_by_total_intensity strip_id split_second float_2500 2000
    (["junk"] ++ concat (map block_lines [block_5000]))
  = concat (map spectrum_lines
              (filter (λ blk, 2000 <= block_total strip_id split_second float_2500 blk)
                      [block_5000])).
Proof.
  assert (Forall (plain strip_id) ["junk"]) as Hbefore.
  { apply Forall_singleton. split; done. }
  assert (Forall (clean strip_id) [block_5000]) as Hclean
    by (apply Forall_singleton, block_5000_clean).
  split; [exact Hbefore|]. split; [exact Hclean|].
  exact (filter_mgf_by_total_intensity_blocks strip_id split_second float_2500 2000
           ["junk"] [block_5000] Hbefore Hclean).
Defined.

Lemma filter_mgf_by_total_intensity_stray_end_witness :
  clean strip_id block_5000 ∧
  2000 <= block_total strip_id split_second float_2500 block_5000 ∧
  strip_id "END IONS" = "END IONS" ∧
  filter_mgf_by_total_intensity strip_id split_second float_2500 2000
    (spectrum_lines block_5000 ++ ["END IONS"])
  = spectrum_lines block_5000 ++ spectrum_lines block_5000 ++ ["END IONS"].
Proof.
  split; [exact block_5000_clean|]. split; [exact block_5000_total|].
  split; [reflexivity|].
  exact (filter_mgf_by_total_intensity_stray_end strip_id split_second float_2500 2000
           block_5000 "END IONS" block_5000_clean block_5000_total eq_refl).
Defined.

End TicFilterWitness.

(** ** script_05: what [parse_mgf] returns *)
Section FragmentParserFacts.
Import MgfParser MgfSpec FragmentFilter FragmentParser.
Local Open Scope R_scope.

Variable strip : string → string.
Variable peak_pattern : string → bool.
Variable split : string → list string.
Variable float : string → option R.

Local Abbreviation kind := (classify strip peak_pattern split float).
Local Abbreviation parse := (FragmentParser.parse_line strip peak_pattern split float).
Local Abbreviation plain_line := (plain strip peak_pattern split float).

(** A line that matches the pattern of a peak has two fields. *)
Hypothesis two_fields : ∀ line, peak_pattern line = true → ∃ a b, split line = [a; b].

Lemma fragment_parse_line_step (st : FragmentParser.State) (raw : string) :
  parse st raw = Ok (FragmentParser.step st (kind raw)).
Proof.
  unfold FragmentParser.parse_line, classify. cbv zeta.
  destruct (decide (strip raw = EmptyString)); [done|].
  destruct (String.prefix "BEGIN IONS" (strip raw)); [done|].
  destruct (String.prefix "END IONS" (strip raw)); [done|].
  destruct (contains _ (strip raw)).
  - destruct (split_once _ (strip raw)) as [key value].
    destruct st as [entries [d|] pks]; by cbn.
  - cbn [andb]. destruct (peak_pattern (strip raw)) eqn:Hpat.
    + rewrite andb_true_r. destruct (two_fields _ Hpat) as (a & b & ->).
      destruct (float a) as [mz|], (float b) as [intensity|];
        destruct st as [entries [d|] pks]; by cbn.
    + by rewrite andb_false_r.
Qed.

Lemma fragment_for_each (lines : list string) (st : FragmentParser.State) :
  for_each parse lines st = Ok (fold_left FragmentParser.step (map kind lines) st).
Proof.
  revert st. induction lines as [|raw lines IH]; intros st; [done|].
  cbn [for_each map fold_left]. rewrite fragment_parse_line_step.
  cbn [mbind result_bind]. apply IH.
Qed.

(** Outside a block, lines that neither open nor close one change nothing. *)
Lemma fragment_fold_gap (lines : list string) (entries : list Entry) :
  Forall plain_line lines →
  fold_left FragmentParser.step (map kind lines)
    {| FragmentParser.mgf_entries := entries; FragmentParser.current_entry := None;
       peaks_data := [] |}
  = {| FragmentParser.mgf_entries := entries; FragmentParser.current_entry := None;
       peaks_data := [] |}.
Proof.
  induction 1 as [|line lines [Hb He] _ IH]; [done|].
  cbn [map fold_left]. by destruct (kind line).
Qed.

(** Inside one, they add their fields and peaks. *)
Lemma fragment_fold_body (lines : list string) (entries : list Entry)
    (d : list (string * Value)) (pks : list (R * R)) :
  Forall plain_line lines →
  fold_left FragmentParser.step (map kind lines)
    {| FragmentParser.mgf_entries := entries; FragmentParser.current_entry := Some d;
       peaks_data := pks |}
  = {| FragmentParser.mgf_entries := entries;
       FragmentParser.current_entry := Some (fields_of (map kind lines) d);
       peaks_data := pks ++ peaks_of (map kind lines) |}.
Proof.
  intros Hplain. revert d pks. induction Hplain as [|line lines [Hb He] _ IH]; intros d pks.
  - cbn. by rewrite app_nil_r.
  - cbn [map fold_left]. destruct (kind line) as [| |key value|mz intensity|]; try done;
      cbn [FragmentParser.step FragmentParser.current_entry FragmentParser.mgf_entries
           peaks_data fmap option_fmap option_map];
      rewrite IH; cbn [fields_of fold_left peaks_of omap list_omap];
      by rewrite <- ?app_assoc.
Qed.

Lemma fragment_fold_blocks (blocks : list Block) (entries : list Entry) :
  Forall (clean strip peak_pattern split float) blocks →
  fold_left FragmentParser.step (map kind (concat (map FragmentParser.block_lines blocks)))
    {| FragmentParser.mgf_entries := entries; FragmentParser.current_entry := None;
       peaks_data := [] |}
  = {| FragmentParser.mgf_entries :=
         entries ++ omap (FragmentParser.block_entry strip peak_pattern split float) blocks;
       FragmentParser.current_entry := None;
       peaks_data := [] |}.
Proof.
  intros Hclean. revert entries.
  induction Hclean as [|blk blocks (Hbegin & Hend & Hbody & Hgap) _ IH]; intros entries.
  - cbn. by rewrite app_nil_r.
  - cbn [map concat]. unfold FragmentParser.block_lines at 1.
    rewrite <- !app_comm_cons, map_cons, Hbegin. cbn [fold_left FragmentParser.step].
    rewrite <- !app_assoc, !map_app, !fold_left_app.
    unfold record_entry at 1. cbn [FragmentParser.current_entry].
    rewrite fragment_fold_body by done.
    cbn [map fold_left app]. rewrite Hend. cbn [FragmentParser.step].
    rewrite fragment_fold_gap by done. rewrite IH. f_equal.
    cbn [omap list_omap]. unfold FragmentParser.block_entry, record_entry.
    cbv zeta. cbn [FragmentParser.current_entry peaks_data FragmentParser.mgf_entries].
    destruct (peaks_of (map kind (FragmentParser.body blk))) as [|p pks]; [done|].
    by rewrite <- app_assoc.
Qed.

(** X29.  On a file made of blocks as they should be, each followed by lines
    that neither open nor close a block, this parser returns without an
    exception one entry for each block with at least one peak, in order,
    made of the lines between [BEGIN IONS] and [END IONS] alone: what
    follows [END IONS] is ignored, as is what precedes the first block. *)
Theorem fragment_parse_mgf_blocks (before : list string) (blocks : list Block) :
  Forall plain_line before → Forall (clean strip peak_pattern split float) blocks →
  FragmentParser.parse_mgf strip peak_pattern split float
    (before ++ concat (map FragmentParser.block_lines blocks))
  = Ok (omap (FragmentParser.block_entry strip peak_pattern split float) blocks).
Proof.
  intros Hbefore Hclean. unfold FragmentParser.parse_mgf.
  rewrite fragment_for_each. cbn [mbind result_bind].
  rewrite map_app, fold_left_app, fragment_fold_gap by done.
  by rewrite fragment_fold_blocks.
Qed.

End FragmentParserFacts.

Section FragmentParserWitness.
Import MgfParser MgfSpec FragmentFilter FragmentParser.
Local Open Scope R_scope.

Lemma two_fields_100_5 (line : string) :
  pattern_100_5 line = true → ∃ a b, split_100_5 line = [a; b].
Proof. intros _. by exists "100", "5". Qed.

Lemma fragment_block_300_clean :
  Forall (clean strip_id pattern_100_5 split_100_5 float_100_5) [FragmentParser.block_300].
Proof.
  apply Forall_singleton. split; [reflexivity|]. split; [reflexivity|].
  split; repeat (apply Forall_cons; split); try apply Forall_nil; try exact I; done.
Qed.

Lemma fragment_before_plain :
  Forall (plain strip_id pattern_100_5 split_100_5 float_100_5) ["COM=x"].
Proof. apply Forall_singleton. split; done. Qed.

Lemma fragment_parse_mgf_blocks_witness :
  (∀ line, pattern_100_5 line = true → ∃ a b, split_100_5 line = [a; b]) ∧
  Forall (plain strip_id pattern_100_5 split_100_5 float_100_5) ["COM=x"] ∧
  Forall (clean strip_id pattern_100_5 split_100_5 float_100_5) [FragmentParser.block_300] ∧
  FragmentParser.parse_mgf strip_id pattern_100_5 split_100_5 float_100_5
    (["COM=x"] ++ concat (map FragmentParser.block_lines [FragmentParser.block_300]))
  = Ok (omap (FragmentParser.block_entry strip_id pattern_100_5 split_100_5 float_100_5)
             [FragmentParser.block_300]).
Proof.
  split; [exact two_fields_100_5|]. split; [exact fragment_before_plain|].
  split; [exact fragment_block_300_clean|].
  exact (fragment_parse_mgf_blocks strip_id pattern_100_5 split_100_5 float_100_5
           two_fields_100_5 ["COM=x"] [FragmentParser.block_300]
           fragment_before_plain fragment_block_300_clean).
Defined.

End FragmentParserWitness.

(** ** script_01: what is left of a spectrum *)
Section DenoisingFacts.
Import Denoising.
Local Open Scope R_scope.

Variable mode : list R → R.

Lemma filter_filter_lt (m : R) (data : list (R * R)) :
  0 < m →
  filter (λ x, m < x.2) (filter (λ x, 0 < x.2) data) = filter (λ x, m < x.2) data.
Proof.
  intros Hm. induction data as [|p data IH]; [done|].
  rewrite !filter_cons. destruct (decide (0 < p.2)) as [Hp|Hp].
  - rewrite filter_cons. by rewrite IH.
  - rewrite IH. rewrite decide_False; [done|]. lra.
Qed.

(** X30.  When the intensities are whole numbers, [mode] returns one of the
    values it is given, and the spectrum has a peak of positive intensity,
    the peaks written are exactly those above the intensity of one of the
    spectrum's own peaks; so the spectrum loses at least one peak. *)
Theorem final_peaks_above_mode (spectrum_data : list (R * R)) :
  (∀ xs, xs ≠ [] → mode xs ∈ xs) → whole_intensities spectrum_data →
  Exists (λ x, 0 < x.2) spectrum_data →
  ∃ p, p ∈ spectrum_data ∧ 0 < p.2 ∧
       final_peaks mode spectrum_data = filter (λ x, p.2 < x.2) spectrum_data ∧
       (length (final_peaks mode spectrum_data) < length spectrum_data)%nat ∧
       (1 ≤ removed mode spectrum_data)%nat.
Proof.
  intros Hmode Hwhole Hpos. unfold removed, final_peaks. cbv zeta.
  remember (filter (λ x, 0 < x.2) spectrum_data) as valid eqn:Hvalid.
  assert (map (λ x, IZR (round_half_even x.2)) valid = map snd valid) as Hround.
  { apply map_ext_Forall. unfold whole_intensities in Hwhole.
    rewrite Forall_forall in Hwhole |- *. intros x Hx. rewrite Hvalid in Hx.
    apply list_elem_of_filter in Hx. apply Hwhole, Hx. }
  assert (valid ≠ []) as Hne.
  { apply Exists_exists in Hpos as (x & Hx & Hx0). intros Hnil.
    assert (x ∈ valid) as Hin by (rewrite Hvalid; by apply list_elem_of_filter).
    rewrite Hnil in Hin. by apply elem_of_nil in Hin. }
  assert (mode (map snd valid) ∈ map snd valid) as Hm.
  { apply Hmode. intros Hnil. apply Hne. by apply map_eq_nil in Hnil. }
  apply list_elem_of_fmap in Hm as (p & Hp & Hin).
  rewrite Hvalid in Hin. apply list_elem_of_filter in Hin as [Hp0 Hin].
  destruct valid as [|v valid']; [done|].
  rewrite Hround, Hp, Hvalid, filter_filter_lt by done.
  exists p. split; [done|]. split; [done|]. split; [done|].
  assert (length (filter (λ x, (p.2 < x.2)%R) spectrum_data) < length spectrum_data)%nat
    as Hlt by (apply (length_filter_lt _ _ p); [done|lra]).
  split; [done|lia].
Qed.

End DenoisingFacts.

Section DenoisingWitness.
Import Denoising.
Local Open Scope R_scope.

Lemma mode_first_elem (xs : list R) : xs ≠ [] → mode_first xs ∈ xs.
Proof. destruct xs as [|x xs]; [done|]. intros _. apply list_elem_of_here. Qed.

Lemma round_half_even_IZR (z : Z) : IZR (round_half_even (IZR z)) = IZR z.
Proof.
  f_equal. apply round_half_even_unique. rewrite Rminus_diag, Rabs_R0. lra.
Qed.

Lemma counts_whole : whole_intensities counts.
Proof.
  unfold whole_intensities, counts.
  repeat (apply Forall_cons; split); try apply Forall_nil; try exact I;
    cbn [snd]; apply round_half_even_IZR.
Qed.

Lemma counts_positive : Exists (λ x, 0 < x.2) counts.
Proof. apply Exists_cons_hd. cbn. lra. Qed.

Lemma final_peaks_above_mode_witness :
  (∀ xs, xs ≠ [] → mode_first xs ∈ xs) ∧ whole_intensities counts ∧
  Exists (λ x, 0 < x.2) counts ∧
  ∃ p, p ∈ counts ∧ 0 < p.2 ∧
       final_peaks mode_first counts = filter (λ x, p.2 < x.2) counts ∧
       (length (final_peaks mode_first counts) < length counts)%nat ∧
       (1 ≤ removed mode_first counts)%nat.
Proof.
  split; [exact mode_first_elem|]. split; [exact counts_whole|].
  split; [exact counts_positive|].
  exact (final_peaks_above_mode mode_first counts mode_first_elem counts_whole
           counts_positive).
Defined.

End DenoisingWitness.
